(** * generate.js: the static site generator of breadpoets.org

    A shallow embedding of [generateSite] (src/generate.js) and the
    properties of its build pipeline.

    The program is one asynchronous function that runs a linear sequence of
    file-system calls (fs-extra), template calls (Handlebars) and console
    writes inside a single [try]/[catch].  The embedding is a state and
    exception monad over a [world] that holds the file-system tree and the
    console; the libraries the program calls are either modelled on that
    world (fs-extra, path, Array.prototype.sort, ToString) or taken from
    the [Runtime] interface (Handlebars, JSON.parse, the collation behind
    [localeCompare], [__dirname], the release of fs-extra). *)

From Stdlib Require Import String Ascii List ZArith Lia Bool.
From Stdlib Require Import Permutation Sorted.
Import ListNotations.
Local Open Scope string_scope.
Local Open Scope list_scope.
Set Warnings "-register-all".

(** ** Exceptions and results *)

(** The exceptions a build can raise.  Every one of them is caught by the
    single [catch] of [generateSite]. *)
Inductive error : Type :=
| TypeError        (* property of null, call of a non-function, ToString of an object *)
| SyntaxError      (* JSON.parse *)
| TemplateError    (* Handlebars: compilation (done at the first call) or rendering *)
| ENOENT           (* no such file or directory *)
| ENOTDIR          (* a path component, or the directory read, is a file *)
| EISDIR           (* a file operation on a directory *)
| EEXIST           (* mkdir over a file *)
| CopyMismatch.    (* fs-extra copy: directory over non-directory or the reverse *)

Inductive result (A : Type) : Type :=
| Ok (a : A)
| Throw (e : error).
Arguments Ok {A} a.
Arguments Throw {A} e.

Definition rbind {A B} (r : result A) (k : A -> result B) : result B :=
  match r with
  | Ok a => k a
  | Throw e => Throw e
  end.

Definition is_ok {A} (r : result A) : bool :=
  match r with Ok _ => true | Throw _ => false end.

(** ** JSON values, as [JSON.parse] builds them *)

(** A number is kept as its canonical rendering (what [Number::toString]
    gives): the program only ever interpolates numbers into strings.  A
    string is its sequence of code units.  An object is the list of its own
    properties in enumeration order; [JSON.parse] keeps keys distinct. *)
Inductive json : Type :=
| JNull
| JBool (b : bool)
| JNum (repr : string)
| JStr (s : string)
| JArr (items : list json)
| JObj (fields : list (string * json)).

(** First binding of a key in an association list. *)
Fixpoint assoc {V} (k : string) (l : list (string * V)) : option V :=
  match l with
  | [] => None
  | (k', v) :: l' => if String.eqb k k' then Some v else assoc k l'
  end.

(** Assignment [o[k] = v]: an existing property keeps its place, a new one
    goes last. *)
Fixpoint assoc_set {V} (k : string) (v : V) (l : list (string * V))
  : list (string * V) :=
  match l with
  | [] => [(k, v)]
  | (k', v') :: l' =>
      if String.eqb k k' then (k, v) :: l' else (k', v') :: assoc_set k v l'
  end.

(** Decimal rendering of an array index. *)
Fixpoint digits_of (fuel n : nat) (acc : string) : string :=
  match fuel with
  | O => acc
  | S fuel' =>
      let d := String (ascii_of_nat (48 + Nat.modulo n 10)) acc in
      if Nat.ltb n 10 then d else digits_of fuel' (Nat.div n 10) d
  end.

Definition index_name (n : nat) : string := digits_of (S n) n "".

Fixpoint indexed {V} (i : nat) (l : list V) : list (string * V) :=
  match l with
  | [] => []
  | v :: l' => (index_name i, v) :: indexed (S i) l'
  end.

Fixpoint code_units (s : string) : list json :=
  match s with
  | EmptyString => []
  | String c s' => JStr (String c EmptyString) :: code_units s'
  end.

(** The own enumerable properties an object spread [{...v}] copies: the
    fields of an object, the indexed elements of an array, the indexed
    code units of a string, nothing for null, booleans and numbers. *)
Definition own_props (v : json) : list (string * json) :=
  match v with
  | JObj fields => fields
  | JArr items => indexed 0 items
  | JStr s => indexed 0 (code_units s)
  | _ => []
  end.

(** Member access [v.k] for a key that no prototype defines ([headline],
    [slug]): [None] is [undefined]; reading a property of [null] throws. *)
Definition get_member (v : json) (k : string) : result (option json) :=
  match v with
  | JNull => Throw TypeError
  | JObj fields => Ok (assoc k fields)
  | _ => Ok None
  end.

Definition has_key (k : string) (fields : list (string * json)) : bool :=
  match assoc k fields with Some _ => true | None => false end.

(** ToString.  An array joins its elements with a comma, null elements
    giving the empty string.  A parsed object has no callable [toString] of
    its own: it renders through [Object.prototype.toString] unless an own
    [toString] key shadows it, in which case the conversion throws. *)
Fixpoint to_string (v : json) : result string :=
  match v with
  | JNull => Ok "null"
  | JBool true => Ok "true"
  | JBool false => Ok "false"
  | JNum repr => Ok repr
  | JStr s => Ok s
  | JArr items =>
      (fix join (first : bool) (l : list json) : result string :=
         match l with
         | [] => Ok ""
         | x :: l' =>
             rbind (match x with JNull => Ok "" | _ => to_string x end)
               (fun sx =>
                  rbind (join false l')
                    (fun rest =>
                       Ok ((if first then "" else ",") ++ sx ++ rest)%string))
         end) true items
  | JObj fields =>
      if has_key "toString" fields then Throw TypeError
      else Ok "[object Object]"
  end.

(** ToString of a possibly undefined value. *)
Definition to_string_val (v : option json) : result string :=
  match v with
  | None => Ok "undefined"
  | Some j => to_string j
  end.

(** [s.endsWith(suffix)]. *)
Definition endsWith (s suffix : string) : bool :=
  let n := String.length s in
  let m := String.length suffix in
  Nat.leb m n && String.eqb (substring (n - m) m s) suffix.

(** ** Paths (the [path] module, POSIX flavour) *)

(** A normalized path is the list of its components, outermost first. *)
Definition path : Type := list string.

(** [path.join(p, name)] for a single plain component [name]: a literal
    file name of the program or an entry name that [readdir] returned. *)
Definition child (p : path) (name : string) : path := p ++ [name].

(** The components of a string, cut at every slash. *)
Fixpoint split_path (s : string) : list string :=
  match s with
  | EmptyString => [""]
  | String c s' =>
      if Ascii.eqb c "/" then "" :: split_path s'
      else match split_path s' with
           | seg :: segs => String c seg :: segs
           | [] => [String c ""]
           end
  end.

(** One step of normalization over the reversed components seen so far:
    empty and [.] components vanish, [..] drops the last component (and
    stays at the root). *)
Definition norm_step (stack : list string) (seg : string) : list string :=
  if String.eqb seg "" then stack
  else if String.eqb seg "." then stack
  else if String.eqb seg ".." then tl stack
  else seg :: stack.

(** [path.join(base, s)] for a normalized absolute [base] and an arbitrary
    string [s]. *)
Definition path_join (base : path) (s : string) : path :=
  rev (fold_left norm_step (split_path s) (rev base)).

(** ** The file-system tree *)

(** A directory holds its entries by name; the order in which the
    operating system hands them out is the world's business, see
    [readdir_order]. *)
Inductive node : Type :=
| File (data : string)
| Dir (entries : list (string * node)).

Definition is_file (n : node) : bool :=
  match n with File _ => true | Dir _ => false end.

Fixpoint lookup (p : path) (n : node) : option node :=
  match p with
  | [] => Some n
  | s :: p' =>
      match n with
      | File _ => None
      | Dir es =>
          match assoc s es with
          | Some c => lookup p' c
          | None => None
          end
      end
  end.

(** Bind the node [v] at [p]; the parent of [p] has to be a directory. *)
Fixpoint put (p : path) (v : node) (n : node) : option node :=
  match p with
  | [] => Some v
  | s :: p' =>
      match n with
      | File _ => None
      | Dir es =>
          match p', assoc s es with
          | [], _ => Some (Dir (assoc_set s v es))
          | _, Some c =>
              match put p' v c with
              | Some c' => Some (Dir (assoc_set s c' es))
              | None => None
              end
          | _, None => None
          end
      end
  end.

(** [mkdir -p]: every missing component is created; a file in the way is
    an error. *)
Fixpoint mkdirs (p : path) (n : node) : result node :=
  match n with
  | File _ => Throw (match p with [] => EEXIST | _ => ENOTDIR end)
  | Dir es =>
      match p with
      | [] => Ok n
      | s :: p' =>
          let c := match assoc s es with Some c => c | None => Dir [] end in
          rbind (mkdirs p' c) (fun c' => Ok (Dir (assoc_set s c' es)))
      end
  end.

(** What fs-extra's [copy] leaves at the destination: a file replaces a
    file, a directory is merged entry by entry into a directory, and a
    directory never replaces a file nor a file a directory. *)
Fixpoint copy_onto (src : node) (dst : option node) : result node :=
  match src with
  | File data =>
      match dst with
      | Some (Dir _) => Throw CopyMismatch
      | _ => Ok (File data)
      end
  | Dir es =>
      match dst with
      | Some (File _) => Throw CopyMismatch
      | None => Ok (Dir es)
      | Some (Dir ds) =>
          rbind
            ((fix merge (l : list (string * node)) (acc : list (string * node))
                : result (list (string * node)) :=
                match l with
                | [] => Ok acc
                | (name, c) :: l' =>
                    rbind (copy_onto c (assoc name acc))
                      (fun c' => merge l' (assoc_set name c' acc))
                end) es ds)
            (fun merged => Ok (Dir merged))
      end
  end.

(** ** What the program takes from its runtime *)

Class Runtime : Type := {
  (** [__dirname], a normalized absolute path. *)
  dirname : path;
  (** [Handlebars.compile(source)]: the compiled template, a function of
      its context.  Handlebars compiles at the first call, so a template
      that does not compile throws there. *)
  Handlebars_compile : string -> json -> result string;
  (** [JSON.parse], [None] for a text that is not JSON. *)
  JSON_parse : string -> option json;
  (** [String.prototype.localeCompare]: negative, zero or positive. *)
  localeCompare : string -> string -> Z;
  (** The release of fs-extra that is installed (the program pins none):
      from 11.4.1 on, [emptyDir] passes on what [readdir] reports for a
      path that is not a directory; before, every failure of [readdir]
      led to [mkdirs]. *)
  emptyDir_rethrows : bool
}.

(** ** The world and the build monad *)

Inductive log_line : Type :=
| Log (s : string)        (* console.log *)
| Warn (s : string)       (* console.warn *)
| LogError (e : error).   (* console.error('Error during site generation:', error) *)

(** The operating system decides the order in which a directory is
    enumerated: [readdir_order w p names] is what it hands out for the
    directory at [p] whose entries are [names]. *)
Record world : Type := {
  fs : node;
  console : list log_line;
  readdir_order : path -> list string -> list string
}.

Definition with_fs (t : node) (w : world) : world :=
  {| fs := t; console := console w; readdir_order := readdir_order w |}.

Definition with_line (l : log_line) (w : world) : world :=
  {| fs := fs w; console := console w ++ [l]; readdir_order := readdir_order w |}.

(** A computation runs on a world and either returns or throws; what it
    did to the world before throwing stays done. *)
Definition M (A : Type) : Type := world -> result A * world.

Definition ret {A} (a : A) : M A := fun w => (Ok a, w).

Definition bind {A B} (m : M A) (k : A -> M B) : M B :=
  fun w =>
    match m w with
    | (Ok a, w') => k a w'
    | (Throw e, w') => (Throw e, w')
    end.

Definition lift {A} (r : result A) : M A := fun w => (r, w).

Notation "x <- m ;; k" := (bind m (fun x => k))
  (at level 61, m at next level, right associativity).
Notation "m ;; k" := (bind m (fun _ => k))
  (at level 61, right associativity).

(** *** Names in code-unit order *)

(** The order of [Array.prototype.sort] without a comparison, on strings:
    code unit by code unit, a proper prefix first. *)
Fixpoint name_leb (s t : string) : bool :=
  match s, t with
  | EmptyString, _ => true
  | String _ _, EmptyString => false
  | String a s', String b t' =>
      if Nat.ltb (nat_of_ascii a) (nat_of_ascii b) then true
      else if Nat.eqb (nat_of_ascii a) (nat_of_ascii b) then name_leb s' t'
      else false
  end.

Fixpoint insert_name (x : string) (l : list string) : list string :=
  match l with
  | [] => [x]
  | y :: l' => if name_leb x y then x :: l else y :: insert_name x l'
  end.

(** [names.sort()]. *)
Definition sort_names (l : list string) : list string :=
  fold_right insert_name [] l.

(** *** fs-extra *)

(** A read of a path that does not resolve reports [ENOENT] (the model
    does not tell it from [ENOTDIR]). *)
Definition readFile (p : path) : M string :=
  fun w =>
    match lookup p (fs w) with
    | Some (File data) => (Ok data, w)
    | Some (Dir _) => (Throw EISDIR, w)
    | None => (Throw ENOENT, w)
    end.

(** fs-extra's [readdir] is the one of graceful-fs, which sorts the names
    the operating system hands out before it returns them. *)
Definition readdir (p : path) : M (list string) :=
  fun w =>
    match lookup p (fs w) with
    | Some (Dir es) => (Ok (sort_names (readdir_order w p (map fst es))), w)
    | Some (File _) => (Throw ENOTDIR, w)
    | None => (Throw ENOENT, w)
    end.

Definition pathExists (p : path) : M bool :=
  fun w =>
    match lookup p (fs w) with
    | Some _ => (Ok true, w)
    | None => (Ok false, w)
    end.

(** A write under a missing parent reports [ENOENT] (the model does not
    tell it from [ENOTDIR]). *)
Definition writeFile (p : path) (data : string) : M unit :=
  fun w =>
    match lookup p (fs w) with
    | Some (Dir _) => (Throw EISDIR, w)
    | _ =>
        match put p (File data) (fs w) with
        | Some t => (Ok tt, with_fs t w)
        | None => (Throw ENOENT, w)
        end
    end.

Definition ensureDir (p : path) : M unit :=
  fun w =>
    match mkdirs p (fs w) with
    | Ok t => (Ok tt, with_fs t w)
    | Throw e => (Throw e, w)
    end.

(** [emptyDir]: the entries of an existing directory are removed; a path
    that does not resolve goes through [mkdirs]; for a regular file at the
    path, [readdir] reports [ENOTDIR], which the release either passes on
    or answers with [mkdirs], which then reports [EEXIST]. *)
Definition emptyDir {RT : Runtime} (p : path) : M unit :=
  fun w =>
    match lookup p (fs w) with
    | Some (Dir _) =>
        match put p (Dir []) (fs w) with
        | Some t => (Ok tt, with_fs t w)
        | None => (Throw ENOENT, w)
        end
    | Some (File _) =>
        if emptyDir_rethrows then (Throw ENOTDIR, w) else ensureDir p w
    | None => ensureDir p w
    end.

(** [copy(src, dest)]: the kinds of source and destination are checked,
    the parent of the destination is created, the source is copied. *)
Definition copy (src dest : path) : M unit :=
  fun w =>
    match lookup src (fs w) with
    | None => (Throw ENOENT, w)
    | Some n =>
        match copy_onto n (lookup dest (fs w)) with
        | Throw e => (Throw e, w)
        | Ok n' =>
            match mkdirs (removelast dest) (fs w) with
            | Throw e => (Throw e, w)
            | Ok t =>
                match put dest n' t with
                | Some t' => (Ok tt, with_fs t' w)
                | None => (Throw ENOENT, with_fs t w)
                end
            end
        end
    end.

(** *** console *)

Definition console_log (s : string) : M unit :=
  fun w => (Ok tt, with_line (Log s) w).

Definition console_warn (s : string) : M unit :=
  fun w => (Ok tt, with_line (Warn s) w).

(** ** Compiled templates *)

Record templates : Type := {
  layoutTemplate : json -> result string;
  recipeTemplate : json -> result string;
  indexTemplate : json -> result string
}.

Section Generate.
Context {RT : Runtime}.

Definition publicDir : path := child dirname "public".
Definition dataDir : path := child dirname "data".
Definition recipesDir : path := child dataDir "recipes".
Definition templatesDir : path := child dirname "templates".
Definition rootDir : path := dirname.
Definition imagesDir : path := child rootDir "images".
Definition publicImagesDir : path := child publicDir "images".

(** [fs.readJson]. *)
Definition readJson (p : path) : M json :=
  content <- readFile p ;;
  match JSON_parse content with
  | Some j => ret j
  | None => lift (Throw SyntaxError)
  end.

(** Lines 17-23: read and compile templates. *)
Definition read_templates : M templates :=
  layoutSource <- readFile (child templatesDir "layout.hbs") ;;
  recipeSource <- readFile (child templatesDir "recipe.hbs") ;;
  indexSource <- readFile (child templatesDir "index.hbs") ;;
  ret {| layoutTemplate := Handlebars_compile layoutSource;
         recipeTemplate := Handlebars_compile recipeSource;
         indexTemplate := Handlebars_compile indexSource |}.

(** Lines 32-38: the loop over the directory listing. *)
Fixpoint read_recipes (recipeFiles : list string) (allRecipesData : list json)
  : M (list json) :=
  match recipeFiles with
  | [] => ret allRecipesData
  | recipeFile :: rest =>
      if endsWith recipeFile ".jsonld" then
        content <- readJson (child recipesDir recipeFile) ;;
        read_recipes rest (allRecipesData ++ [content])
      else read_recipes rest allRecipesData
  end.

(** Line 41: the comparison [(a, b) => a.headline.localeCompare(b.headline)].
    The receiver [a.headline] has to be a string, since only strings have a
    [localeCompare] method; the argument [b.headline] goes through
    ToString. *)
Definition compare_headlines (a b : json) : result Z :=
  rbind (get_member a "headline")
    (fun ah =>
       match ah with
       | Some (JStr s) =>
           rbind (get_member b "headline")
             (fun bh =>
                rbind (to_string_val bh) (fun t => Ok (localeCompare s t)))
       | _ => Throw TypeError
       end).

(** [Array.prototype.sort] with a comparison that may throw.  The language
    makes the sort stable and leaves the sequence of comparisons to the
    engine; the model is the stable insertion sort, in which every element
    after the first is compared, as the receiver [a], against elements of
    the already sorted prefix (V8 calls the comparison that way round).

    What the model returns is what any stable sort returns.  When it
    throws is the engine's business: V8 sorts an array of fewer than 64
    elements by binary insertion, where, as here, every element after
    the first is the receiver of a comparison and the first never is,
    so that the model throws exactly when V8 does; from 64 elements on
    V8 merges runs, and an element that heads a later run may only ever
    be an argument, so that V8 can return where the model throws.  The
    properties that rest on a throw of the sort are stated for fewer
    than 64 records. *)
Fixpoint sort_insert (cmp : json -> json -> result Z) (x : json)
  (sorted : list json) : result (list json) :=
  match sorted with
  | [] => Ok [x]
  | y :: sorted' =>
      rbind (cmp x y)
        (fun c =>
           if (c <? 0)%Z then Ok (x :: y :: sorted')
           else rbind (sort_insert cmp x sorted') (fun r => Ok (y :: r)))
  end.

Fixpoint sort_from (cmp : json -> json -> result Z) (sorted rest : list json)
  : result (list json) :=
  match rest with
  | [] => Ok sorted
  | x :: rest' =>
      rbind (sort_insert cmp x sorted) (fun s => sort_from cmp s rest')
  end.

Definition array_sort (cmp : json -> json -> result Z) (l : list json)
  : result (list json) :=
  sort_from cmp [] l.

(** Lines 46-50: the context of the layout for a recipe page,
    [{ ...recipeData, body: recipeContent, recipes: allRecipesData }]. *)
Definition page_context (recipeData : json) (recipeContent : string)
  (allRecipesData : list json) : json :=
  JObj (assoc_set "recipes" (JArr allRecipesData)
          (assoc_set "body" (JStr recipeContent) (own_props recipeData))).

Definition indexTitle : string := "The Bread Poets' Society: recipes in verse".

(** Lines 59-64: the context of the layout for the index page. *)
Definition index_context (indexContent : string) (allRecipesData : list json)
  : json :=
  JObj [("pageTitle", JStr indexTitle);
        ("body", JStr indexContent);
        ("recipes", JArr allRecipesData)].

(** The interpolation [`${recipeData.slug}.html`]. *)
Definition page_name (recipeData : json) : result string :=
  rbind (get_member recipeData "slug")
    (fun slug => rbind (to_string_val slug) (fun s => Ok (s ++ ".html")%string)).

(** Lines 44-53: generate recipe pages. *)
Fixpoint generate_pages (T : templates) (allRecipesData todo : list json)
  : M unit :=
  match todo with
  | [] => ret tt
  | recipeData :: rest =>
      recipeContent <- lift (recipeTemplate T recipeData) ;;
      pageHtml <- lift (layoutTemplate T
                          (page_context recipeData recipeContent allRecipesData)) ;;
      name <- lift (page_name recipeData) ;;
      writeFile (path_join publicDir name) pageHtml ;;
      console_log ("Generated: " ++ name) ;;
      generate_pages T allRecipesData rest
  end.

(** Lines 58-66: generate the index page. *)
Definition generate_index (T : templates) (allRecipesData : list json)
  : M unit :=
  indexContent <- lift (indexTemplate T (JObj [])) ;;
  indexHtml <- lift (layoutTemplate T
                       (index_context indexContent allRecipesData)) ;;
  writeFile (child publicDir "index.html") indexHtml ;;
  console_log "Generated: index.html".

Definition assetsToCopy : list string :=
  ["bps.css"; "CNAME"; "robots.txt"; "favicon.ico"; "bread1.gif";
   "img_4638_small.jpg"; "lemony_chickpea.jpg"; "pancakes-small.jpg";
   "smack-pie.jpg"; "why.html"; "colorgame.html"].

(** Lines 87-96: copy the manifest. *)
Fixpoint copy_assets (assets : list string) : M unit :=
  match assets with
  | [] => ret tt
  | asset :: rest =>
      let sourcePath := child rootDir asset in
      let destPath := child publicDir asset in
      present <- pathExists sourcePath ;;
      (if present : bool then
         copy sourcePath destPath ;;
         console_log ("Copied: " ++ asset)
       else console_warn ("Asset not found, skipped: " ++ asset)) ;;
      copy_assets rest
  end.

(** Lines 101-104: the loop over the images listing. *)
Fixpoint copy_image_files (imageFiles : list string) : M unit :=
  match imageFiles with
  | [] => ret tt
  | imgFile :: rest =>
      copy (child imagesDir imgFile) (child publicImagesDir imgFile) ;;
      console_log ("Copied image: images/" ++ imgFile) ;;
      copy_image_files rest
  end.

Definition images_warning : string :=
  "Root images directory not found, skipped copying images from there.".

(** Lines 99-107: copy the images folder. *)
Definition copy_images : M unit :=
  present <- pathExists imagesDir ;;
  if present : bool then
    imageFiles <- readdir imagesDir ;;
    copy_image_files imageFiles
  else console_warn images_warning.

(** Lines 14-38: everything before the sort. *)
Definition load : M (templates * list json) :=
  emptyDir publicDir ;;
  T <- read_templates ;;
  recipeFiles <- readdir recipesDir ;;
  allRecipesData <- read_recipes recipeFiles [] ;;
  ret (T, allRecipesData).

(** Lines 44-66: the pages, for the collection as sorted. *)
Definition render (T : templates) (allRecipesData : list json) : M unit :=
  generate_pages T allRecipesData allRecipesData ;;
  generate_index T allRecipesData.

(** Lines 69-110: the asset-copy step and the closing line. *)
Definition copy_static : M unit :=
  ensureDir publicImagesDir ;;
  copy_assets assetsToCopy ;;
  copy_images ;;
  console_log "Static site generation complete!".

(** The body of the [try] block. *)
Definition generateSite_try : M unit :=
  loaded <- load ;;
  allRecipesData <- lift (array_sort compare_headlines (snd loaded)) ;;
  render (fst loaded) allRecipesData ;;
  copy_static.

(** How the process ends: status 0 when the promise resolves, status 1
    from [process.exit(1)] in the [catch], after the error line. *)
Record outcome : Type := {
  exit_code : Z;
  final : world
}.

Definition settle (r : result unit * world) : outcome :=
  match r with
  | (Ok _, w') => {| exit_code := 0; final := w' |}
  | (Throw e, w') => {| exit_code := 1; final := with_line (LogError e) w' |}
  end.

Definition generateSite (w : world) : outcome := settle (generateSite_try w).

End Generate.

(** ** Vocabulary of the properties *)

(** What a path resolves to, without the listing of a directory. *)
Inductive kind : Type :=
| KNone
| KFile (data : string)
| KDir.

Definition kind_at (p : path) (t : node) : kind :=
  match lookup p t with
  | None => KNone
  | Some (File data) => KFile data
  | Some (Dir _) => KDir
  end.

(** Two paths that part ways at some component. *)
Definition diverge (p q : path) : Prop :=
  exists common a b p' q',
    p = common ++ a :: p' /\ q = common ++ b :: q' /\ a <> b.

(** The string headline of a record, when it has one. *)
Definition headline_of (r : json) : option string :=
  match r with
  | JObj fields =>
      match assoc "headline" fields with
      | Some (JStr s) => Some s
      | _ => None
      end
  | _ => None
  end.

Definition has_headline (r : json) : Prop := headline_of r <> None.

Section Vocabulary.
Context {RT : Runtime}.

(** A consistent comparison, in the sense the language asks of the
    argument of [sort]: swapping the arguments swaps the sign, and the
    induced order is transitive. *)
Record consistent (cmp : string -> string -> Z) : Prop := {
  cmp_flip : forall s t, (cmp s t < 0 <-> 0 < cmp t s)%Z;
  cmp_trans : forall s t u, (cmp s t <= 0 -> cmp t u <= 0 -> cmp s u <= 0)%Z
}.

(** [a] is not after [b] in headline order. *)
Definition headline_le (a b : json) : Prop :=
  exists s t,
    headline_of a = Some s /\ headline_of b = Some t /\
    (localeCompare s t <= 0)%Z.

(** The headline comparison as a total function: a record without a
    string headline counts as having the empty one. *)
Definition headline_key (r : json) : string :=
  match headline_of r with
  | Some s => s
  | None => ""
  end.

Definition lc (a b : json) : Z := localeCompare (headline_key a) (headline_key b).

Definition lc_le (a b : json) : Prop := (lc a b <= 0)%Z.

(** [same_headline z r]: the headline of [r] compares equal to that of
    [z]. *)
Definition same_headline (z r : json) : bool := (lc z r =? 0)%Z.

(** The stable insertion sort by [lc], without exceptions. *)
Fixpoint insert_headline (x : json) (l : list json) : list json :=
  match l with
  | [] => [x]
  | y :: l' =>
      if (lc x y <? 0)%Z then x :: y :: l' else y :: insert_headline x l'
  end.

Definition sorted_by_headline (l : list json) : list json :=
  fold_left (fun sorted x => insert_headline x sorted) l [].

(** The build gets through loading, sorting and page generation, and
    starts the asset-copy step in the world [w2]. *)
Definition reaches_copy_static (w w2 : world) : Prop :=
  exists T loaded w1 sorted,
    load w = (Ok (T, loaded), w1) /\
    array_sort compare_headlines loaded = Ok sorted /\
    render T sorted w1 = (Ok tt, w2).

(** Every manifest asset found at the source root is a regular file. *)
Definition assets_are_files (t : node) : Prop :=
  forall asset n,
    In asset assetsToCopy -> lookup (child rootDir asset) t = Some n ->
    is_file n = true.

(** The operating system hands out the entries of the directory at [p],
    each once. *)
Definition enumerates (w : world) (p : path) : Prop :=
  forall es,
    lookup p (fs w) = Some (Dir es) ->
    NoDup (map fst es) /\
    Permutation (map fst es) (readdir_order w p (map fst es)).

(** The images source is absent, or a directory that can be listed. *)
Definition images_listable (w : world) : Prop :=
  (forall data, lookup imagesDir (fs w) <> Some (File data)) /\
  enumerates w imagesDir.

(** The state of the output directory while pages are being written: it
    is a directory, none of its entries is a directory, and it has no
    entry [images]. *)
Definition pages_only (t : node) : Prop :=
  kind_at publicDir t = KDir /\
  (forall name, kind_at (child publicDir name) t <> KDir) /\
  kind_at publicImagesDir t = KNone.

(** The outcome of [readJson] on the entry [name] of the data directory,
    as a function of the tree. *)
Definition record_at (t : node) (name : string) : result json :=
  match lookup (child recipesDir name) t with
  | Some (File data) =>
      match JSON_parse data with
      | Some j => Ok j
      | None => Throw SyntaxError
      end
  | Some (Dir _) => Throw EISDIR
  | None => Throw ENOENT
  end.

Definition record_of (t : node) (name : string) : json :=
  match record_at t name with
  | Ok j => j
  | Throw _ => JNull
  end.

Definition is_data_file (name : string) : bool := endsWith name ".jsonld".

(** [t'] is [t] with the output directory rewritten: a directory stands
    at [publicDir], with whatever entries, and nothing else differs. *)
Definition rewrites_output (t t' : node) : Prop :=
  exists es, put publicDir (Dir es) t = Some t'.

(** The build after its first step, the clearing of the output
    directory. *)
Definition after_emptyDir : M unit :=
  T <- read_templates ;;
  recipeFiles <- readdir recipesDir ;;
  allRecipesData <- read_recipes recipeFiles [] ;;
  loaded <- ret (T, allRecipesData) ;;
  allRecipesData <- lift (array_sort compare_headlines (snd loaded)) ;;
  render (fst loaded) allRecipesData ;;
  copy_static.

(** The page of the record is written inside the output directory. *)
Definition stays_in_output (r : json) : Prop :=
  forall name, page_name r = Ok name ->
    exists q, path_join publicDir name = publicDir ++ q.

(** The build on [w] leaves the data files, the templates, the assets and
    everything else beside the output directory exactly as they were: what
    it ends with is what it had once the output directory was cleared,
    with the output directory rewritten. *)
Definition leaves_sources (w : world) : Prop :=
  forall w0,
    emptyDir publicDir w = (Ok tt, w0) ->
    rewrites_output (fs w0) (fs (final (generateSite w))).

(** The lines that report a generated page. *)
Definition is_generated (l : log_line) : bool :=
  match l with
  | Log s => String.prefix "Generated: " s
  | _ => false
  end.

End Vocabulary.

Definition with_order (o : path -> list string -> list string) (w : world)
  : world :=
  {| fs := fs w; console := console w; readdir_order := o |}.

(** Two worlds with the same tree, whose directories are handed out with
    the same names, in whatever order; the consoles may differ. *)
Definition same_files (w w' : world) : Prop :=
  fs w' = fs w /\
  forall p names,
    Permutation (readdir_order w p names) (readdir_order w' p names).

(** A computation that, on worlds with the same files, returns the same
    and leaves worlds with the same files. *)
Definition respects {A} (m : M A) : Prop :=
  forall w w', same_files w w' ->
    fst (m w') = fst (m w) /\ same_files (snd (m w)) (snd (m w')).

(** ** A runtime and some worlds to run the build on *)

(** Collation by code unit. *)
Fixpoint demo_compare (s t : string) : Z :=
  match s, t with
  | EmptyString, EmptyString => 0
  | EmptyString, String _ _ => -1
  | String _ _, EmptyString => 1
  | String a s', String b t' =>
      let d := (Z.of_nat (nat_of_ascii a) - Z.of_nat (nat_of_ascii b))%Z in
      if (d =? 0)%Z then demo_compare s' t' else d
  end.

(** The data files of the demo worlds and what they parse to; any other
    text is malformed. *)
Definition demo_records : list (string * json) :=
  [("{slug:apple-pie,headline:Pie}",
    JObj [("slug", JStr "apple-pie"); ("headline", JStr "Pie")]);
   ("{slug:berry-pie,headline:Pie}",
    JObj [("slug", JStr "berry-pie"); ("headline", JStr "Pie")]);
   ("{slug:crumpets,headline:Crumpets,pageTitle:Tea}",
    JObj [("slug", JStr "crumpets"); ("headline", JStr "Crumpets");
          ("pageTitle", JStr "Tea")]);
   ("{slug:untitled}", JObj [("slug", JStr "untitled")])].

Definition demo_parse (text : string) : option json := assoc text demo_records.

Definition demo_field (k : string) (ctx : json) : string :=
  match ctx with
  | JObj fields =>
      match assoc k fields with
      | Some (JStr s) => s
      | _ => ""
      end
  | _ => ""
  end.

Definition demo_nav (ctx : json) : string :=
  match ctx with
  | JObj fields =>
      match assoc "recipes" fields with
      | Some (JArr rs) =>
          fold_right (fun r acc => (demo_field "slug" r ++ "," ++ acc)%string)
            "" rs
      | _ => ""
      end
  | _ => ""
  end.

(** A deterministic template engine: the source, then the title, the
    body and the slugs of the navigation, in the order of [recipes]. *)
Definition demo_render (source : string) (ctx : json) : result string :=
  Ok (source ++ "|" ++ demo_field "pageTitle" ctx ++ "|"
        ++ demo_field "body" ctx ++ "|" ++ demo_nav ctx)%string.

Definition demo_runtime : Runtime :=
  {| dirname := ["site"];
     Handlebars_compile := demo_render;
     JSON_parse := demo_parse;
     localeCompare := demo_compare;
     emptyDir_rethrows := true |}.

Definition demo_tree_with (recipes beside : list (string * node)) : node :=
  Dir [("site",
        Dir ([("templates",
               Dir [("layout.hbs", File "layout");
                    ("recipe.hbs", File "recipe");
                    ("index.hbs", File "index")]);
              ("data", Dir [("recipes", Dir recipes)])] ++ beside))].

Definition demo_tree (recipes : list (string * node)) : node :=
  demo_tree_with recipes
    [("bps.css", File "body{}");
     ("robots.txt", File "User-agent: *");
     ("images", Dir [("loaf.png", File "PNG"); ("crumb.png", File "PNG2")])].

Definition in_stored_order : path -> list string -> list string :=
  fun _ names => names.

(** The data directory handed out backwards, everything else as stored. *)
Definition recipes_reversed : path -> list string -> list string :=
  fun p names =>
    if list_eq_dec string_dec p ["site"; "data"; "recipes"] then rev names
    else names.

Definition demo_world (recipes : list (string * node))
  (order : path -> list string -> list string) : world :=
  {| fs := demo_tree recipes; console := []; readdir_order := order |}.

Definition crumpets_file : string * node :=
  ("crumpets.jsonld", File "{slug:crumpets,headline:Crumpets,pageTitle:Tea}").
Definition apple_file : string * node :=
  ("apple.jsonld", File "{slug:apple-pie,headline:Pie}").
Definition berry_file : string * node :=
  ("berry.jsonld", File "{slug:berry-pie,headline:Pie}").
Definition untitled_file : string * node :=
  ("untitled.jsonld", File "{slug:untitled}").
Definition broken_file : string * node :=
  ("broken.jsonld", File "{slug:").
Definition notes_file : string * node :=
  ("notes.txt", File "not a recipe").

(** Three recipes, two of them under the same headline. *)
Definition pantry : world :=
  demo_world [notes_file; crumpets_file; apple_file; berry_file]
    in_stored_order.

(** A record without a headline, alone, and after another record. *)
Definition lone_untitled : world :=
  demo_world [untitled_file] in_stored_order.
Definition late_untitled : world :=
  demo_world [apple_file; untitled_file] in_stored_order.

(** A malformed data file, and no data file at all. *)
Definition spoiled : world :=
  demo_world [apple_file; broken_file] in_stored_order.
Definition bare : world :=
  demo_world [notes_file] in_stored_order.

(** A project without an images directory. *)
Definition imageless : world :=
  {| fs := demo_tree_with [apple_file] [("bps.css", File "body{}")];
     console := [];
     readdir_order := in_stored_order |}.

(** ** Vocabulary of the further properties *)

Section Pages.
Context {RT : Runtime}.

(** Lines 45-51 without the write: the file a recipe page goes to and
    what is written there. *)
Definition page_of (T : templates) (allRecipesData : list json)
  (recipeData : json) : result (path * string) :=
  rbind (recipeTemplate T recipeData)
    (fun recipeContent =>
       rbind (layoutTemplate T
                (page_context recipeData recipeContent allRecipesData))
         (fun pageHtml =>
            rbind (page_name recipeData)
              (fun name => Ok (path_join publicDir name, pageHtml)))).

(** Lines 58-64: the index page. *)
Definition index_page (T : templates) (allRecipesData : list json)
  : result string :=
  rbind (indexTemplate T (JObj []))
    (fun indexContent =>
       layoutTemplate T (index_context indexContent allRecipesData)).

Definition indexPath : path := child publicDir "index.html".

(** The name in the line that reports a recipe page. *)
Definition reported_name (recipeData : json) : string :=
  match page_name recipeData with
  | Ok name => name
  | Throw _ => ""
  end.

(** A record whose headline can be the argument of a comparison:
    [b.headline] can be read and converted to a string. *)
Definition argument_ok (r : json) : bool :=
  is_ok (rbind (get_member r "headline") to_string_val).

Definition has_headlineb (r : json) : bool :=
  match headline_of r with Some _ => true | None => false end.

End Pages.

Definition path_eqb (p q : path) : bool :=
  if list_eq_dec string_dec p q then true else false.

(** What the last of the writes [pages] left at [p], if any of them went
    there. *)
Fixpoint last_page (p : path) (pages : list (path * string)) : option string :=
  match pages with
  | [] => None
  | (q, html) :: rest =>
      match last_page p rest with
      | Some later => Some later
      | None => if path_eqb q p then Some html else None
      end
  end.

Fixpoint no_slash (s : string) : bool :=
  match s with
  | EmptyString => true
  | String c s' => negb (Ascii.eqb c "/") && no_slash s'
  end.

Definition completion_line : string := "Static site generation complete!".

(** A console line that ends nothing: not the error line, not the
    completion line. *)
Definition plain_line (l : log_line) : Prop :=
  match l with
  | Log s => s <> completion_line
  | Warn _ => True
  | LogError _ => False
  end.

(** A computation that only appends lines satisfying [P]. *)
Definition appends (P : log_line -> Prop) {A} (m : M A) : Prop :=
  forall w r w', m w = (r, w') ->
    exists lines, console w' = console w ++ lines /\ Forall P lines.

(** ** More worlds: records and projects that go wrong *)

Definition apple_record : json :=
  JObj [("slug", JStr "apple-pie"); ("headline", JStr "Pie")].
Definition berry_record : json :=
  JObj [("slug", JStr "berry-pie"); ("headline", JStr "Pie")].
Definition crumpets_record : json :=
  JObj [("slug", JStr "crumpets"); ("headline", JStr "Crumpets");
        ("pageTitle", JStr "Tea")].

(** A slug that leaves the output directory, the slug of the index page,
    a slug that cannot be converted to a string, no slug, and no record
    at all. *)
Definition stray_record : json :=
  JObj [("slug", JStr "../stray"); ("headline", JStr "Stray")].
Definition index_record : json :=
  JObj [("slug", JStr "index"); ("headline", JStr "Index")].
Definition zest_record : json :=
  JObj [("slug", JObj [("toString", JNull)]); ("headline", JStr "Zest")].
Definition nameless_record : json :=
  JObj [("headline", JStr "Nameless")].

Definition odd_records : list (string * json) :=
  [("{slug:../stray,headline:Stray}", stray_record);
   ("{slug:index,headline:Index}", index_record);
   ("{slug:{toString:null},headline:Zest}", zest_record);
   ("{headline:Nameless}", nameless_record);
   ("null", JNull)].

Definition odd_parse (text : string) : option json :=
  assoc text (demo_records ++ odd_records).

Definition odd_runtime : Runtime :=
  {| dirname := ["site"];
     Handlebars_compile := demo_render;
     JSON_parse := odd_parse;
     localeCompare := demo_compare;
     emptyDir_rethrows := false |}.

(** The three templates of the demo trees, compiled. *)
Definition demo_templates : templates :=
  {| layoutTemplate := demo_render "layout";
     recipeTemplate := demo_render "recipe";
     indexTemplate := demo_render "index" |}.

Definition stray_file : string * node :=
  ("stray.jsonld", File "{slug:../stray,headline:Stray}").
Definition index_file : string * node :=
  ("index.jsonld", File "{slug:index,headline:Index}").
Definition zest_file : string * node :=
  ("zest.jsonld", File "{slug:{toString:null},headline:Zest}").
Definition nameless_file : string * node :=
  ("nameless.jsonld", File "{headline:Nameless}").
Definition null_file : string * node :=
  ("null.jsonld", File "null").

Definition runaway : world :=
  demo_world [apple_file; stray_file] in_stored_order.
Definition index_twice : world :=
  demo_world [index_file; apple_file] in_stored_order.
Definition unnameable : world :=
  demo_world [zest_file; apple_file] in_stored_order.
Definition nameless : world :=
  demo_world [nameless_file; apple_file] in_stored_order.
Definition void : world :=
  demo_world [null_file] in_stored_order.

(** A project without its index template, one without a data directory,
    and one where [public] is a regular file. *)
Definition untemplated : world :=
  {| fs := Dir [("site",
                 Dir [("templates",
                       Dir [("layout.hbs", File "layout");
                            ("recipe.hbs", File "recipe")]);
                      ("data", Dir [("recipes", Dir [apple_file])])])];
     console := [];
     readdir_order := in_stored_order |}.
Definition dataless : world :=
  {| fs := Dir [("site",
                 Dir [("templates",
                       Dir [("layout.hbs", File "layout");
                            ("recipe.hbs", File "recipe");
                            ("index.hbs", File "index")])])];
     console := [];
     readdir_order := in_stored_order |}.
Definition blocked : world :=
  {| fs := demo_tree_with [apple_file] [("public", File "not a directory")];
     console := [];
     readdir_order := in_stored_order |}.

(** * Properties *)

(** ** Association lists *)

Lemma assoc_set_same {V} (k : string) (v : V) l :
  assoc k (assoc_set k v l) = Some v.
Proof.
  induction l as [|[k' v'] l IH]; simpl.
  - now rewrite String.eqb_refl.
  - destruct (String.eqb k k') eqn:E; simpl.
    + now rewrite String.eqb_refl.
    + now rewrite E.
Qed.

Lemma assoc_set_other {V} (k k' : string) (v : V) l :
  k' <> k -> assoc k' (assoc_set k v l) = assoc k' l.
Proof.
  intros Hne. induction l as [|[k0 v0] l IH]; simpl.
  - destruct (String.eqb_spec k' k); [contradiction|reflexivity].
  - destruct (String.eqb_spec k k0) as [->|Hk]; simpl.
    + destruct (String.eqb_spec k' k0); [contradiction|reflexivity].
    + destruct (String.eqb_spec k' k0); [reflexivity|exact IH].
Qed.

Lemma assoc_set_id {V} (k : string) (v : V) l :
  assoc k l = Some v -> assoc_set k v l = l.
Proof.
  induction l as [|[k0 v0] l IH]; simpl; [discriminate|].
  destruct (String.eqb_spec k k0) as [->|Hk].
  - now intros [= ->].
  - intros H. now rewrite IH.
Qed.

Lemma assoc_In {V} (k : string) (v : V) l :
  assoc k l = Some v -> In k (map fst l).
Proof.
  induction l as [|[k0 v0] l IH]; simpl; [discriminate|].
  destruct (String.eqb_spec k k0) as [->|Hk]; auto.
Qed.

Lemma In_assoc {V} (k : string) (l : list (string * V)) :
  In k (map fst l) -> exists v, assoc k l = Some v.
Proof.
  induction l as [|[k0 v0] l IH]; simpl; [tauto|].
  intros [->|H].
  - rewrite String.eqb_refl. eauto.
  - destruct (String.eqb k k0); eauto.
Qed.

(** ** Paths *)

Lemma diverge_sym p q : diverge p q -> diverge q p.
Proof.
  intros (c & a & b & p' & q' & -> & -> & H).
  exists c, b, a, q', p'. repeat split; congruence.
Qed.

Lemma diverge_cons_inv s p q :
  diverge (s :: p) (s :: q) -> diverge p q.
Proof.
  intros (c & a & b & p' & q' & Hp & Hq & H).
  destruct c as [|c0 c]; simpl in *.
  - congruence.
  - injection Hp as _ ->. injection Hq as _ ->.
    exists c, a, b, p', q'. repeat split; auto.
Qed.

Lemma diverge_nil_l q : ~ diverge [] q.
Proof.
  intros (c & a & b & p' & q' & Hp & _). destruct c; discriminate.
Qed.

(** ** The file-system tree *)

Lemma lookup_app p q t :
  lookup (p ++ q) t =
  match lookup p t with Some n => lookup q n | None => None end.
Proof.
  revert t. induction p as [|s p IH]; intros t; simpl; [reflexivity|].
  destruct t as [d|es]; [reflexivity|].
  destruct (assoc s es); [apply IH|reflexivity].
Qed.

Lemma lookup_child p name t es :
  lookup p t = Some (Dir es) ->
  lookup (child p name) t = assoc name es.
Proof.
  intros H. unfold child. rewrite lookup_app, H. simpl.
  destruct (assoc name es); reflexivity.
Qed.

(** A node bound at [q] is found at [q]. *)
Lemma lookup_put_same q v t t' :
  put q v t = Some t' -> lookup q t' = Some v.
Proof.
  revert t t'. induction q as [|s q IH]; intros t t'; simpl.
  - now intros [= ->].
  - destruct t as [d|es]; [discriminate|].
    destruct q as [|s' q].
    + intros [= <-]. simpl. now rewrite assoc_set_same.
    + destruct (assoc s es) as [c|]; [|discriminate].
      destruct (put (s' :: q) v c) as [c'|] eqn:E; [|discriminate].
      intros [= <-]. simpl lookup at 1. rewrite assoc_set_same.
      now apply IH with (t := c).
Qed.

(** Binding a node at [q] leaves every path that diverges from [q] alone. *)
Lemma lookup_put_diverge q v t t' p :
  put q v t = Some t' -> diverge p q -> lookup p t' = lookup p t.
Proof.
  revert t t' p. induction q as [|s q IH]; intros t t' p Hput Hd.
  - apply diverge_sym in Hd. now apply diverge_nil_l in Hd.
  - destruct p as [|a p]; [now apply diverge_nil_l in Hd|].
    simpl in Hput. destruct t as [d|es]; [discriminate|].
    destruct (String.eqb_spec a s) as [->|Hne].
    + apply diverge_cons_inv in Hd.
      destruct q as [|s' q]; [now apply diverge_sym, diverge_nil_l in Hd|].
      destruct (assoc s es) as [c|] eqn:Ec; [|discriminate].
      destruct (put (s' :: q) v c) as [c'|] eqn:E; [|discriminate].
      injection Hput as <-. simpl. rewrite assoc_set_same, Ec.
      now apply IH.
    + assert (Hes : forall c', lookup (a :: p) (Dir (assoc_set s c' es))
                               = lookup (a :: p) (Dir es)).
      { intros c'. simpl. now rewrite assoc_set_other. }
      destruct q as [|s' q].
      * injection Hput as <-. apply Hes.
      * destruct (assoc s es) as [c|]; [|discriminate].
        destruct (put (s' :: q) v c) as [c'|]; [|discriminate].
        injection Hput as <-. apply Hes.
Qed.

(** Binding an entry of an existing directory: it cannot fail, and the
    directory gets the entry. *)
Lemma put_child p name v t es :
  lookup p t = Some (Dir es) ->
  exists t', put (child p name) v t = Some t' /\
             lookup p t' = Some (Dir (assoc_set name v es)).
Proof.
  unfold child. revert t. induction p as [|s p IH]; intros t; simpl.
  - intros [= ->]. eexists. split; reflexivity.
  - destruct t as [d|es0]; [discriminate|].
    destruct (assoc s es0) as [c|] eqn:Ec; [|discriminate].
    intros H. destruct (IH c H) as (c' & Hput & Hl).
    rewrite Hput. destruct (p ++ [name]) eqn:Epn.
    + destruct p; discriminate.
    + eexists. split; [reflexivity|]. simpl. now rewrite assoc_set_same.
Qed.

(** Writing a file where no directory stands changes what exactly one
    path resolves to. *)
Lemma put_file_kind q data t t' :
  put q (File data) t = Some t' ->
  kind_at q t <> KDir ->
  forall p,
    (p = q -> kind_at p t' = KFile data) /\
    (p <> q -> kind_at p t' = kind_at p t).
Proof.
  unfold kind_at.
  revert t t'. induction q as [|s q IH]; intros t t' Hput Hk p.
  - simpl in Hput. injection Hput as <-. simpl in Hk.
    destruct t as [d|es]; [|congruence].
    split; [now intros ->|].
    intros Hp. destruct p; [congruence|reflexivity].
  - simpl in Hput. destruct t as [d|es]; [discriminate|].
    destruct p as [|a p].
    { split; [discriminate|]. intros _.
      destruct q; [|destruct (assoc s es); [destruct (put _ _ _)|]];
        try discriminate; injection Hput as <-; reflexivity. }
    destruct (String.eqb_spec a s) as [->|Hne].
    + destruct q as [|s' q].
      * injection Hput as <-. simpl. rewrite assoc_set_same.
        split.
        -- intros [= ->]. reflexivity.
        -- intros Hp. destruct p as [|b p]; [congruence|].
           simpl in Hk. simpl.
           destruct (assoc s es) as [[d|es']|]; try reflexivity.
           congruence.
      * destruct (assoc s es) as [c|] eqn:Ec; [|discriminate].
        destruct (put (s' :: q) (File data) c) as [c'|] eqn:E; [|discriminate].
        injection Hput as <-. simpl lookup. rewrite assoc_set_same, Ec.
        assert (Hk' : match lookup (s' :: q) c with
                      | Some (File d) => KFile d
                      | Some (Dir _) => KDir
                      | None => KNone end <> KDir).
        { simpl in Hk. rewrite Ec in Hk. exact Hk. }
        destruct (IH c c' E Hk' p) as [H1 H2].
        split; intros Hp.
        -- apply H1. congruence.
        -- apply H2. congruence.
    + split; [congruence|]. intros _.
      assert (Hes : forall c', lookup (a :: p) (Dir (assoc_set s c' es))
                               = lookup (a :: p) (Dir es)).
      { intros c'. simpl. now rewrite assoc_set_other. }
      destruct q as [|s' q].
      * injection Hput as <-. now rewrite Hes.
      * destruct (assoc s es) as [c|]; [|discriminate].
        destruct (put (s' :: q) (File data) c) as [c'|]; [|discriminate].
        injection Hput as <-. now rewrite Hes.
Qed.

(** [mkdirs] of a directory that is there changes nothing. *)
Lemma mkdirs_existing p t es :
  lookup p t = Some (Dir es) -> mkdirs p t = Ok t.
Proof.
  revert t. induction p as [|s p IH]; intros t; simpl.
  - intros [= ->]. reflexivity.
  - destruct t as [d|es0]; [discriminate|].
    destruct (assoc s es0) as [c|] eqn:Ec; [|discriminate].
    intros H. rewrite (IH c H). simpl.
    now rewrite assoc_set_id.
Qed.

(** [mkdirs] of a missing entry of an existing directory binds an empty
    directory there. *)
Lemma mkdirs_child p name t es :
  lookup p t = Some (Dir es) -> assoc name es = None ->
  exists t', mkdirs (child p name) t = Ok t' /\
             put (child p name) (Dir []) t = Some t'.
Proof.
  unfold child. revert t. induction p as [|s p IH]; intros t; simpl.
  - intros [= ->] Hn. simpl. rewrite Hn. simpl. eexists; split; reflexivity.
  - destruct t as [d|es0]; [discriminate|].
    destruct (assoc s es0) as [c|] eqn:Ec; [|discriminate].
    intros H Hn. destruct (IH c H Hn) as (c' & Hm & Hput).
    rewrite Hm, Hput. simpl.
    destruct (p ++ [name]) eqn:Epn; [destruct p; discriminate|].
    eexists; split; reflexivity.
Qed.

(** [mkdirs] leaves every path that diverges from its own alone. *)
Lemma mkdirs_diverge q t t' p :
  mkdirs q t = Ok t' -> diverge p q -> lookup p t' = lookup p t.
Proof.
  revert t t' p. induction q as [|s q IH]; intros t t' p Hm Hd.
  - apply diverge_sym in Hd. now apply diverge_nil_l in Hd.
  - destruct p as [|a p]; [now apply diverge_nil_l in Hd|].
    simpl in Hm. destruct t as [d|es]; [discriminate|].
    destruct (mkdirs q _) as [c'|e] eqn:E; [|discriminate].
    simpl in Hm. injection Hm as <-.
    destruct (String.eqb_spec a s) as [->|Hne].
    + apply diverge_cons_inv in Hd. simpl. rewrite assoc_set_same.
      rewrite (IH _ _ p E Hd).
      destruct (assoc s es); [reflexivity|].
      destruct p; [now apply diverge_nil_l in Hd|reflexivity].
    + simpl. now rewrite assoc_set_other.
Qed.

(** After [mkdirs] the directory is there, and it is empty if nothing was
    there before. *)
Lemma mkdirs_lookup p t t' :
  mkdirs p t = Ok t' ->
  exists es, lookup p t' = Some (Dir es) /\ (lookup p t = None -> es = []).
Proof.
  revert t t'. induction p as [|s p IH]; intros t t' Hm.
  - destruct t as [d|es]; [discriminate|]. injection Hm as <-.
    exists es. split; [reflexivity|discriminate].
  - simpl in Hm. destruct t as [d|es]; [discriminate|].
    destruct (mkdirs p _) as [c'|e] eqn:E; [|discriminate].
    simpl in Hm. injection Hm as <-. simpl. rewrite assoc_set_same.
    destruct (IH _ _ E) as (es' & Hl & Hn). exists es'. split; [exact Hl|].
    destruct (assoc s es) as [c|]; [exact Hn|].
    intros _. destruct p as [|s' p].
    + simpl in E. injection E as <-. simpl in Hl. congruence.
    + apply Hn. reflexivity.
Qed.

(** [mkdirs] over a file fails. *)
Lemma mkdirs_file p t data :
  lookup p t = Some (File data) -> is_ok (mkdirs p t) = false.
Proof.
  revert t. induction p as [|s p IH]; intros t; simpl.
  - intros [= ->]. reflexivity.
  - destruct t as [d|es]; [discriminate|].
    destruct (assoc s es) as [c|]; [|discriminate].
    intros H. specialize (IH c H). simpl.
    destruct (mkdirs p c); [discriminate|reflexivity].
Qed.

(** ** Page names *)

Lemma length_append (s t : string) :
  String.length (s ++ t) = String.length s + String.length t.
Proof. induction s; simpl; congruence. Qed.

Lemma split_path_html (s : string) :
  exists segs seg,
    split_path s = segs ++ [seg] /\
    split_path (s ++ ".html") = segs ++ [(seg ++ ".html")%string].
Proof.
  induction s as [|c s (segs & seg & H1 & H2)].
  - exists [], "". split; reflexivity.
  - simpl. destruct (Ascii.eqb c "/").
    + exists ("" :: segs), seg. rewrite H1, H2. split; reflexivity.
    + rewrite H1, H2. destruct segs as [|h segs]; simpl.
      * exists [], (String c seg). split; reflexivity.
      * exists (String c h :: segs), seg. split; reflexivity.
Qed.

Lemma norm_step_html stack (seg : string) :
  norm_step stack (seg ++ ".html") = (seg ++ ".html")%string :: stack.
Proof.
  unfold norm_step.
  assert (H : forall x : string, String.length x < 5 ->
                       String.eqb (seg ++ ".html") x = false).
  { intros x Hx. apply String.eqb_neq. intros E.
    apply (f_equal String.length) in E. rewrite length_append in E.
    simpl in E. lia. }
  rewrite !H by (simpl; lia). reflexivity.
Qed.

(** The file a page is written to: its last component ends in [.html],
    whatever the slug holds. *)
Lemma path_join_html base (s : string) :
  exists dir seg, path_join base (s ++ ".html") = child dir (seg ++ ".html").
Proof.
  unfold path_join. destruct (split_path_html s) as (segs & seg & _ & ->).
  rewrite fold_left_app. simpl. rewrite norm_step_html. simpl.
  eexists _, seg. reflexivity.
Qed.

Lemma child_inj p q a b : child p a = child q b -> p = q /\ a = b.
Proof. unfold child. intros H. apply app_inj_tail in H. exact H. Qed.

Lemma html_not_images (seg : string) : (seg ++ ".html")%string <> "images".
Proof.
  intros E. destruct seg as [|a [|b seg]]; try discriminate.
  apply (f_equal String.length) in E. simpl in E.
  rewrite length_append in E. simpl in E. lia.
Qed.

(** ** Names in code-unit order *)

Lemma name_leb_refl s : name_leb s s = true.
Proof.
  induction s as [|a s IH]; simpl; [reflexivity|].
  now rewrite Nat.ltb_irrefl, Nat.eqb_refl.
Qed.

Lemma name_leb_total s t : name_leb s t = false -> name_leb t s = true.
Proof.
  revert t. induction s as [|a s IH]; intros [|b t]; simpl; try discriminate;
    try reflexivity.
  destruct (Nat.ltb_spec (nat_of_ascii a) (nat_of_ascii b)); [discriminate|].
  destruct (Nat.eqb_spec (nat_of_ascii a) (nat_of_ascii b)) as [E|E].
  - rewrite E, Nat.ltb_irrefl, Nat.eqb_refl. apply IH.
  - intros _.
    destruct (Nat.ltb_spec (nat_of_ascii b) (nat_of_ascii a)); [reflexivity|lia].
Qed.

Lemma name_leb_antisym s t :
  name_leb s t = true -> name_leb t s = true -> s = t.
Proof.
  revert t. induction s as [|a s IH]; intros [|b t]; simpl; try discriminate;
    try reflexivity.
  destruct (Nat.ltb_spec (nat_of_ascii a) (nat_of_ascii b)).
  - destruct (Nat.ltb_spec (nat_of_ascii b) (nat_of_ascii a)); [lia|].
    destruct (Nat.eqb_spec (nat_of_ascii b) (nat_of_ascii a)); [lia|discriminate].
  - destruct (Nat.eqb_spec (nat_of_ascii a) (nat_of_ascii b)) as [E|E];
      [|discriminate].
    rewrite E, Nat.ltb_irrefl, Nat.eqb_refl. intros H1 H2.
    f_equal; [|now apply IH].
    rewrite <- (ascii_nat_embedding a), <- (ascii_nat_embedding b).
    now rewrite E.
Qed.

Lemma name_leb_trans s t u :
  name_leb s t = true -> name_leb t u = true -> name_leb s u = true.
Proof.
  revert t u. induction s as [|a s IH]; intros [|b t] [|c u]; simpl;
    try discriminate; try reflexivity.
  destruct (Nat.ltb_spec (nat_of_ascii a) (nat_of_ascii b));
    destruct (Nat.ltb_spec (nat_of_ascii b) (nat_of_ascii c));
    destruct (Nat.ltb_spec (nat_of_ascii a) (nat_of_ascii c));
    try reflexivity; try lia;
    destruct (Nat.eqb_spec (nat_of_ascii a) (nat_of_ascii b));
    destruct (Nat.eqb_spec (nat_of_ascii b) (nat_of_ascii c));
    destruct (Nat.eqb_spec (nat_of_ascii a) (nat_of_ascii c));
    try discriminate; try lia.
  apply IH.
Qed.

Lemma insert_name_perm x l : Permutation (x :: l) (insert_name x l).
Proof.
  induction l as [|y l IH]; simpl; [reflexivity|].
  destruct (name_leb x y); [reflexivity|].
  rewrite perm_swap. now constructor.
Qed.

(** Sorting keeps the names, each as often as it came. *)
Lemma sort_names_perm l : Permutation l (sort_names l).
Proof.
  induction l as [|x l IH]; simpl; [constructor|].
  rewrite <- insert_name_perm. now constructor.
Qed.

Lemma sort_names_In x l : In x (sort_names l) <-> In x l.
Proof.
  split; apply Permutation_in;
    [apply Permutation_sym|]; apply sort_names_perm.
Qed.

Lemma insert_name_sorted x l :
  StronglySorted (fun s t => name_leb s t = true) l ->
  StronglySorted (fun s t => name_leb s t = true) (insert_name x l).
Proof.
  induction 1 as [|y l Hs IH Hy]; simpl; [repeat constructor|].
  destruct (name_leb x y) eqn:E.
  - constructor; [now constructor|]. constructor; [exact E|].
    rewrite Forall_forall in *. intros z Hz.
    eapply name_leb_trans; [exact E|now apply Hy].
  - constructor; [exact IH|].
    apply (Permutation_Forall (insert_name_perm x l)).
    constructor; [now apply name_leb_total|exact Hy].
Qed.

Lemma sort_names_sorted l :
  StronglySorted (fun s t => name_leb s t = true) (sort_names l).
Proof.
  induction l as [|x l IH]; simpl; [constructor|now apply insert_name_sorted].
Qed.

Lemma sorted_names_unique l l' :
  StronglySorted (fun s t => name_leb s t = true) l ->
  StronglySorted (fun s t => name_leb s t = true) l' ->
  Permutation l l' -> l = l'.
Proof.
  intros Hl. revert l'. induction Hl as [|x l Hs IH Hx]; intros l' Hl' Hp.
  - now apply Permutation_nil in Hp.
  - destruct Hl' as [|y l' Hs' Hy].
    + now apply Permutation_sym, Permutation_nil in Hp.
    + assert (E : x = y).
      { rewrite Forall_forall in Hx, Hy.
        assert (Hxin : In x (y :: l'))
          by (eapply Permutation_in; [exact Hp|now left]).
        assert (Hyin : In y (x :: l))
          by (eapply Permutation_in; [apply Permutation_sym; exact Hp|now left]).
        destruct Hxin as [->|Hxin]; [reflexivity|].
        destruct Hyin as [->|Hyin]; [reflexivity|].
        apply name_leb_antisym; [now apply Hx|now apply Hy]. }
      subst y. f_equal. apply IH; [exact Hs'|].
      now apply Permutation_cons_inv in Hp.
Qed.

(** What [readdir] returns does not depend on the order in which the
    operating system hands out the names. *)
Lemma sort_names_order l l' : Permutation l l' -> sort_names l = sort_names l'.
Proof.
  intros Hp. apply sorted_names_unique; try apply sort_names_sorted.
  rewrite <- (sort_names_perm l), <- (sort_names_perm l'). exact Hp.
Qed.

(** ** The primitives *)

Lemma readFile_world p w r w' : readFile p w = (r, w') -> w' = w.
Proof.
  unfold readFile. destruct (lookup p (fs w)) as [[d|es]|]; now intros [= _ <-].
Qed.

Lemma readdir_world p w r w' : readdir p w = (r, w') -> w' = w.
Proof.
  unfold readdir. destruct (lookup p (fs w)) as [[d|es]|]; now intros [= _ <-].
Qed.

Lemma pathExists_spec p w :
  pathExists p w =
  (Ok (match lookup p (fs w) with Some _ => true | None => false end), w).
Proof. unfold pathExists. destruct (lookup p (fs w)); reflexivity. Qed.

(** A write either fails and changes nothing, or changes what exactly one
    path resolves to. *)
Lemma writeFile_kind q data w r w' :
  writeFile q data w = (r, w') ->
  console w' = console w /\ readdir_order w' = readdir_order w /\
  ((exists e, r = Throw e) /\ w' = w \/
   r = Ok tt /\ kind_at q (fs w) <> KDir /\
   forall p, (p = q -> kind_at p (fs w') = KFile data) /\
             (p <> q -> kind_at p (fs w') = kind_at p (fs w))).
Proof.
  unfold writeFile.
  destruct (lookup q (fs w)) as [[d|es]|] eqn:El.
  3: destruct (put q (File data) (fs w)) as [t|] eqn:Ep.
  1: destruct (put q (File data) (fs w)) as [t|] eqn:Ep.
  all: intros [= <- <-]; simpl; repeat split; eauto.
  all: right; repeat split; try (unfold kind_at; rewrite El; discriminate).
  all: apply (put_file_kind q data (fs w) t Ep);
    unfold kind_at; rewrite El; discriminate.
Qed.

Lemma ensureDir_spec p w r w' :
  ensureDir p w = (r, w') ->
  console w' = console w /\ readdir_order w' = readdir_order w /\
  ((exists e, r = Throw e) /\ w' = w \/
   r = Ok tt /\ mkdirs p (fs w) = Ok (fs w')).
Proof.
  unfold ensureDir. destruct (mkdirs p (fs w)) as [t|e];
    intros [= <- <-]; simpl; repeat split; eauto.
Qed.

Lemma emptyDir_spec {RT : Runtime} p w r w' :
  emptyDir p w = (r, w') ->
  console w' = console w /\ readdir_order w' = readdir_order w /\
  ((exists e, r = Throw e) /\ w' = w \/
   r = Ok tt /\ lookup p (fs w') = Some (Dir []) /\
   forall q, diverge q p -> lookup q (fs w') = lookup q (fs w)).
Proof.
  unfold emptyDir.
  destruct (lookup p (fs w)) as [[d|es]|] eqn:El.
  - destruct emptyDir_rethrows.
    { intros [= <- <-]. repeat split; eauto. }
    intros H. destruct (ensureDir_spec _ _ _ _ H) as (Hc & Ho & [[He ->]|[-> Hm]]).
    + repeat split; auto.
    + pose proof (mkdirs_file p (fs w) d El) as Hf. rewrite Hm in Hf.
      discriminate.
  - destruct (put p (Dir []) (fs w)) as [t|] eqn:Ep;
      intros [= <- <-]; simpl; repeat split; eauto.
    right. repeat split.
    + eapply lookup_put_same; eauto.
    + intros q Hq. eapply lookup_put_diverge; eauto.
  - intros H. destruct (ensureDir_spec _ _ _ _ H) as (Hc & Ho & [[He ->]|[-> Hm]]).
    + repeat split; auto.
    + repeat split; auto. right. repeat split.
      * destruct (mkdirs_lookup _ _ _ Hm) as (es & Hl & Hn).
        rewrite Hl, (Hn El). reflexivity.
      * intros q Hq. eapply mkdirs_diverge; eauto.
Qed.

(** A copy into an existing directory. *)
Lemma copy_into_dir src dir name w es :
  lookup dir (fs w) = Some (Dir es) ->
  match lookup src (fs w) with
  | None => copy src (child dir name) w = (Throw ENOENT, w)
  | Some n =>
      match copy_onto n (assoc name es) with
      | Throw e => copy src (child dir name) w = (Throw e, w)
      | Ok n' =>
          exists t',
            copy src (child dir name) w = (Ok tt, with_fs t' w) /\
            put (child dir name) n' (fs w) = Some t' /\
            lookup dir t' = Some (Dir (assoc_set name n' es))
      end
  end.
Proof.
  intros Hd. unfold copy.
  destruct (lookup src (fs w)) as [n|]; [|reflexivity].
  rewrite (lookup_child _ name _ _ Hd).
  destruct (copy_onto n (assoc name es)) as [n'|e]; [|reflexivity].
  unfold child at 1. rewrite removelast_last, (mkdirs_existing _ _ _ Hd).
  destruct (put_child dir name n' (fs w) es Hd) as (t' & Hp & Hl).
  exists t'. rewrite Hp. auto.
Qed.

Section BuildFacts.
Context {RT : Runtime}.

Lemma readJson_world p w r w' : readJson p w = (r, w') -> w' = w.
Proof.
  unfold readJson, bind. destruct (readFile p w) as [[c|e] w0] eqn:E.
  - apply readFile_world in E as ->.
    destruct (JSON_parse c); now intros [= _ <-].
  - apply readFile_world in E as ->. now intros [= _ <-].
Qed.

Lemma read_recipes_world files acc w r w' :
  read_recipes files acc w = (r, w') -> w' = w.
Proof.
  revert acc. induction files as [|f files IH]; intros acc; simpl.
  - now intros [= _ <-].
  - destruct (endsWith f ".jsonld"); [|apply IH].
    unfold bind. destruct (readJson _ w) as [[c|e] w0] eqn:E;
      apply readJson_world in E as ->; [apply IH|now intros [= _ <-]].
Qed.

Lemma read_templates_world w r w' : read_templates w = (r, w') -> w' = w.
Proof.
  unfold read_templates, bind, ret.
  repeat match goal with
         | |- context [readFile ?p ?w0] =>
             let E := fresh "E" in
             destruct (readFile p w0) as [[?|?] ?] eqn:E;
             apply readFile_world in E; subst
         end; now intros [= _ <-].
Qed.

(** Loading reads; the one thing it changes is the output directory,
    which it empties. *)
Lemma load_spec w r w1 :
  load w = (r, w1) ->
  console w1 = console w /\ readdir_order w1 = readdir_order w /\
  (fs w1 = fs w \/
   lookup publicDir (fs w1) = Some (Dir []) /\
   forall q, diverge q publicDir -> lookup q (fs w1) = lookup q (fs w)) /\
  (is_ok r = true ->
   lookup publicDir (fs w1) = Some (Dir []) /\
   forall q, diverge q publicDir -> lookup q (fs w1) = lookup q (fs w)).
Proof.
  unfold load, bind, ret.
  destruct (emptyDir publicDir w) as [[[]|e] w0] eqn:E0.
  - destruct (emptyDir_spec _ _ _ _ E0) as (Hc & Ho & [[[e He] _]|(_ & Hl & Hf)]);
      [discriminate|].
    destruct (read_templates w0) as [[T|e] w0'] eqn:E1;
      apply read_templates_world in E1 as ->.
    + destruct (readdir recipesDir w0) as [[files|e] w0'] eqn:E2;
        apply readdir_world in E2 as ->.
      * destruct (read_recipes files [] w0) as [[rs|e] w0'] eqn:E3;
          apply read_recipes_world in E3 as ->;
          intros [= <- <-]; repeat split; auto.
      * intros [= <- <-]; repeat split; auto; discriminate.
    + intros [= <- <-]; repeat split; auto; discriminate.
  - destruct (emptyDir_spec _ _ _ _ E0) as (Hc & Ho & [[_ ->]|(? & _)]);
      [|discriminate].
    intros [= <- <-]; repeat split; auto; discriminate.
Qed.

Lemma pages_only_empty t :
  lookup publicDir t = Some (Dir []) -> pages_only t.
Proof.
  intros H. unfold pages_only, kind_at, publicImagesDir.
  rewrite H. repeat split.
  - intros name. rewrite (lookup_child _ name _ _ H). discriminate.
  - now rewrite (lookup_child _ "images" _ _ H).
Qed.

(** Writing a file whose name is not [images] keeps [pages_only]. *)
Lemma writeFile_pages_only q data w r w' :
  (forall dir, q <> child dir "images") ->
  pages_only (fs w) ->
  writeFile q data w = (r, w') ->
  pages_only (fs w').
Proof.
  intros Hq (Hpub & Hch & Himg) H.
  destruct (writeFile_kind _ _ _ _ _ H) as (_ & _ & [[_ ->]|(_ & Hk & Hp)]).
  { repeat split; auto. }
  repeat split.
  - destruct (Hp publicDir) as [_ H2]. rewrite H2; [exact Hpub|].
    intros E. rewrite <- E in Hk. contradiction.
  - intros name. destruct (Hp (child publicDir name)) as [H1 H2].
    destruct (list_eq_dec string_dec (child publicDir name) q) as [E|E].
    + rewrite (H1 E). discriminate.
    + rewrite (H2 E). apply Hch.
  - destruct (Hp publicImagesDir) as [_ H2]. rewrite H2; [exact Himg|].
    intros E. apply (Hq publicDir). now rewrite <- E.
Qed.

Lemma page_name_html r name :
  page_name r = Ok name -> exists s, name = (s ++ ".html")%string.
Proof.
  unfold page_name, rbind.
  destruct (get_member r "slug") as [slug|]; [|discriminate].
  destruct (to_string_val slug) as [s|]; [|discriminate].
  intros [= <-]. eauto.
Qed.

Lemma page_path_not_images name dir :
  (exists s, name = (s ++ ".html")%string) ->
  path_join publicDir name <> child dir "images".
Proof.
  intros [s ->] E.
  destruct (path_join_html publicDir s) as (d & seg & Hj).
  rewrite Hj in E. apply child_inj in E as [_ E].
  now apply html_not_images in E.
Qed.

Lemma generated_line name : is_generated (Log ("Generated: " ++ name)) = true.
Proof.
  simpl is_generated. apply prefix_correct. simpl.
  now destruct name.
Qed.

Ltac split3 := split; [|split].

(** A step that threw before it touched the world. *)
Ltac thrown :=
  intros [= <- <-]; split3; auto;
  exists []; rewrite app_nil_r; split3; auto; discriminate.

(** The page loop: the output directory stays a directory of files, and
    the console gets one line per page written. *)
Lemma generate_pages_spec T all todo w r w' :
  pages_only (fs w) ->
  generate_pages T all todo w = (r, w') ->
  pages_only (fs w') /\ readdir_order w' = readdir_order w /\
  exists lines,
    console w' = console w ++ lines /\
    Forall (fun l => is_generated l = true) lines /\
    (r = Ok tt -> length lines = length todo).
Proof.
  revert w. induction todo as [|rd todo IH]; intros w Hinv; simpl.
  - intros [= <- <-]. split3; auto. exists []. rewrite app_nil_r. auto.
  - unfold bind at 1, lift at 1.
    destruct (recipeTemplate T rd) as [content|e]; [|thrown].
    unfold bind at 1, lift at 1.
    destruct (layoutTemplate T _) as [html|e]; [|thrown].
    unfold bind at 1, lift at 1.
    destruct (page_name rd) as [name|e] eqn:En; [|thrown].
    unfold bind at 1.
    destruct (writeFile _ html w) as [[[]|e] w0] eqn:Ew.
    2:{ destruct (writeFile_kind _ _ _ _ _ Ew) as (Hc & Ho & _).
        intros [= <- <-]. split3; auto.
        - eapply writeFile_pages_only; eauto.
          intros dir. apply page_path_not_images. eapply page_name_html; eauto.
        - exists []. rewrite app_nil_r. split3; auto. discriminate. }
    assert (Hinv0 : pages_only (fs w0)).
    { eapply writeFile_pages_only; eauto.
      intros dir. apply page_path_not_images. eapply page_name_html; eauto. }
    destruct (writeFile_kind _ _ _ _ _ Ew) as (Hc & Ho & _).
    unfold bind at 1, console_log at 1. intros H.
    apply IH in H; [|exact Hinv0]. simpl in H.
    destruct H as (Hinv' & Ho' & lines & Hl & Hg & Hn).
    split3; auto; [congruence|].
    exists (Log ("Generated: " ++ name) :: lines).
    rewrite Hl, Hc, <- app_assoc. split3; auto.
    + constructor; auto. apply generated_line.
    + intros Hr. simpl. now rewrite Hn.
Qed.

Lemma index_path_not_images dir :
  child publicDir "index.html" <> child dir "images".
Proof. intros E. apply child_inj in E as [_ E]. discriminate. Qed.

Lemma generate_index_spec T all w r w' :
  pages_only (fs w) ->
  generate_index T all w = (r, w') ->
  pages_only (fs w') /\ readdir_order w' = readdir_order w /\
  exists lines,
    console w' = console w ++ lines /\
    Forall (fun l => is_generated l = true) lines /\
    (r = Ok tt -> length lines = 1).
Proof.
  intros Hinv. unfold generate_index.
  unfold bind at 1, lift at 1.
  destruct (indexTemplate T _) as [content|e]; [|thrown].
  unfold bind at 1, lift at 1.
  destruct (layoutTemplate T _) as [html|e]; [|thrown].
  unfold bind at 1.
  destruct (writeFile _ html w) as [[[]|e] w0] eqn:Ew;
    destruct (writeFile_kind _ _ _ _ _ Ew) as (Hc & Ho & _).
  - unfold console_log. intros [= <- <-]. simpl. split3; auto.
    + eapply writeFile_pages_only; eauto. apply index_path_not_images.
    + exists [Log "Generated: index.html"]. rewrite Hc. split3; auto.
  - intros [= <- <-]. split3; auto.
    + eapply writeFile_pages_only; eauto. apply index_path_not_images.
    + exists []. rewrite app_nil_r. split3; auto. discriminate.
Qed.

(** Page generation as a whole. *)
Lemma render_spec T all w r w' :
  pages_only (fs w) ->
  render T all w = (r, w') ->
  pages_only (fs w') /\ readdir_order w' = readdir_order w /\
  exists lines,
    console w' = console w ++ lines /\
    Forall (fun l => is_generated l = true) lines /\
    (r = Ok tt -> length lines = S (length all)).
Proof.
  intros Hinv. unfold render, bind.
  destruct (generate_pages T all all w) as [[[]|e] w0] eqn:Ep;
    destruct (generate_pages_spec _ _ _ _ _ _ Hinv Ep)
      as (Hinv0 & Ho0 & l0 & Hl0 & Hg0 & Hn0).
  - intros Hi.
    destruct (generate_index_spec _ _ _ _ _ Hinv0 Hi)
      as (Hinv1 & Ho1 & l1 & Hl1 & Hg1 & Hn1).
    split3; auto; [congruence|].
    exists (l0 ++ l1). rewrite Hl1, Hl0, <- app_assoc. split3; auto.
    + apply Forall_app. auto.
    + intros Hr. rewrite length_app, Hn0, (Hn1 Hr) by reflexivity. lia.
  - intros [= <- <-]. split3; auto.
    exists l0. split3; auto. discriminate.
Qed.

(** ** The asset-copy step *)

Lemma diverge_at p a b r1 r2 :
  a <> b -> diverge (p ++ a :: r1) (p ++ b :: r2).
Proof. intros H. exists p, a, b, r1, r2. auto. Qed.

Lemma kind_dir p t : kind_at p t = KDir <-> exists es, lookup p t = Some (Dir es).
Proof.
  unfold kind_at. destruct (lookup p t) as [[d|es]|]; split;
    try discriminate; eauto; intros [es' H]; discriminate.
Qed.

Lemma copy_onto_fresh n : copy_onto n None = Ok n.
Proof. destruct n; reflexivity. Qed.

Lemma copy_onto_file n dst :
  is_file n = true -> (forall es, dst <> Some (Dir es)) ->
  copy_onto n dst = Ok n.
Proof.
  destruct n as [d|es]; [|discriminate]. intros _ H. simpl.
  destruct dst as [[d'|es']|]; auto. now elim (H es').
Qed.

Ltac path_shape :=
  unfold child, publicImagesDir, imagesDir, publicDir, rootDir, child;
  rewrite <- ?app_assoc; simpl.

Lemma asset_source_diverge a b :
  a <> "public" -> diverge (child rootDir a) (child publicDir b).
Proof. intros H. path_shape. now apply diverge_at. Qed.

Lemma asset_dest_diverge a b :
  a <> b -> diverge (child publicDir a) (child publicDir b).
Proof. intros H. unfold child. now apply diverge_at. Qed.

(** The manifest loop.  Whatever happens, it only touches the manifest
    names in the output directory; when the assets found are files and no
    directory stands in their way, it cannot fail. *)
Lemma copy_assets_spec assets w r w' :
  NoDup assets ->
  kind_at publicDir (fs w) = KDir ->
  copy_assets assets w = (r, w') ->
  kind_at publicDir (fs w') = KDir /\
  readdir_order w' = readdir_order w /\
  (forall p, (forall a, In a assets -> diverge p (child publicDir a)) ->
             lookup p (fs w') = lookup p (fs w)) /\
  (exists lines, console w' = console w ++ lines /\
                 Forall (fun l => is_generated l = false) lines) /\
  ((forall a, In a assets ->
      a <> "public" /\
      (forall n, lookup (child rootDir a) (fs w) = Some n -> is_file n = true) /\
      kind_at (child publicDir a) (fs w) <> KDir) ->
   r = Ok tt /\
   forall a, In a assets ->
     match lookup (child rootDir a) (fs w) with
     | Some n => lookup (child publicDir a) (fs w') = Some n /\
                 In (Log ("Copied: " ++ a)) (console w')
     | None => In (Warn ("Asset not found, skipped: " ++ a)) (console w')
     end).
Proof.
  revert w. induction assets as [|a rest IH]; intros w Hnd Hpub; simpl.
  { intros [= <- <-]. split; [|split; [|split; [|split]]]; auto.
    - exists []. now rewrite app_nil_r.
    - intros _. split; [reflexivity|]. intros a []. }
  inversion Hnd as [|? ? Hnotin Hnd']; subst.
  destruct (proj1 (kind_dir _ _) Hpub) as [es Hes].
  unfold bind at 1. rewrite pathExists_spec.
  pose proof (copy_into_dir (child rootDir a) publicDir a w es Hes) as Hcopy.
  destruct (lookup (child rootDir a) (fs w)) as [n|] eqn:Esrc.
  - (* the asset is there *)
    destruct (copy_onto n (assoc a es)) as [n'|e] eqn:Eonto.
    + destruct Hcopy as (t' & Hc & Hput & Hl').
      unfold bind at 1, bind at 1. rewrite Hc.
      unfold console_log at 1. intros Hrest.
      set (w1 := with_line (Log ("Copied: " ++ a)) (with_fs t' w)) in *.
      assert (Hpub1 : kind_at publicDir (fs w1) = KDir).
      { apply kind_dir. simpl. eauto. }
      destruct (IH w1 Hnd' Hpub1 Hrest)
        as (Hk & Ho & Hframe & (lines & Hlines & Hgen) & Hok).
      assert (Hf1 : forall p, diverge p (child publicDir a) ->
                              lookup p (fs w1) = lookup p (fs w)).
      { intros p Hp. simpl. eapply lookup_put_diverge; eauto. }
      split; [|split; [|split; [|split]]]; auto.
      * intros p Hp. rewrite Hframe by (intros; apply Hp; now right).
        apply Hf1, Hp. now left.
      * exists (Log ("Copied: " ++ a) :: lines). rewrite Hlines. simpl.
        rewrite <- app_assoc. split; auto.
      * intros Hyp.
        destruct (Hyp a (or_introl eq_refl)) as (Hap & Hfile & Hdst).
        assert (Hn' : n' = n).
        { rewrite copy_onto_file in Eonto; [congruence|now apply Hfile|].
          intros es0 E. apply Hdst. unfold kind_at.
          now rewrite (lookup_child _ a _ _ Hes), E. }
        subst n'.
        destruct Hok as [-> Hall].
        { intros b Hb. destruct (Hyp b (or_intror Hb)) as (Hbp & Hbf & Hbd).
          assert (Hba : b <> a) by (intros ->; contradiction).
          split; [exact Hbp|]. split.
          - intros m. rewrite Hf1 by now apply asset_source_diverge.
            apply Hbf.
          - unfold kind_at. rewrite Hf1 by now apply asset_dest_diverge.
            exact Hbd. }
        split; [reflexivity|]. intros b [<-|Hb].
        -- rewrite Esrc. split.
           ++ rewrite Hframe.
              ** simpl. eapply lookup_put_same; eauto.
              ** intros c Hc'. apply asset_dest_diverge.
                 intros ->. contradiction.
           ++ rewrite Hlines. apply in_or_app. left. simpl.
              apply in_or_app. right. now left.
        -- specialize (Hall b Hb).
           destruct (Hyp b (or_intror Hb)) as (Hbp & _).
           rewrite Hf1 in Hall by now apply asset_source_diverge.
           exact Hall.
    + unfold bind at 1, bind at 1. rewrite Hcopy.
      intros [= <- <-]. split; [|split; [|split; [|split]]]; auto.
      * exists []. now rewrite app_nil_r.
      * intros Hyp.
        destruct (Hyp a (or_introl eq_refl)) as (Hap & Hfile & Hdst).
        rewrite copy_onto_file in Eonto; [discriminate|now apply Hfile|].
        intros es0 E. apply Hdst. unfold kind_at.
        now rewrite (lookup_child _ a _ _ Hes), E.
  - (* the asset is missing *)
    unfold bind at 1, console_warn at 1. intros Hrest.
    set (w1 := with_line (Warn ("Asset not found, skipped: " ++ a)) w) in *.
    destruct (IH w1 Hnd' Hpub Hrest)
      as (Hk & Ho & Hframe & (lines & Hlines & Hgen) & Hok).
    split; [|split; [|split; [|split]]]; auto.
    * exists (Warn ("Asset not found, skipped: " ++ a) :: lines).
      rewrite Hlines. simpl. rewrite <- app_assoc. split; auto.
    * intros Hyp. destruct Hok as [-> Hall].
      { intros b Hb. apply (Hyp b). now right. }
      split; [reflexivity|]. intros b [<-|Hb].
      -- rewrite Esrc, Hlines. apply in_or_app. left. simpl.
         apply in_or_app. right. now left.
      -- apply (Hall b Hb).
Qed.

Lemma image_source_diverge f g :
  diverge (child imagesDir f) (child publicImagesDir g).
Proof. path_shape. apply diverge_at. discriminate. Qed.

Lemma image_dest_diverge f g :
  f <> g -> diverge (child publicImagesDir f) (child publicImagesDir g).
Proof. intros H. unfold child. now apply diverge_at. Qed.

(** The images loop.  Whatever happens, it only touches entries of
    [public/images]; over a listing without repetition whose entries exist
    and are not yet in the output, it cannot fail. *)
Lemma copy_image_files_spec files w r w' :
  kind_at publicImagesDir (fs w) = KDir ->
  copy_image_files files w = (r, w') ->
  kind_at publicImagesDir (fs w') = KDir /\
  readdir_order w' = readdir_order w /\
  (forall p, (forall f, In f files -> diverge p (child publicImagesDir f)) ->
             lookup p (fs w') = lookup p (fs w)) /\
  (exists lines, console w' = console w ++ lines /\
                 Forall (fun l => is_generated l = false) lines) /\
  (NoDup files ->
   (forall f, In f files ->
      lookup (child imagesDir f) (fs w) <> None /\
      lookup (child publicImagesDir f) (fs w) = None) ->
   r = Ok tt /\
   forall f, In f files ->
     lookup (child publicImagesDir f) (fs w') = lookup (child imagesDir f) (fs w) /\
     In (Log ("Copied image: images/" ++ f)) (console w')).
Proof.
  revert w. induction files as [|f rest IH]; intros w Hdir; simpl.
  { intros [= <- <-]. split; [|split; [|split; [|split]]]; auto.
    - exists []. now rewrite app_nil_r.
    - intros _ _. split; [reflexivity|]. intros f []. }
  destruct (proj1 (kind_dir _ _) Hdir) as [acc Hacc].
  pose proof (copy_into_dir (child imagesDir f) publicImagesDir f w acc Hacc)
    as Hcopy.
  unfold bind at 1.
  destruct (lookup (child imagesDir f) (fs w)) as [n|] eqn:Esrc.
  2:{ rewrite Hcopy. intros [= <- <-].
      split; [|split; [|split; [|split]]]; auto.
      - exists []. now rewrite app_nil_r.
      - intros _ Hyp. destruct (Hyp f (or_introl eq_refl)) as [H _].
        now elim H. }
  destruct (copy_onto n (assoc f acc)) as [n'|e] eqn:Eonto.
  2:{ rewrite Hcopy. intros [= <- <-].
      split; [|split; [|split; [|split]]]; auto.
      - exists []. now rewrite app_nil_r.
      - intros _ Hyp. destruct (Hyp f (or_introl eq_refl)) as [_ H].
        rewrite (lookup_child _ f _ _ Hacc) in H.
        rewrite H, copy_onto_fresh in Eonto. discriminate. }
  destruct Hcopy as (t' & Hc & Hput & Hl').
  rewrite Hc. unfold bind at 1, console_log at 1. intros Hrest.
  set (w1 := with_line (Log ("Copied image: images/" ++ f)) (with_fs t' w)) in *.
  assert (Hdir1 : kind_at publicImagesDir (fs w1) = KDir).
  { apply kind_dir. simpl. eauto. }
  destruct (IH w1 Hdir1 Hrest)
    as (Hk & Ho & Hframe & (lines & Hlines & Hgen) & Hok).
  assert (Hf1 : forall p, diverge p (child publicImagesDir f) ->
                          lookup p (fs w1) = lookup p (fs w)).
  { intros p Hp. simpl. eapply lookup_put_diverge; eauto. }
  split; [|split; [|split; [|split]]]; auto.
  - intros p Hp. rewrite Hframe by (intros; apply Hp; now right).
    apply Hf1, Hp. now left.
  - exists (Log ("Copied image: images/" ++ f) :: lines). rewrite Hlines.
    simpl. rewrite <- app_assoc. split; auto.
  - intros Hnd Hyp. inversion Hnd as [|? ? Hnotin Hnd']; subst.
    destruct (Hyp f (or_introl eq_refl)) as [_ Hfresh].
    rewrite (lookup_child _ f _ _ Hacc) in Hfresh.
    rewrite Hfresh, copy_onto_fresh in Eonto. injection Eonto as <-.
    destruct Hok as [-> Hall]; [exact Hnd'| |].
    { intros g Hg. destruct (Hyp g (or_intror Hg)) as [Hs Hd].
      assert (Hgf : g <> f) by (intros ->; contradiction).
      rewrite !Hf1; auto using image_source_diverge, image_dest_diverge. }
    split; [reflexivity|]. intros g [<-|Hg].
    + split.
      * rewrite Hframe.
        -- simpl. rewrite Esrc. eapply lookup_put_same; eauto.
        -- intros h Hh. apply image_dest_diverge. intros ->. contradiction.
      * rewrite Hlines. apply in_or_app. left. simpl.
        apply in_or_app. right. now left.
    + destruct (Hall g Hg) as [H1 H2]. split; [|exact H2].
      rewrite H1. apply Hf1, image_source_diverge.
Qed.

(** The images step. *)
Lemma copy_images_spec w r w' :
  kind_at publicImagesDir (fs w) = KDir ->
  copy_images w = (r, w') ->
  kind_at publicImagesDir (fs w') = KDir /\
  readdir_order w' = readdir_order w /\
  (forall p, (forall f, diverge p (child publicImagesDir f)) ->
             lookup p (fs w') = lookup p (fs w)) /\
  (exists lines, console w' = console w ++ lines /\
                 Forall (fun l => is_generated l = false) lines) /\
  (lookup imagesDir (fs w) = None ->
   r = Ok tt /\ fs w' = fs w /\ In (Warn images_warning) (console w')) /\
  (forall ies,
     lookup imagesDir (fs w) = Some (Dir ies) ->
     enumerates w imagesDir ->
     lookup publicImagesDir (fs w) = Some (Dir []) ->
     r = Ok tt /\
     forall name n, assoc name ies = Some n ->
       lookup (child publicImagesDir name) (fs w') = Some n /\
       In (Log ("Copied image: images/" ++ name)) (console w')).
Proof.
  intros Hdir. unfold copy_images, bind at 1. rewrite pathExists_spec.
  destruct (lookup imagesDir (fs w)) as [n|] eqn:Esrc.
  - unfold bind at 1.
    destruct (readdir imagesDir w) as [[files|e] w0] eqn:Erd;
      pose proof (readdir_world _ _ _ _ Erd) as ->.
    + intros Hloop.
      destruct (copy_image_files_spec _ _ _ _ Hdir Hloop)
        as (Hk & Ho & Hframe & Hlines & Hok).
      split; [|split; [|split; [|split; [|split]]]]; auto.
      * discriminate.
      * intros ies [= ->] Henum Hempty.
        destruct (Henum ies Esrc) as [Hnd Hperm0].
        assert (Hperm : Permutation (map fst ies)
                  (sort_names (readdir_order w imagesDir (map fst ies))))
          by (rewrite <- sort_names_perm; exact Hperm0).
        unfold readdir in Erd. rewrite Esrc in Erd. injection Erd as <-.
        destruct Hok as [-> Hall].
        { eapply Permutation_NoDup; eauto. }
        { intros f Hf. apply Permutation_sym in Hperm.
          apply (Permutation_in _ Hperm) in Hf.
          apply In_assoc in Hf as [m Hm]. split.
          - rewrite (lookup_child _ f _ _ Esrc), Hm. discriminate.
          - now rewrite (lookup_child _ f _ _ Hempty). }
        split; [reflexivity|]. intros name m Hm.
        assert (Hin : In name (sort_names
                                 (readdir_order w imagesDir (map fst ies)))).
        { eapply Permutation_in; eauto. eapply assoc_In; eauto. }
        destruct (Hall name Hin) as [H1 H2]. split; [|exact H2].
        now rewrite H1, (lookup_child _ name _ _ Esrc).
    + intros [= <- <-].
      split; [|split; [|split; [|split; [|split]]]]; auto.
      * exists []. now rewrite app_nil_r.
      * discriminate.
      * intros ies [= ->] _ _. unfold readdir in Erd. rewrite Esrc in Erd.
        discriminate.
  - unfold console_warn. intros [= <- <-]. simpl.
    split; [|split; [|split; [|split; [|split]]]]; auto.
    + exists [Warn images_warning]. split; auto.
    + intros _. repeat split. apply in_or_app. right. now left.
    + discriminate.
Qed.

Lemma asset_not_public a : In a assetsToCopy -> a <> "public".
Proof.
  intros H ->. simpl in H.
  repeat (destruct H as [H|H]; [discriminate|]). exact H.
Qed.

Lemma asset_not_images a : In a assetsToCopy -> a <> "images".
Proof.
  intros H ->. simpl in H.
  repeat (destruct H as [H|H]; [discriminate|]). exact H.
Qed.

Lemma assets_NoDup : NoDup assetsToCopy.
Proof.
  unfold assetsToCopy.
  repeat (constructor;
          [simpl; intros H;
           repeat (destruct H as [H|H]; [discriminate|]); exact H|]).
  constructor.
Qed.

(** Line 85: after page generation, [ensureDir] creates an empty
    [public/images]. *)
Lemma ensureDir_images w :
  pages_only (fs w) ->
  exists t,
    ensureDir publicImagesDir w = (Ok tt, with_fs t w) /\
    lookup publicImagesDir t = Some (Dir []) /\
    kind_at publicDir t = KDir /\
    forall p, diverge p publicImagesDir -> lookup p t = lookup p (fs w).
Proof.
  intros (Hpub & _ & Himg).
  destruct (proj1 (kind_dir _ _) Hpub) as [es Hes].
  assert (Hfresh : assoc "images" es = None).
  { unfold kind_at, publicImagesDir in Himg.
    rewrite (lookup_child _ "images" _ _ Hes) in Himg.
    destruct (assoc "images" es) as [[d|es']|]; congruence. }
  destruct (mkdirs_child publicDir "images" (fs w) es Hes Hfresh)
    as (t & Hm & Hput).
  exists t. unfold ensureDir, publicImagesDir. rewrite Hm.
  split; [reflexivity|]. split; [eapply lookup_put_same; eauto|]. split.
  - destruct (put_child publicDir "images" (Dir []) (fs w) es Hes)
      as (t0 & Hput0 & Hl0).
    apply kind_dir. exists (assoc_set "images" (Dir []) es). congruence.
  - intros p Hp. eapply lookup_put_diverge; eauto.
Qed.

(** The asset-copy step as a whole, from the state that page generation
    leaves. *)
Lemma copy_static_spec w2 r w' :
  pages_only (fs w2) ->
  copy_static w2 = (r, w') ->
  (exists acc, lookup publicImagesDir (fs w') = Some (Dir acc) /\
               (lookup imagesDir (fs w2) = None -> acc = [])) /\
  readdir_order w' = readdir_order w2 /\
  (exists lines, console w' = console w2 ++ lines /\
                 Forall (fun l => is_generated l = false) lines) /\
  (forall name, name <> "images" -> ~ In name assetsToCopy ->
     lookup (child publicDir name) (fs w') = lookup (child publicDir name) (fs w2)) /\
  (assets_are_files (fs w2) -> images_listable w2 ->
   r = Ok tt /\
   (forall a, In a assetsToCopy ->
      match lookup (child rootDir a) (fs w2) with
      | Some n => lookup (child publicDir a) (fs w') = Some n /\
                  In (Log ("Copied: " ++ a)) (console w')
      | None => In (Warn ("Asset not found, skipped: " ++ a)) (console w')
      end) /\
   (lookup imagesDir (fs w2) = None -> In (Warn images_warning) (console w')) /\
   (forall ies, lookup imagesDir (fs w2) = Some (Dir ies) ->
      forall name n, assoc name ies = Some n ->
        lookup (child publicImagesDir name) (fs w') = Some n /\
        In (Log ("Copied image: images/" ++ name)) (console w'))).
Proof.
  intros Hinv.
  destruct (ensureDir_images w2 Hinv) as (t3 & He & Himg3 & Hpub3 & Hf3).
  unfold copy_static, bind at 1. rewrite He.
  set (w3 := with_fs t3 w2) in *.
  assert (Hsrc3 : forall a rest, a <> "public" ->
            lookup (dirname ++ a :: rest) (fs w3) = lookup (dirname ++ a :: rest) (fs w2)).
  { intros a rest Ha. apply Hf3. path_shape. now apply diverge_at. }
  unfold bind at 1.
  destruct (copy_assets assetsToCopy w3) as [ra w4] eqn:Ea.
  destruct (copy_assets_spec assetsToCopy w3 ra w4 assets_NoDup Hpub3 Ea)
    as (Hpub4 & Ho4 & Hf4 & (l4 & Hl4 & Hg4) & Hok4).
  assert (Himg4 : lookup publicImagesDir (fs w4) = Some (Dir [])).
  { rewrite Hf4; [exact Himg3|]. intros a Ha.
    apply asset_dest_diverge. intros E. symmetry in E.
    now apply asset_not_images in E. }
  assert (Hsrc4 : forall a rest, a <> "public" ->
            lookup (dirname ++ a :: rest) (fs w4) = lookup (dirname ++ a :: rest) (fs w2)).
  { intros a rest Ha. rewrite Hf4; [now apply Hsrc3|].
    intros b _. path_shape. now apply diverge_at. }
  assert (Hid4 : lookup imagesDir (fs w4) = lookup imagesDir (fs w2)).
  { apply (Hsrc4 "images" []). discriminate. }
  assert (Hother4 : forall name, name <> "images" -> ~ In name assetsToCopy ->
            lookup (child publicDir name) (fs w4) = lookup (child publicDir name) (fs w2)).
  { intros name Hni Hna. rewrite Hf4.
    - apply Hf3. now apply asset_dest_diverge.
    - intros a Ha. apply asset_dest_diverge. intros ->. contradiction. }
  assert (Hassets :
    assets_are_files (fs w2) ->
    ra = Ok tt /\
    forall a, In a assetsToCopy ->
      match lookup (child rootDir a) (fs w2) with
      | Some n => lookup (child publicDir a) (fs w4) = Some n /\
                  In (Log ("Copied: " ++ a)) (console w4)
      | None => In (Warn ("Asset not found, skipped: " ++ a)) (console w4)
      end).
  { intros Hfiles. destruct Hok4 as [-> Hall].
    - intros a Ha. split; [now apply asset_not_public|]. split.
      + intros n Hn. apply (Hfiles a n Ha).
        rewrite <- Hn. symmetry. apply (Hsrc3 a []).
        now apply asset_not_public.
      + unfold kind_at. rewrite Hf3.
        * destruct Hinv as (_ & Hch & _). apply Hch.
        * apply asset_dest_diverge. now apply asset_not_images.
    - split; [reflexivity|]. intros a Ha. specialize (Hall a Ha).
      replace (lookup (child rootDir a) (fs w3))
        with (lookup (child rootDir a) (fs w2)) in Hall; [exact Hall|].
      symmetry. apply (Hsrc3 a []). now apply asset_not_public. }
  destruct ra as [[]|e].
  2:{ intros [= <- <-]. split; [|split; [|split; [|split]]]; auto.
      - eauto.
      - exists l4. auto.
      - intros Hfiles _. destruct (Hassets Hfiles) as [? _]. discriminate. }
  unfold bind at 1.
  destruct (copy_images w4) as [ri w5] eqn:Ei.
  assert (Hdir4 : kind_at publicImagesDir (fs w4) = KDir)
    by (apply kind_dir; eauto).
  destruct (copy_images_spec w4 ri w5 Hdir4 Ei)
    as (Hdir5 & Ho5 & Hf5 & (l5 & Hl5 & Hg5) & Habsent & Hpresent).
  assert (Hout5 : forall name, name <> "images" ->
            lookup (child publicDir name) (fs w5) = lookup (child publicDir name) (fs w4)).
  { intros name Hn. apply Hf5. intros f.
    unfold publicImagesDir, child. rewrite <- app_assoc. simpl.
    now apply diverge_at. }
  assert (Hacc5 : exists acc, lookup publicImagesDir (fs w5) = Some (Dir acc) /\
                    (lookup imagesDir (fs w2) = None -> acc = [])).
  { destruct (proj1 (kind_dir _ _) Hdir5) as [acc Hacc]. exists acc.
    split; [exact Hacc|]. intros Hno. rewrite <- Hid4 in Hno.
    destruct (Habsent Hno) as (_ & Hfs & _). congruence. }
  assert (Himages :
    images_listable w2 ->
    ri = Ok tt /\
    (lookup imagesDir (fs w2) = None -> In (Warn images_warning) (console w5)) /\
    (forall ies, lookup imagesDir (fs w2) = Some (Dir ies) ->
      forall name n, assoc name ies = Some n ->
        lookup (child publicImagesDir name) (fs w5) = Some n /\
        In (Log ("Copied image: images/" ++ name)) (console w5))).
  { intros [Hnf Henum].
    destruct (lookup imagesDir (fs w2)) as [[d|ies]|] eqn:Ei2.
    - now elim (Hnf d).
    - assert (Henum4 : enumerates w4 imagesDir).
      { intros es Hes. rewrite Hid4 in Hes. rewrite Ho4. apply Henum.
        rewrite Ei2. exact Hes. }
      destruct (Hpresent ies Hid4 Henum4 Himg4) as [-> Hall].
      split; [reflexivity|]. split; [discriminate|].
      intros ies' [= <-]. exact Hall.
    - destruct (Habsent Hid4) as (-> & _ & Hw).
      split; [reflexivity|]. split; [auto|discriminate]. }
  destruct ri as [[]|e].
  2:{ intros [= <- <-]. split; [|split; [|split; [|split]]]; auto.
      - rewrite Ho5, Ho4. reflexivity.
      - exists (l4 ++ l5). rewrite Hl5, Hl4, <- app_assoc. split; auto.
        apply Forall_app. auto.
      - intros name Hni Hna. rewrite Hout5 by exact Hni. now apply Hother4.
      - intros _ Hlist. destruct (Himages Hlist) as [? _]. discriminate. }
  unfold console_log. intros [= <- <-]. simpl.
  split; [|split; [|split; [|split]]]; auto.
  - rewrite Ho5, Ho4. reflexivity.
  - exists (l4 ++ l5 ++ [Log "Static site generation complete!"]).
    rewrite Hl5, Hl4, <- !app_assoc. split; auto.
    apply Forall_app. split; auto. apply Forall_app. split; auto.
  - intros name Hni Hna. rewrite Hout5 by exact Hni. now apply Hother4.
  - intros Hfiles Hlist. split; [reflexivity|].
    destruct (Hassets Hfiles) as [_ Hall].
    destruct (Himages Hlist) as (_ & Hw & Hc). split; [|split].
    + intros a Ha. specialize (Hall a Ha).
      destruct (lookup (child rootDir a) (fs w2)) as [n|].
      * destruct Hall as [H1 H2]. split.
        -- rewrite Hout5; [exact H1|]. now apply asset_not_images.
        -- apply in_or_app. left. rewrite Hl5. apply in_or_app. now left.
      * apply in_or_app. left. rewrite Hl5. apply in_or_app. now left.
    + intros Hno. apply in_or_app. left. auto.
    + intros ies Hies name n Hn. destruct (Hc ies Hies name n Hn) as [H1 H2].
      split; [exact H1|]. apply in_or_app. now left.
Qed.

(** ** The sort *)

Lemma compare_headlines_ok a b :
  has_headline a -> has_headline b -> compare_headlines a b = Ok (lc a b).
Proof.
  unfold has_headline, lc, headline_key, compare_headlines, headline_of.
  destruct a as [| | | |?|fa]; try congruence.
  destruct b as [| | | |?|fb]; try congruence.
  simpl.
  destruct (assoc "headline" fa) as [[| | |s|?|?]|]; try congruence.
  destruct (assoc "headline" fb) as [[| | |t|?|?]|]; try congruence.
  reflexivity.
Qed.

(** A receiver without a string headline makes the comparison throw. *)
Lemma compare_headlines_throw a b :
  headline_of a = None -> compare_headlines a b = Throw TypeError.
Proof.
  unfold compare_headlines, headline_of.
  destruct a as [| | | |?|fa]; try reflexivity.
  simpl. destruct (assoc "headline" fa) as [[| | |s|?|?]|];
    try reflexivity; discriminate.
Qed.

Lemma insert_headline_has x l :
  has_headline x -> Forall has_headline l ->
  Forall has_headline (insert_headline x l).
Proof.
  intros Hx Hl. induction Hl as [|y l Hy Hl IH]; simpl.
  - auto.
  - destruct (lc x y <? 0)%Z; auto.
Qed.

Lemma sort_insert_pure x l :
  has_headline x -> Forall has_headline l ->
  sort_insert compare_headlines x l = Ok (insert_headline x l).
Proof.
  intros Hx Hl. induction Hl as [|y l Hy Hl IH]; simpl; [reflexivity|].
  rewrite (compare_headlines_ok x y Hx Hy). simpl.
  destruct (lc x y <? 0)%Z; [reflexivity|]. now rewrite IH.
Qed.

Lemma sort_from_pure sorted rest :
  Forall has_headline sorted -> Forall has_headline rest ->
  sort_from compare_headlines sorted rest =
  Ok (fold_left (fun s x => insert_headline x s) rest sorted).
Proof.
  intros Hs Hr. revert sorted Hs.
  induction Hr as [|x rest Hx Hr IH]; intros sorted Hs; simpl; [reflexivity|].
  rewrite (sort_insert_pure x sorted Hx Hs). simpl.
  apply IH. now apply insert_headline_has.
Qed.

(** With a string headline on every record the sort does not throw, and
    it is the insertion sort by [lc]. *)
Lemma array_sort_pure l :
  Forall has_headline l ->
  array_sort compare_headlines l = Ok (sorted_by_headline l).
Proof. intros H. now apply sort_from_pure. Qed.

Lemma sort_insert_nonempty cmp x l r :
  sort_insert cmp x l = Ok r -> r <> [].
Proof.
  destruct l as [|y l]; simpl.
  - intros [= <-]. discriminate.
  - destruct (cmp x y) as [c|]; [|discriminate]. simpl.
    destruct (c <? 0)%Z; [intros [= <-]; discriminate|].
    destruct (sort_insert cmp x l); simpl; [|discriminate].
    intros [= <-]. discriminate.
Qed.

(** Once the sorted prefix is not empty, a later record without a string
    headline makes the sort throw. *)
Lemma sort_from_throw sorted rest :
  sorted <> [] ->
  Exists (fun r => headline_of r = None) rest ->
  exists e, sort_from compare_headlines sorted rest = Throw e.
Proof.
  intros Hs Hex. revert sorted Hs.
  induction rest as [|x rest IH]; intros sorted Hs; [inversion Hex|].
  simpl. destruct (sort_insert compare_headlines x sorted) as [s'|e] eqn:E.
  - simpl. inversion Hex as [? ? Hx|? ? Hrest]; subst.
    + destruct sorted as [|y sorted]; [congruence|].
      simpl in E. rewrite (compare_headlines_throw x y Hx) in E. discriminate.
    + apply IH; [exact Hrest|]. eapply sort_insert_nonempty; eauto.
  - simpl. eauto.
Qed.

Lemma array_sort_throw r0 rest :
  Exists (fun r => headline_of r = None) rest ->
  exists e, array_sort compare_headlines (r0 :: rest) = Throw e.
Proof.
  intros H. unfold array_sort. simpl. apply sort_from_throw; [discriminate|exact H].
Qed.

Section Sorted.
Hypothesis collation : consistent localeCompare.

Lemma lc_flip a b : (lc a b < 0 <-> 0 < lc b a)%Z.
Proof. apply (cmp_flip _ collation). Qed.

Lemma lc_trans a b c : lc_le a b -> lc_le b c -> lc_le a c.
Proof. apply (cmp_trans _ collation). Qed.

Lemma lc_refl a : lc a a = 0%Z.
Proof. pose proof (lc_flip a a). lia. Qed.

Lemma lc_ge_le a b : (0 <= lc a b)%Z -> lc_le b a.
Proof.
  unfold lc_le. pose proof (lc_flip a b). pose proof (lc_flip b a). lia.
Qed.

Lemma lc_tie_sym a b : lc a b = 0%Z -> lc b a = 0%Z.
Proof. pose proof (lc_flip a b). pose proof (lc_flip b a). lia. Qed.

Lemma insert_headline_perm x l : Permutation (x :: l) (insert_headline x l).
Proof.
  induction l as [|y l IH]; simpl; [reflexivity|].
  destruct (lc x y <? 0)%Z; [reflexivity|].
  rewrite perm_swap. now constructor.
Qed.

Lemma insert_headline_sorted x l :
  StronglySorted lc_le l -> StronglySorted lc_le (insert_headline x l).
Proof.
  induction 1 as [|y l Hs IH Hy]; simpl.
  - repeat constructor.
  - destruct (Z.ltb_spec (lc x y) 0) as [Hlt|Hge].
    + constructor; [now constructor|].
      constructor; [unfold lc_le; lia|].
      eapply Forall_impl; [|exact Hy]. intros z Hz.
      apply (lc_trans x y z); [unfold lc_le; lia|exact Hz].
    + constructor; [exact IH|].
      apply (Permutation_Forall (insert_headline_perm x l)).
      constructor; [now apply lc_ge_le|exact Hy].
Qed.

(** Insertion is stable: among the records whose headline ties with that
    of [z], the new record comes last. *)
Lemma insert_headline_stable z x l :
  StronglySorted lc_le l ->
  filter (same_headline z) (insert_headline x l) =
  filter (same_headline z) l ++ filter (same_headline z) [x].
Proof.
  induction 1 as [|y l Hs IH Hy]; [reflexivity|].
  simpl insert_headline. destruct (Z.ltb_spec (lc x y) 0) as [Hlt|Hge].
  - cbn [filter]. destruct (same_headline z x) eqn:Ezx.
    + (* nothing from [y] on ties with [z] *)
      assert (Hnone : filter (same_headline z) (y :: l) = []).
      { assert (Hall : Forall (fun r => (lc x r < 0)%Z) (y :: l)).
        { constructor; [exact Hlt|].
          eapply Forall_impl; [|exact Hy]. intros r Hr.
          destruct (Z.ltb_spec (lc x r) 0) as [|Hxr]; [assumption|].
          assert (Hrx : lc_le r x) by now apply lc_ge_le.
          pose proof (lc_trans y r x Hr Hrx) as Hyx. unfold lc_le in Hyx.
          pose proof (lc_flip x y). lia. }
        unfold same_headline in Ezx. apply Z.eqb_eq in Ezx.
        clear -Hall Ezx collation.
        induction Hall as [|r rs Hr _ IHr]; [reflexivity|].
        cbn [filter]. rewrite IHr. unfold same_headline.
        destruct (Z.eqb_spec (lc z r) 0) as [Ezr|]; [|reflexivity].
        exfalso.
        assert (H1 : lc_le r z).
        { unfold lc_le. rewrite (lc_tie_sym z r Ezr). lia. }
        assert (H2 : lc_le z x) by (unfold lc_le; lia).
        pose proof (lc_trans r z x H1 H2) as H3. unfold lc_le in H3.
        pose proof (lc_flip x r). lia. }
      cbn [filter] in Hnone. rewrite Hnone. reflexivity.
    + now rewrite app_nil_r.
  - cbn [filter] in IH |- *. destruct (same_headline z y); rewrite IH; reflexivity.
Qed.

Lemma fold_insert_perm rest sorted :
  Permutation (sorted ++ rest)
    (fold_left (fun s x => insert_headline x s) rest sorted).
Proof.
  revert sorted. induction rest as [|x rest IH]; intros sorted; simpl.
  - now rewrite app_nil_r.
  - rewrite <- IH. rewrite <- insert_headline_perm.
    simpl. apply Permutation_sym, Permutation_middle.
Qed.

Lemma fold_insert_sorted rest sorted :
  StronglySorted lc_le sorted ->
  StronglySorted lc_le (fold_left (fun s x => insert_headline x s) rest sorted).
Proof.
  revert sorted. induction rest as [|x rest IH]; intros sorted Hs; simpl.
  - exact Hs.
  - apply IH. now apply insert_headline_sorted.
Qed.

Lemma fold_insert_stable z rest sorted :
  StronglySorted lc_le sorted ->
  filter (same_headline z) (fold_left (fun s x => insert_headline x s) rest sorted) =
  filter (same_headline z) sorted ++ filter (same_headline z) rest.
Proof.
  revert sorted. induction rest as [|x rest IH]; intros sorted Hs.
  - simpl. now rewrite app_nil_r.
  - simpl fold_left. rewrite IH by now apply insert_headline_sorted.
    rewrite insert_headline_stable by exact Hs.
    rewrite <- app_assoc. f_equal. cbn [filter].
    destruct (same_headline z x); reflexivity.
Qed.

Lemma sorted_by_headline_perm l : Permutation l (sorted_by_headline l).
Proof. apply (fold_insert_perm l []). Qed.

Lemma sorted_by_headline_sorted l : StronglySorted lc_le (sorted_by_headline l).
Proof. apply fold_insert_sorted. constructor. Qed.

Lemma sorted_by_headline_stable z l :
  filter (same_headline z) (sorted_by_headline l) = filter (same_headline z) l.
Proof. apply (fold_insert_stable z l []). constructor. Qed.

(** Two sorted arrangements of the same records are the same list, when
    only equal records tie. *)
Lemma sorted_unique s s' :
  StronglySorted lc_le s -> StronglySorted lc_le s' ->
  Permutation s s' ->
  (forall a b, In a s -> In b s -> lc a b = 0%Z -> a = b) ->
  s = s'.
Proof.
  intros Hs. revert s'. induction Hs as [|x xs Hxs IH Hx]; intros s' Hs' Hp Hties.
  - now apply Permutation_nil in Hp.
  - destruct s' as [|y ys]; [now apply Permutation_sym, Permutation_nil in Hp|].
    inversion Hs' as [|? ? Hys Hy]; subst.
    assert (Hxy : lc_le x y).
    { assert (Hin : In y (x :: xs))
        by (eapply Permutation_in; [apply Permutation_sym; exact Hp|now left]).
      destruct Hin as [<-|Hin]; [unfold lc_le; rewrite lc_refl; lia|].
      rewrite Forall_forall in Hx. now apply Hx. }
    assert (Hyx : lc_le y x).
    { assert (Hin : In x (y :: ys)) by (eapply Permutation_in; [exact Hp|now left]).
      destruct Hin as [<-|Hin]; [unfold lc_le; rewrite lc_refl; lia|].
      rewrite Forall_forall in Hy. now apply Hy. }
    assert (E : x = y).
    { apply Hties; [now left| |].
      - eapply Permutation_in; [apply Permutation_sym; exact Hp|now left].
      - unfold lc_le in *. pose proof (lc_flip x y). lia. }
    subst y. f_equal. apply IH; auto.
    + eapply Permutation_cons_inv; eauto.
    + intros a b Ha Hb. apply Hties; now right.
Qed.

End Sorted.

(** ** Loading *)

Lemma readJson_record name w :
  readJson (child recipesDir name) w = (record_at (fs w) name, w).
Proof.
  unfold readJson, bind, readFile, record_at, ret, lift.
  destruct (lookup (child recipesDir name) (fs w)) as [[d|es]|]; try reflexivity.
  destruct (JSON_parse d); reflexivity.
Qed.

Lemma read_recipes_ok files acc w :
  Forall (fun n => is_ok (record_at (fs w) n) = true) (filter is_data_file files) ->
  read_recipes files acc w =
  (Ok (acc ++ map (record_of (fs w)) (filter is_data_file files)), w).
Proof.
  revert acc. induction files as [|f files IH]; intros acc H; simpl.
  - now rewrite app_nil_r.
  - unfold is_data_file in *. simpl in H.
    destruct (endsWith f ".jsonld").
    + inversion H as [|? ? Hf Hrest]; subst.
      unfold bind. rewrite readJson_record.
      destruct (record_at (fs w) f) as [j|] eqn:E; [|discriminate].
      rewrite IH by exact Hrest. rewrite <- app_assoc. cbn [map app].
      replace (record_of (fs w) f) with j; [reflexivity|].
      unfold record_of. now rewrite E.
    + apply IH, H.
Qed.

Lemma read_recipes_inv files acc w rs w1 :
  read_recipes files acc w = (Ok rs, w1) ->
  Forall (fun n => is_ok (record_at (fs w) n) = true) (filter is_data_file files).
Proof.
  revert acc. induction files as [|f files IH]; intros acc; simpl.
  - constructor.
  - unfold is_data_file in *. destruct (endsWith f ".jsonld"); [|apply IH].
    unfold bind. rewrite readJson_record.
    destruct (record_at (fs w) f) as [j|] eqn:E; [|discriminate].
    intros H. constructor; [now rewrite E|]. eapply IH; eauto.
Qed.

Lemma recipes_diverge rest : diverge (recipesDir ++ rest) publicDir.
Proof.
  unfold recipesDir, dataDir, publicDir, child. rewrite <- !app_assoc. simpl.
  apply diverge_at. discriminate.
Qed.

Lemma record_at_frame t t' name :
  (forall q, diverge q publicDir -> lookup q t' = lookup q t) ->
  record_at t' name = record_at t name.
Proof.
  intros H. unfold record_at. rewrite H; [reflexivity|].
  apply (recipes_diverge [name]).
Qed.

(** What a successful load did. *)
Lemma load_inv w T loaded w1 :
  load w = (Ok (T, loaded), w1) ->
  emptyDir publicDir w = (Ok tt, w1) /\
  read_templates w1 = (Ok T, w1) /\
  exists es,
    lookup recipesDir (fs w1) = Some (Dir es) /\
    Forall (fun n => is_ok (record_at (fs w1) n) = true)
      (filter is_data_file
         (sort_names (readdir_order w1 recipesDir (map fst es)))) /\
    loaded = map (record_of (fs w1))
               (filter is_data_file
                  (sort_names (readdir_order w1 recipesDir (map fst es)))).
Proof.
  unfold load, bind, ret.
  destruct (emptyDir publicDir w) as [[[]|e] w0] eqn:E0; [|discriminate].
  destruct (read_templates w0) as [[T0|e] w0'] eqn:E1;
    pose proof (read_templates_world _ _ _ E1) as ->; [|discriminate].
  destruct (readdir recipesDir w0) as [[files|e] w0'] eqn:E2;
    pose proof (readdir_world _ _ _ _ E2) as ->; [|discriminate].
  destruct (read_recipes files [] w0) as [[rs|e] w0'] eqn:E3;
    pose proof (read_recipes_world _ _ _ _ _ E3) as ->; [|discriminate].
  intros [= -> -> ->]. split; [reflexivity|]. split; [exact E1|].
  unfold readdir in E2.
  destruct (lookup recipesDir (fs w1)) as [[d|es]|] eqn:El; try discriminate.
  injection E2 as <-. exists es. split; [reflexivity|].
  pose proof (read_recipes_inv _ _ _ _ _ E3) as Hall. split; [exact Hall|].
  rewrite (read_recipes_ok _ [] _ Hall) in E3. now injection E3 as <-.
Qed.


(** ** The build as a whole *)

Lemma generateSite_after_load w T loaded w1 :
  load w = (Ok (T, loaded), w1) ->
  generateSite w =
  match array_sort compare_headlines loaded with
  | Ok sorted => settle ((render T sorted ;; copy_static) w1)
  | Throw e => {| exit_code := 1; final := with_line (LogError e) w1 |}
  end.
Proof.
  intros Hl. unfold generateSite, generateSite_try, bind at 1. rewrite Hl.
  simpl fst. simpl snd. unfold bind at 1, lift at 1.
  destruct (array_sort compare_headlines loaded); reflexivity.
Qed.

(** When the build reaches the asset-copy step, the output directory
    holds files only, and what remains of the build is that step. *)
Lemma reaches_spec w w2 :
  reaches_copy_static w w2 ->
  pages_only (fs w2) /\ readdir_order w2 = readdir_order w /\
  generateSite w = settle (copy_static w2).
Proof.
  intros (T & loaded & w1 & sorted & Hl & Hs & Hr).
  destruct (load_spec _ _ _ Hl) as (_ & Ho1 & _ & Hok).
  destruct (Hok eq_refl) as [Hempty _].
  destruct (render_spec _ _ _ _ _ (pages_only_empty _ Hempty) Hr)
    as (Hinv & Ho2 & _).
  split; [exact Hinv|]. split; [congruence|].
  rewrite (generateSite_after_load _ _ _ _ Hl), Hs.
  unfold bind. now rewrite Hr.
Qed.

Lemma sort_insert_length cmp x l r :
  sort_insert cmp x l = Ok r -> length r = S (length l).
Proof.
  revert r. induction l as [|y l IH]; intros r; simpl.
  - now intros [= <-].
  - destruct (cmp x y) as [c|]; [|discriminate]. simpl.
    destruct (c <? 0)%Z; [now intros [= <-]|].
    destruct (sort_insert cmp x l) as [r'|]; [|discriminate]. simpl.
    intros [= <-]. simpl. now rewrite (IH r').
Qed.

Lemma array_sort_length cmp l r :
  array_sort cmp l = Ok r -> length r = length l.
Proof.
  unfold array_sort.
  assert (H : forall s rest r, sort_from cmp s rest = Ok r ->
                               length r = length s + length rest).
  { intros s rest. revert s. induction rest as [|x rest IH]; intros s r'; simpl.
    - intros [= <-]. lia.
    - destruct (sort_insert cmp x s) as [s'|] eqn:E; [|discriminate]. simpl.
      intros H. rewrite (IH _ _ H), (sort_insert_length _ _ _ _ E). lia. }
  intros E. now rewrite (H _ _ _ E).
Qed.

Lemma filter_Permutation {A} (f : A -> bool) l l' :
  Permutation l l' -> Permutation (filter f l) (filter f l').
Proof.
  induction 1 as [|x l l' _ IH|x y l|l l' l'' _ IH1 _ IH2]; simpl.
  - constructor.
  - destruct (f x); auto.
  - destruct (f x), (f y); auto. apply perm_swap.
  - etransitivity; eauto.
Qed.

Lemma filter_all {A} (f : A -> bool) l :
  Forall (fun x => f x = true) l -> filter f l = l.
Proof. induction 1 as [|x l Hx _ IH]; simpl; [|rewrite Hx, IH]; reflexivity. Qed.

Lemma filter_none {A} (f : A -> bool) l :
  Forall (fun x => f x = false) l -> filter f l = [].
Proof. induction 1 as [|x l Hx _ IH]; simpl; [|rewrite Hx, IH]; reflexivity. Qed.

Lemma lc_le_headline_le a b :
  has_headline a -> has_headline b -> lc_le a b -> headline_le a b.
Proof.
  unfold has_headline, lc_le, lc, headline_key, headline_le.
  destruct (headline_of a) as [s|]; [|congruence].
  destruct (headline_of b) as [t|]; [|congruence].
  intros _ _ H. exists s, t. auto.
Qed.

Lemma StronglySorted_impl {A} (R R' : A -> A -> Prop) l :
  (forall a b, In a l -> In b l -> R a b -> R' a b) ->
  StronglySorted R l -> StronglySorted R' l.
Proof.
  intros Himp Hs. induction Hs as [|x l Hs IH Hx]; constructor.
  - apply IH. intros a b Ha Hb. apply Himp; now right.
  - rewrite Forall_forall in *. intros y Hy.
    apply Himp; [now left|now right|now apply Hx].
Qed.

(** ** Paths, kinds and pages *)

Lemma diverge_extend p q r : diverge p q -> diverge p (q ++ r).
Proof.
  intros (c & a & b & p' & q' & -> & -> & H).
  exists c, a, b, p', (q' ++ r). rewrite <- app_assoc. auto.
Qed.

Lemma kind_file p t data :
  kind_at p t = KFile data <-> lookup p t = Some (File data).
Proof.
  unfold kind_at. destruct (lookup p t) as [[d|es]|]; split;
    intros H; try discriminate; congruence.
Qed.

Lemma kind_none p t : kind_at p t = KNone <-> lookup p t = None.
Proof.
  unfold kind_at. destruct (lookup p t) as [[d|es]|]; split;
    intros H; try discriminate; congruence.
Qed.

Lemma path_eqb_spec p q : reflect (p = q) (path_eqb p q).
Proof.
  unfold path_eqb. destruct (list_eq_dec string_dec p q); constructor; auto.
Qed.

(** ** What the page loop leaves on disk *)

(** After the page loop every path holds the last page written to it, or
    what it held before. *)
Lemma generate_pages_pages T all todo w w' :
  generate_pages T all todo w = (Ok tt, w') ->
  exists pages,
    Forall2 (fun r pg => page_of T all r = Ok pg) todo pages /\
    forall p, kind_at p (fs w') =
              match last_page p pages with
              | Some html => KFile html
              | None => kind_at p (fs w)
              end.
Proof.
  revert w. induction todo as [|rd todo IH]; intros w; simpl.
  - intros [= <-]. exists []. split; [constructor|reflexivity].
  - unfold bind at 1, lift at 1.
    destruct (recipeTemplate T rd) as [content|e] eqn:E1; [|discriminate].
    unfold bind at 1, lift at 1.
    destruct (layoutTemplate T _) as [html|e] eqn:E2; [|discriminate].
    unfold bind at 1, lift at 1.
    destruct (page_name rd) as [name|e] eqn:E3; [|discriminate].
    unfold bind at 1.
    destruct (writeFile _ html w) as [[[]|e] w0] eqn:Ew; [|discriminate].
    unfold bind at 1, console_log at 1. intros H.
    destruct (IH _ H) as (pages & HF & Hk).
    exists ((path_join publicDir name, html) :: pages). split.
    + constructor; [|exact HF].
      unfold page_of. rewrite E1. simpl. rewrite E2. simpl. now rewrite E3.
    + intros p. rewrite Hk. simpl last_page.
      destruct (last_page p pages); [reflexivity|]. simpl fs.
      destruct (writeFile_kind _ _ _ _ _ Ew)
        as (_ & _ & [[[e He] _]|(_ & _ & Hp)]); [discriminate|].
      destruct (path_eqb_spec (path_join publicDir name) p) as [<-|Hne].
      * now apply Hp.
      * apply Hp. congruence.
Qed.

(** A page write, done or not, changes no path other than one whose last
    component ends in [.html]. *)
Lemma generate_pages_frame T all todo w r w' :
  generate_pages T all todo w = (r, w') ->
  forall p, (forall dir seg, p <> child dir (seg ++ ".html")) ->
            kind_at p (fs w') = kind_at p (fs w).
Proof.
  revert w. induction todo as [|rd todo IH]; intros w; simpl.
  - now intros [= _ <-].
  - unfold bind at 1, lift at 1.
    destruct (recipeTemplate T rd) as [content|e]; [|now intros [= _ <-]].
    unfold bind at 1, lift at 1.
    destruct (layoutTemplate T _) as [html|e]; [|now intros [= _ <-]].
    unfold bind at 1, lift at 1.
    destruct (page_name rd) as [name|e] eqn:E3; [|now intros [= _ <-]].
    unfold bind at 1.
    destruct (writeFile _ html w) as [[[]|e] w0] eqn:Ew.
    + unfold bind at 1, console_log at 1. intros H p Hp.
      rewrite (IH _ H p Hp). simpl fs.
      destruct (writeFile_kind _ _ _ _ _ Ew)
        as (_ & _ & [[[e He] _]|(_ & _ & Hk)]); [discriminate|].
      apply Hk. intros ->.
      destruct (page_name_html _ _ E3) as [s ->].
      destruct (path_join_html publicDir s) as (dir & seg & Hj).
      now apply (Hp dir seg).
    + intros [= _ <-] p Hp.
      destruct (writeFile_kind _ _ _ _ _ Ew)
        as (_ & _ & [[_ ->]|(? & _)]); [reflexivity|discriminate].
Qed.

Lemma generate_index_frame T all w r w' :
  generate_index T all w = (r, w') ->
  forall p, p <> indexPath -> kind_at p (fs w') = kind_at p (fs w).
Proof.
  unfold generate_index.
  unfold bind at 1, lift at 1.
  destruct (indexTemplate T _) as [content|e]; [|now intros [= _ <-]].
  unfold bind at 1, lift at 1.
  destruct (layoutTemplate T _) as [html|e]; [|now intros [= _ <-]].
  unfold bind at 1.
  destruct (writeFile _ html w) as [[[]|e] w0] eqn:Ew.
  - unfold console_log. intros [= _ <-] p Hp. simpl fs.
    destruct (writeFile_kind _ _ _ _ _ Ew)
      as (_ & _ & [[[e He] _]|(_ & _ & Hk)]); [discriminate|].
    now apply Hk.
  - intros [= _ <-] p Hp.
    destruct (writeFile_kind _ _ _ _ _ Ew)
      as (_ & _ & [[_ ->]|(? & _)]); [reflexivity|discriminate].
Qed.

Lemma generate_index_page T all w w' :
  generate_index T all w = (Ok tt, w') ->
  exists indexHtml,
    index_page T all = Ok indexHtml /\
    kind_at indexPath (fs w') = KFile indexHtml.
Proof.
  unfold generate_index, index_page.
  unfold bind at 1, lift at 1.
  destruct (indexTemplate T _) as [content|e]; [|discriminate].
  unfold bind at 1, lift at 1. simpl rbind.
  destruct (layoutTemplate T _) as [html|e]; [|discriminate].
  unfold bind at 1.
  destruct (writeFile _ html w) as [[[]|e] w0] eqn:Ew; [|discriminate].
  unfold console_log. intros [= <-]. exists html. split; [reflexivity|].
  simpl fs.
  destruct (writeFile_kind _ _ _ _ _ Ew)
    as (_ & _ & [[[e He] _]|(_ & _ & Hk)]); [discriminate|].
  now apply Hk.
Qed.

(** Page generation as a whole: the index page is at [index.html]; every
    other path holds the last recipe page written to it, or what it held
    before. *)
Lemma render_pages T all w w' :
  render T all w = (Ok tt, w') ->
  exists pages indexHtml,
    Forall2 (fun r pg => page_of T all r = Ok pg) all pages /\
    index_page T all = Ok indexHtml /\
    kind_at indexPath (fs w') = KFile indexHtml /\
    forall p, p <> indexPath ->
      kind_at p (fs w') =
      match last_page p pages with
      | Some html => KFile html
      | None => kind_at p (fs w)
      end.
Proof.
  unfold render, bind.
  destruct (generate_pages T all all w) as [[[]|e] w0] eqn:Ep; [|discriminate].
  intros Hi.
  destruct (generate_pages_pages _ _ _ _ _ Ep) as (pages & HF & Hk).
  destruct (generate_index_page _ _ _ _ Hi) as (indexHtml & Hip & Hik).
  exists pages, indexHtml. split; [exact HF|]. split; [exact Hip|].
  split; [exact Hik|]. intros p Hp.
  rewrite (generate_index_frame _ _ _ _ _ Hi p Hp). apply Hk.
Qed.

Lemma render_frame T all w r w' :
  render T all w = (r, w') ->
  forall p, (forall dir seg, p <> child dir (seg ++ ".html")) ->
            kind_at p (fs w') = kind_at p (fs w).
Proof.
  unfold render, bind.
  destruct (generate_pages T all all w) as [[[]|e] w0] eqn:Ep.
  - intros Hi p Hp.
    rewrite (generate_index_frame _ _ _ _ _ Hi p).
    + eapply generate_pages_frame; eauto.
    + intros ->. apply (Hp publicDir "index"). reflexivity.
  - intros [= _ <-] p Hp. eapply generate_pages_frame; eauto.
Qed.

(** The asset-copy step, however it goes, touches nothing beside the
    output directory. *)
Lemma copy_static_frame w2 r w' :
  pages_only (fs w2) ->
  copy_static w2 = (r, w') ->
  forall p, diverge p publicDir -> lookup p (fs w') = lookup p (fs w2).
Proof.
  intros Hinv.
  destruct (ensureDir_images w2 Hinv) as (t3 & He & Himg3 & Hpub3 & Hf3).
  unfold copy_static, bind at 1. rewrite He.
  set (w3 := with_fs t3 w2) in *.
  unfold bind at 1.
  destruct (copy_assets assetsToCopy w3) as [ra w4] eqn:Ea.
  destruct (copy_assets_spec assetsToCopy w3 ra w4 assets_NoDup Hpub3 Ea)
    as (_ & _ & Hf4 & _).
  assert (Himg4 : lookup publicImagesDir (fs w4) = Some (Dir [])).
  { rewrite Hf4; [exact Himg3|]. intros a Ha.
    apply asset_dest_diverge. intros E. symmetry in E.
    now apply asset_not_images in E. }
  assert (H4 : forall p, diverge p publicDir -> lookup p (fs w4) = lookup p (fs w2)).
  { intros p Hp. rewrite Hf4.
    - apply Hf3. now apply diverge_extend.
    - intros a _. now apply diverge_extend. }
  destruct ra as [[]|e]; [|now intros [= _ <-]].
  unfold bind at 1.
  destruct (copy_images w4) as [ri w5] eqn:Ei.
  assert (Hdir4 : kind_at publicImagesDir (fs w4) = KDir)
    by (apply kind_dir; eauto).
  destruct (copy_images_spec w4 ri w5 Hdir4 Ei) as (_ & _ & Hf5 & _).
  assert (H5 : forall p, diverge p publicDir -> lookup p (fs w5) = lookup p (fs w2)).
  { intros p Hp. rewrite Hf5; [now apply H4|].
    intros f. unfold publicImagesDir, child. rewrite <- app_assoc.
    now apply diverge_extend. }
  destruct ri as [[]|e]; [|now intros [= _ <-]].
  unfold console_log. now intros [= _ <-].
Qed.

(** ** Paths of pages *)

Lemma split_path_plain s : no_slash s = true -> split_path s = [s].
Proof.
  induction s as [|c s IH]; simpl; [reflexivity|].
  destruct (Ascii.eqb c "/"); simpl; [discriminate|].
  intros H. now rewrite (IH H).
Qed.

Lemma no_slash_html s : no_slash (s ++ ".html") = no_slash s.
Proof. induction s as [|c s IH]; simpl; [reflexivity|now rewrite IH]. Qed.

(** A slug without a slash names a file of the directory joined to. *)
Lemma path_join_plain base s :
  no_slash s = true ->
  path_join base (s ++ ".html") = child base (s ++ ".html").
Proof.
  intros H. unfold path_join.
  rewrite split_path_plain by now rewrite no_slash_html.
  simpl. rewrite norm_step_html. simpl. now rewrite rev_involutive.
Qed.

(** A slug [../s] names a file of the parent of the directory joined to. *)
Lemma path_join_parent base d s :
  no_slash s = true ->
  path_join (child base d) ("../" ++ s ++ ".html") = child base (s ++ ".html").
Proof.
  intros H. unfold path_join. simpl split_path.
  rewrite split_path_plain by now rewrite no_slash_html.
  unfold child. rewrite rev_app_distr. simpl.
  replace (norm_step (d :: rev base) "..") with (rev base) by reflexivity.
  rewrite norm_step_html. simpl. now rewrite rev_involutive.
Qed.

Lemma last_page_In p pages html :
  last_page p pages = Some html -> In (p, html) pages.
Proof.
  induction pages as [|[q h] pages IH]; simpl; [discriminate|].
  destruct (last_page p pages) as [later|].
  - intros [= ->]. right. now apply IH.
  - destruct (path_eqb_spec q p) as [->|]; [|discriminate].
    intros [= ->]. now left.
Qed.

Lemma last_page_unique p pages html :
  In (p, html) pages ->
  (forall h, In (p, h) pages -> h = html) ->
  last_page p pages = Some html.
Proof.
  induction pages as [|[q h] pages IH]; simpl; [tauto|].
  intros Hin Huniq.
  destruct (last_page p pages) as [later|] eqn:El.
  - f_equal. apply Huniq. right. now apply last_page_In.
  - destruct Hin as [E|Hin].
    + injection E as -> ->.
      destruct (path_eqb_spec p p); [reflexivity|congruence].
    + assert (X : None = Some html); [|discriminate X].
      apply IH; [exact Hin|]. intros h' Hh'. apply Huniq. now right.
Qed.

Lemma Forall2_In_r {A B} (R : A -> B -> Prop) l l' b :
  Forall2 R l l' -> In b l' -> exists a, In a l /\ R a b.
Proof.
  induction 1 as [|x y l l' Hxy _ IH]; simpl; [tauto|].
  intros [<-|Hin]; [eauto|].
  destruct (IH Hin) as (a & Ha & HR). eauto.
Qed.

Lemma Forall2_In_l {A B} (R : A -> B -> Prop) l l' a :
  Forall2 R l l' -> In a l -> exists b, In b l' /\ R a b.
Proof.
  induction 1 as [|x y l l' Hxy _ IH]; simpl; [tauto|].
  intros [<-|Hin]; [eauto|].
  destruct (IH Hin) as (b & Hb & HR). eauto.
Qed.

Lemma html_not_public seg : (seg ++ ".html")%string <> "public".
Proof.
  intros E. destruct seg as [|a [|b seg]]; try discriminate.
  apply (f_equal String.length) in E. simpl in E.
  rewrite length_append in E. simpl in E. lia.
Qed.

Lemma settle_fs r w' :
  fs (final (settle (r, w'))) = fs w'.
Proof. destruct r as [[]|e]; reflexivity. Qed.

(** ** Builds on the same files *)

Lemma same_files_refl w : same_files w w.
Proof. split; [reflexivity|intros; apply Permutation_refl]. Qed.

Lemma same_files_with_fs t w w' :
  same_files w w' -> same_files (with_fs t w) (with_fs t w').
Proof. intros [_ Ho]. split; [reflexivity|exact Ho]. Qed.

Lemma same_files_with_line l l' w w' :
  same_files w w' -> same_files (with_line l w) (with_line l' w').
Proof. intros [Hfs Ho]. split; [exact Hfs|exact Ho]. Qed.

Lemma respects_ret {A} (a : A) : respects (ret a).
Proof. intros w w' H. split; [reflexivity|exact H]. Qed.

Lemma respects_lift {A} (r : result A) : respects (lift r).
Proof. intros w w' H. split; [reflexivity|exact H]. Qed.

Lemma respects_bind {A B} (m : M A) (k : A -> M B) :
  respects m -> (forall a, respects (k a)) -> respects (bind m k).
Proof.
  intros Hm Hk w w' H. unfold bind.
  destruct (Hm w w' H) as [Hr Hs].
  destruct (m w) as [r w1], (m w') as [r' w1']. simpl in Hr, Hs. subst r'.
  destruct r as [a|e]; [now apply Hk|]. split; [reflexivity|exact Hs].
Qed.

Ltac same_fs H :=
  let Hfs := fresh "Hfs" in
  pose proof H as [Hfs _]; rewrite Hfs.

Ltac same_done H :=
  split; simpl; [reflexivity|first [exact H|apply same_files_with_fs, H]].

Lemma respects_readFile p : respects (readFile p).
Proof.
  intros w w' H. unfold readFile. same_fs H.
  destruct (lookup p (fs w)) as [[d|es]|]; same_done H.
Qed.

Lemma respects_readdir p : respects (readdir p).
Proof.
  intros w w' H. unfold readdir. same_fs H.
  destruct (lookup p (fs w)) as [[d|es]|]; try same_done H.
  split; [|exact H]. simpl. f_equal.
  apply sort_names_order, Permutation_sym. now destruct H.
Qed.

Lemma respects_pathExists p : respects (pathExists p).
Proof.
  intros w w' H. unfold pathExists. same_fs H.
  destruct (lookup p (fs w)); same_done H.
Qed.

Lemma respects_writeFile p data : respects (writeFile p data).
Proof.
  intros w w' H. unfold writeFile. same_fs H.
  destruct (lookup p (fs w)) as [[d|es]|];
    try destruct (put p (File data) (fs w)); same_done H.
Qed.

Lemma respects_ensureDir p : respects (ensureDir p).
Proof.
  intros w w' H. unfold ensureDir. same_fs H.
  destruct (mkdirs p (fs w)); same_done H.
Qed.

Lemma respects_emptyDir p : respects (emptyDir p).
Proof.
  intros w w' H. unfold emptyDir.
  pose proof (respects_ensureDir p w w' H) as He.
  same_fs H.
  destruct (lookup p (fs w)) as [[d|es]|]; try exact He.
  - destruct emptyDir_rethrows; [same_done H|exact He].
  - destruct (put p (Dir []) (fs w)); same_done H.
Qed.

Lemma respects_copy src dest : respects (copy src dest).
Proof.
  intros w w' H. unfold copy. same_fs H.
  destruct (lookup src (fs w)) as [n|]; [|same_done H].
  destruct (copy_onto n (lookup dest (fs w))) as [n'|e]; [|same_done H].
  destruct (mkdirs (removelast dest) (fs w)) as [t|e]; [|same_done H].
  destruct (put dest n' t); same_done H.
Qed.

Lemma respects_log s : respects (console_log s).
Proof.
  intros w w' H. split; [reflexivity|now apply same_files_with_line].
Qed.

Lemma respects_warn s : respects (console_warn s).
Proof.
  intros w w' H. split; [reflexivity|now apply same_files_with_line].
Qed.

Create HintDb respects.
#[local] Hint Resolve respects_ret respects_lift respects_readFile
  respects_readdir respects_pathExists respects_writeFile respects_ensureDir
  respects_emptyDir respects_copy respects_log respects_warn : respects.

Ltac respects := repeat (apply respects_bind; [|intros ?]); auto with respects.

Lemma respects_readJson p : respects (readJson p).
Proof. unfold readJson. respects. destruct (JSON_parse a); auto with respects. Qed.

Lemma respects_read_templates : respects read_templates.
Proof. unfold read_templates. respects. Qed.

Lemma respects_read_recipes files acc : respects (read_recipes files acc).
Proof.
  revert acc. induction files as [|f files IH]; intros acc; simpl.
  - auto with respects.
  - destruct (endsWith f ".jsonld"); [|apply IH].
    apply respects_bind; [apply respects_readJson|intros ?; apply IH].
Qed.

Lemma respects_generate_pages T all todo : respects (generate_pages T all todo).
Proof. induction todo as [|r todo IH]; simpl; respects. Qed.

Lemma respects_generate_index T all : respects (generate_index T all).
Proof. unfold generate_index. respects. Qed.

Lemma respects_render T all : respects (render T all).
Proof.
  unfold render. apply respects_bind;
    [apply respects_generate_pages|intros ?; apply respects_generate_index].
Qed.

Lemma respects_copy_assets assets : respects (copy_assets assets).
Proof.
  induction assets as [|a assets IH]; simpl; [auto with respects|].
  apply respects_bind; [auto with respects|]. intros present.
  apply respects_bind; [|intros ?; apply IH].
  destruct present; respects.
Qed.

Lemma respects_copy_image_files files : respects (copy_image_files files).
Proof. induction files as [|f files IH]; simpl; respects. Qed.

Lemma respects_copy_images : respects copy_images.
Proof.
  unfold copy_images. apply respects_bind; [auto with respects|].
  intros [|]; [|auto with respects].
  apply respects_bind; [auto with respects|].
  intros ?. apply respects_copy_image_files.
Qed.

Lemma respects_copy_static : respects copy_static.
Proof.
  unfold copy_static.
  apply respects_bind; [auto with respects|intros ?].
  apply respects_bind; [apply respects_copy_assets|intros ?].
  apply respects_bind; [apply respects_copy_images|intros ?].
  auto with respects.
Qed.

Lemma respects_after_emptyDir : respects after_emptyDir.
Proof.
  unfold after_emptyDir.
  apply respects_bind; [apply respects_read_templates|intros ?].
  apply respects_bind; [apply respects_readdir|intros ?].
  apply respects_bind; [apply respects_read_recipes|intros ?].
  apply respects_bind; [apply respects_ret|intros ?].
  apply respects_bind; [apply respects_lift|intros ?].
  apply respects_bind; [apply respects_render|intros ?].
  apply respects_copy_static.
Qed.

Lemma bind_assoc {A B C} (m : M A) (k : A -> M B) (h : B -> M C) w :
  bind (bind m k) h w = bind m (fun a => bind (k a) h) w.
Proof. unfold bind. destruct (m w) as [[a|e] w1]; reflexivity. Qed.

Lemma bind_ext {A B} (m : M A) (k k' : A -> M B) w :
  (forall a w1, k a w1 = k' a w1) -> bind m k w = bind m k' w.
Proof. intros H. unfold bind. destruct (m w) as [[a|e] w1]; auto. Qed.

(** The build is the clearing of the output directory and what follows. *)
Lemma generateSite_try_steps w :
  generateSite_try w = (emptyDir publicDir ;; after_emptyDir) w.
Proof.
  unfold generateSite_try, load, after_emptyDir.
  repeat (rewrite bind_assoc; apply bind_ext; intros ? ?).
  reflexivity.
Qed.

Lemma respects_generateSite_try : respects generateSite_try.
Proof.
  intros w w' H. rewrite !generateSite_try_steps.
  revert w w' H. change (respects (emptyDir publicDir ;; after_emptyDir)).
  apply respects_bind; [apply respects_emptyDir|].
  intros ?. apply respects_after_emptyDir.
Qed.

Lemma settle_same r w1 r' w1' :
  r' = r -> same_files w1 w1' ->
  exit_code (settle (r', w1')) = exit_code (settle (r, w1)) /\
  fs (final (settle (r', w1'))) = fs (final (settle (r, w1))).
Proof.
  intros -> [Hfs _]. destruct r as [[]|e]; simpl; auto.
Qed.

(** Two builds on the same files end with the same status and the same
    tree. *)
Lemma generateSite_same_files w w' :
  same_files w w' ->
  exit_code (generateSite w') = exit_code (generateSite w) /\
  fs (final (generateSite w')) = fs (final (generateSite w)).
Proof.
  intros H. unfold generateSite.
  destruct (respects_generateSite_try w w' H) as [Hr Hs].
  destruct (generateSite_try w) as [r w1], (generateSite_try w') as [r' w1'].
  now apply settle_same.
Qed.

(** ** Writes inside the output directory *)

Lemma assoc_set_set {V} (k : string) (a b : V) l :
  assoc_set k b (assoc_set k a l) = assoc_set k b l.
Proof.
  induction l as [|[k' v'] l IH]; simpl.
  - now rewrite String.eqb_refl.
  - destruct (String.eqb k k') eqn:E; simpl.
    + now rewrite String.eqb_refl.
    + now rewrite E, IH.
Qed.

Lemma put_single s v es : put [s] v (Dir es) = Some (Dir (assoc_set s v es)).
Proof. reflexivity. Qed.

Lemma put_cons s s' p v es :
  put (s :: s' :: p) v (Dir es) =
  match assoc s es with
  | Some c =>
      match put (s' :: p) v c with
      | Some c' => Some (Dir (assoc_set s c' es))
      | None => None
      end
  | None => None
  end.
Proof. reflexivity. Qed.

Lemma put_file s p v d : put (s :: p) v (File d) = None.
Proof. reflexivity. Qed.

Lemma put_put p a b t t1 t2 :
  put p a t = Some t1 -> put p b t1 = Some t2 -> put p b t = Some t2.
Proof.
  revert t t1 t2. induction p as [|s p IH]; intros t t1 t2.
  - intros _ H. exact H.
  - destruct t as [d|es]; [rewrite put_file; discriminate|].
    destruct p as [|s' p'].
    + rewrite !put_single. intros [= <-]. rewrite put_single.
      now rewrite assoc_set_set.
    + rewrite !put_cons.
      destruct (assoc s es) as [c|] eqn:Ec; [|discriminate].
      destruct (put (s' :: p') a c) as [c1|] eqn:E1; [|discriminate].
      intros [= <-]. rewrite put_cons, assoc_set_same.
      destruct (put (s' :: p') b c1) as [c2|] eqn:E2; [|discriminate].
      intros [= <-]. rewrite (IH _ _ _ E1 E2), assoc_set_set. reflexivity.
Qed.

Lemma put_lookup_id p n t : lookup p t = Some n -> put p n t = Some t.
Proof.
  revert t. induction p as [|s p IH]; intros t.
  - simpl. now intros [= ->].
  - destruct t as [d|es]; [discriminate|]. simpl lookup.
    destruct (assoc s es) as [c|] eqn:Ec; [|discriminate].
    intros H. destruct p as [|s' p'].
    + simpl in H. injection H as ->.
      now rewrite put_single, (assoc_set_id _ _ _ Ec).
    + rewrite put_cons, Ec, (IH _ H), (assoc_set_id _ _ _ Ec). reflexivity.
Qed.

Lemma put_exists p n v t : lookup p t = Some n -> put p v t <> None.
Proof.
  revert t. induction p as [|s p IH]; intros t; [discriminate|].
  destruct t as [d|es]; [discriminate|]. simpl lookup.
  destruct (assoc s es) as [c|] eqn:Ec; [|discriminate].
  destruct p as [|s' p']; [discriminate|].
  intros Hc. rewrite put_cons, Ec. specialize (IH _ Hc).
  destruct (put (s' :: p') v c); [discriminate|contradiction].
Qed.

Lemma put_is_dir s q v t t' : put (s :: q) v t = Some t' -> exists es, t' = Dir es.
Proof.
  destruct t as [d|es]; [discriminate|].
  destruct q as [|s' q'].
  - rewrite put_single. intros [= <-]. eauto.
  - rewrite put_cons. destruct (assoc s es) as [c|]; [|discriminate].
    destruct (put (s' :: q') v c); [|discriminate].
    intros [= <-]. eauto.
Qed.

(** A node bound below a directory rewrites that directory. *)
Lemma put_below p q v t t' es :
  lookup p t = Some (Dir es) -> q <> [] ->
  put (p ++ q) v t = Some t' ->
  exists es', put p (Dir es') t = Some t'.
Proof.
  revert t t' es. induction p as [|s p IH]; intros t t' es Hl Hq.
  - simpl in Hl. injection Hl as ->. simpl app.
    destruct q as [|s q]; [contradiction|]. intros H.
    destruct (put_is_dir _ _ _ _ _ H) as [es' ->]. now exists es'.
  - destruct t as [d|es0]; [discriminate|]. simpl in Hl.
    destruct (assoc s es0) as [c|] eqn:Ec; [|discriminate].
    change ((s :: p) ++ q) with (s :: (p ++ q)).
    assert (Hpq : exists s' r, p ++ q = s' :: r).
    { destruct (p ++ q) as [|s' r] eqn:Epq; [|eauto].
      apply app_eq_nil in Epq as [_ ->]. contradiction. }
    destruct Hpq as (s' & r & Epq).
    rewrite Epq, put_cons, Ec, <- Epq.
    destruct (put (p ++ q) v c) as [c'|] eqn:Ep; [|discriminate].
    intros [= <-].
    destruct (IH _ _ _ Hl Hq Ep) as [es' He].
    exists es'. destruct p as [|s'' p''].
    + simpl in He. injection He as <-. reflexivity.
    + rewrite ?put_cons. now rewrite Ec, He.
Qed.

Lemma mkdirs_is_dir p t t' : mkdirs p t = Ok t' -> exists es, t' = Dir es.
Proof.
  destruct p as [|s p], t as [d|es]; simpl; try discriminate.
  - intros [= <-]. eauto.
  - destruct (mkdirs p _); simpl; [|discriminate]. intros [= <-]. eauto.
Qed.

Lemma mkdirs_below p q t t' es :
  lookup p t = Some (Dir es) ->
  mkdirs (p ++ q) t = Ok t' ->
  exists es', put p (Dir es') t = Some t'.
Proof.
  revert t t' es. induction p as [|s p IH]; intros t t' es Hl.
  - simpl in Hl. injection Hl as ->. simpl app. intros H.
    destruct (mkdirs_is_dir _ _ _ H) as [es' ->]. now exists es'.
  - destruct t as [d|es0]; [discriminate|]. simpl in Hl.
    destruct (assoc s es0) as [c|] eqn:Ec; [|discriminate].
    change ((s :: p) ++ q) with (s :: (p ++ q)).
    change (mkdirs (s :: (p ++ q)) (Dir es0))
      with (rbind (mkdirs (p ++ q)
                     match assoc s es0 with Some c => c | None => Dir [] end)
              (fun c' => Ok (Dir (assoc_set s c' es0)))).
    rewrite Ec.
    destruct (mkdirs (p ++ q) c) as [c'|] eqn:Em; simpl; [|discriminate].
    intros [= <-].
    destruct (IH _ _ _ Hl Em) as [es' He].
    exists es'. destruct p as [|s'' p''].
    + simpl in He. injection He as <-. reflexivity.
    + rewrite ?put_cons. now rewrite Ec, He.
Qed.

Lemma rewrites_output_refl t es :
  lookup publicDir t = Some (Dir es) -> rewrites_output t t.
Proof. intros H. exists es. now apply put_lookup_id. Qed.

Lemma rewrites_output_trans t t1 t2 :
  rewrites_output t t1 -> rewrites_output t1 t2 -> rewrites_output t t2.
Proof. intros [es1 H1] [es2 H2]. exists es2. eapply put_put; eauto. Qed.

Lemma rewrites_output_dir t t' :
  rewrites_output t t' -> exists es, lookup publicDir t' = Some (Dir es).
Proof. intros [es H]. exists es. eapply lookup_put_same; eauto. Qed.

(** Emptying the rewritten output directory gives what emptying it gave
    before. *)
Lemma rewrites_output_emptied t t' :
  lookup publicDir t = Some (Dir []) ->
  rewrites_output t t' ->
  put publicDir (Dir []) t' = Some t.
Proof.
  intros Hl [es H].
  destruct (put publicDir (Dir []) t') as [t2|] eqn:E.
  - rewrite <- (put_put _ _ _ _ _ _ H E). now apply put_lookup_id.
  - exfalso. pose proof (lookup_put_same _ _ _ _ H) as Hd.
    exact (put_exists _ _ _ _ Hd E).
Qed.

Lemma writeFile_inside q data w r w' es :
  lookup publicDir (fs w) = Some (Dir es) -> q <> [] ->
  writeFile (publicDir ++ q) data w = (r, w') ->
  rewrites_output (fs w) (fs w').
Proof.
  intros Hd Hq. unfold writeFile.
  assert (Hsame : rewrites_output (fs w) (fs w))
    by (eapply rewrites_output_refl; eauto).
  destruct (lookup (publicDir ++ q) (fs w)) as [[d|es0]|];
    try (intros [= _ <-]; exact Hsame);
    (destruct (put (publicDir ++ q) (File data) (fs w)) as [t|] eqn:Ep;
     intros [= _ <-]; [|exact Hsame]);
    simpl; eapply put_below; eauto.
Qed.

Lemma ensureDir_inside q w r w' es :
  lookup publicDir (fs w) = Some (Dir es) ->
  ensureDir (publicDir ++ q) w = (r, w') ->
  rewrites_output (fs w) (fs w').
Proof.
  intros Hd. unfold ensureDir.
  destruct (mkdirs (publicDir ++ q) (fs w)) as [t|e] eqn:Em; intros [= _ <-].
  - simpl. eapply mkdirs_below; eauto.
  - eapply rewrites_output_refl; eauto.
Qed.

Lemma copy_inside src q w r w' es :
  lookup publicDir (fs w) = Some (Dir es) -> q <> [] ->
  copy src (publicDir ++ q) w = (r, w') ->
  rewrites_output (fs w) (fs w').
Proof.
  intros Hd Hq. unfold copy.
  assert (Hsame : rewrites_output (fs w) (fs w))
    by (eapply rewrites_output_refl; eauto).
  destruct (lookup src (fs w)) as [n|]; [|intros [= _ <-]; exact Hsame].
  destruct (copy_onto n _) as [n'|e]; [|intros [= _ <-]; exact Hsame].
  rewrite (removelast_app publicDir Hq).
  destruct (mkdirs (publicDir ++ removelast q) (fs w)) as [t|e] eqn:Em;
    [|intros [= _ <-]; exact Hsame].
  assert (H1 : rewrites_output (fs w) t) by (eapply mkdirs_below; eauto).
  destruct (put (publicDir ++ q) n' t) as [t'|] eqn:Ep; intros [= _ <-]; simpl;
    [|exact H1].
  destruct (rewrites_output_dir _ _ H1) as [es1 Hd1].
  eapply rewrites_output_trans; [exact H1|]. eapply put_below; eauto.
Qed.

Lemma stays_nonempty r name q :
  page_name r = Ok name -> path_join publicDir name = publicDir ++ q -> q <> [].
Proof.
  intros Hn Hq ->. rewrite app_nil_r in Hq.
  destruct (page_name_html _ _ Hn) as [s ->].
  destruct (path_join_html publicDir s) as (dir & seg & E).
  rewrite Hq in E. unfold publicDir in E at 1. apply child_inj in E as [_ E].
  symmetry in E. now apply html_not_public in E.
Qed.

Lemma generate_pages_inside T all todo w r w' es :
  lookup publicDir (fs w) = Some (Dir es) ->
  Forall stays_in_output todo ->
  generate_pages T all todo w = (r, w') ->
  rewrites_output (fs w) (fs w').
Proof.
  intros Hd Hall. revert w es Hd.
  induction Hall as [|rd todo Hrd _ IH]; intros w es Hd; simpl.
  - intros [= _ <-]. eapply rewrites_output_refl; eauto.
  - assert (Hsame : rewrites_output (fs w) (fs w))
      by (eapply rewrites_output_refl; eauto).
    unfold bind at 1, lift at 1.
    destruct (recipeTemplate T rd) as [content|e]; [|intros [= _ <-]; exact Hsame].
    unfold bind at 1, lift at 1.
    destruct (layoutTemplate T _) as [html|e]; [|intros [= _ <-]; exact Hsame].
    unfold bind at 1, lift at 1.
    destruct (page_name rd) as [name|e] eqn:En; [|intros [= _ <-]; exact Hsame].
    destruct (Hrd name En) as [q Hq].
    pose proof (stays_nonempty _ _ _ En Hq) as Hne. rewrite Hq.
    unfold bind at 1.
    destruct (writeFile (publicDir ++ q) html w) as [[[]|e] w0] eqn:Ew.
    + pose proof (writeFile_inside _ _ _ _ _ _ Hd Hne Ew) as H0.
      unfold bind at 1, console_log at 1. intros H.
      destruct (rewrites_output_dir _ _ H0) as [es0 Hd0].
      eapply rewrites_output_trans; [exact H0|].
      apply (IH (with_line (Log ("Generated: " ++ name)) w0) es0 Hd0 H).
    + intros [= _ <-]. eapply writeFile_inside; eauto.
Qed.

Lemma generate_index_inside T all w r w' es :
  lookup publicDir (fs w) = Some (Dir es) ->
  generate_index T all w = (r, w') ->
  rewrites_output (fs w) (fs w').
Proof.
  intros Hd. unfold generate_index.
  assert (Hsame : rewrites_output (fs w) (fs w))
    by (eapply rewrites_output_refl; eauto).
  unfold bind at 1, lift at 1.
  destruct (indexTemplate T _) as [content|e]; [|intros [= _ <-]; exact Hsame].
  unfold bind at 1, lift at 1.
  destruct (layoutTemplate T _) as [html|e]; [|intros [= _ <-]; exact Hsame].
  unfold bind at 1.
  destruct (writeFile (child publicDir "index.html") html w) as [[[]|e] w0] eqn:Ew.
  - unfold console_log. intros [= _ <-]. simpl.
    eapply (writeFile_inside ["index.html"]); eauto. discriminate.
  - intros [= _ <-]. eapply (writeFile_inside ["index.html"]); eauto. discriminate.
Qed.

Lemma render_inside T all w r w' es :
  lookup publicDir (fs w) = Some (Dir es) ->
  Forall stays_in_output all ->
  render T all w = (r, w') ->
  rewrites_output (fs w) (fs w').
Proof.
  intros Hd Hall. unfold render, bind.
  destruct (generate_pages T all all w) as [[[]|e] w0] eqn:Ep.
  - pose proof (generate_pages_inside _ _ _ _ _ _ _ Hd Hall Ep) as H0.
    destruct (rewrites_output_dir _ _ H0) as [es0 Hd0]. intros H.
    eapply rewrites_output_trans; [exact H0|].
    eapply generate_index_inside; eauto.
  - intros [= _ <-]. eapply generate_pages_inside; eauto.
Qed.

Lemma copy_assets_inside assets w r w' es :
  lookup publicDir (fs w) = Some (Dir es) ->
  copy_assets assets w = (r, w') ->
  rewrites_output (fs w) (fs w').
Proof.
  revert w es. induction assets as [|a assets IH]; intros w es Hd; simpl.
  - intros [= _ <-]. eapply rewrites_output_refl; eauto.
  - unfold bind at 1. rewrite pathExists_spec.
    assert (Hstep : forall r0 w0,
              (if match lookup (child rootDir a) (fs w) with
                  | Some _ => true | None => false end
               then copy (child rootDir a) (child publicDir a) ;;
                    console_log ("Copied: " ++ a)
               else console_warn ("Asset not found, skipped: " ++ a)) w
              = (r0, w0) -> rewrites_output (fs w) (fs w0)).
    { intros r0 w0.
      destruct (lookup (child rootDir a) (fs w)).
      - unfold bind.
        destruct (copy _ _ w) as [[[]|e] w1] eqn:Ec.
        + unfold console_log. intros [= _ <-]. simpl.
          eapply (copy_inside _ [a]); eauto. discriminate.
        + intros [= _ <-]. eapply (copy_inside _ [a]); eauto. discriminate.
      - unfold console_warn. intros [= _ <-]. simpl.
        eapply rewrites_output_refl; eauto. }
    unfold bind at 1.
    match goal with |- context [?m w] =>
      destruct (m w) as [[[]|e] w0] eqn:Em end.
    + pose proof (Hstep _ _ Em) as H0.
      destruct (rewrites_output_dir _ _ H0) as [es0 Hd0]. intros H.
      eapply rewrites_output_trans; [exact H0|]. eapply IH; eauto.
    + intros [= _ <-]. exact (Hstep _ _ Em).
Qed.

Lemma copy_image_files_inside files w r w' es :
  lookup publicDir (fs w) = Some (Dir es) ->
  copy_image_files files w = (r, w') ->
  rewrites_output (fs w) (fs w').
Proof.
  revert w es. induction files as [|f files IH]; intros w es Hd; simpl.
  - intros [= _ <-]. eapply rewrites_output_refl; eauto.
  - unfold bind at 1.
    assert (Hc : forall r0 w0,
              copy (child imagesDir f) (child publicImagesDir f) w = (r0, w0) ->
              rewrites_output (fs w) (fs w0)).
    { intros r0 w0. unfold publicImagesDir, child. rewrite <- app_assoc.
      apply copy_inside with (es := es); [exact Hd|discriminate]. }
    destruct (copy _ _ w) as [[[]|e] w0] eqn:Ec.
    + pose proof (Hc _ _ eq_refl) as H0.
      destruct (rewrites_output_dir _ _ H0) as [es0 Hd0].
      unfold bind at 1, console_log at 1. intros H.
      eapply rewrites_output_trans; [exact H0|].
      apply (IH (with_line (Log ("Copied image: images/" ++ f)) w0) es0 Hd0 H).
    + intros [= _ <-]. exact (Hc _ _ eq_refl).
Qed.

Lemma copy_static_inside w r w' es :
  lookup publicDir (fs w) = Some (Dir es) ->
  copy_static w = (r, w') ->
  rewrites_output (fs w) (fs w').
Proof.
  intros Hd. unfold copy_static. unfold bind at 1.
  destruct (ensureDir publicImagesDir w) as [[[]|e] w0] eqn:Ee.
  2:{ intros [= _ <-]. eapply (ensureDir_inside ["images"]); eauto. }
  pose proof (ensureDir_inside ["images"] _ _ _ _ Hd Ee) as H0.
  destruct (rewrites_output_dir _ _ H0) as [es0 Hd0].
  unfold bind at 1.
  destruct (copy_assets assetsToCopy w0) as [[[]|e] w1] eqn:Ea.
  2:{ intros [= _ <-]. eapply rewrites_output_trans; [exact H0|].
      eapply copy_assets_inside; eauto. }
  pose proof (copy_assets_inside _ _ _ _ _ Hd0 Ea) as H1.
  destruct (rewrites_output_dir _ _ H1) as [es1 Hd1].
  assert (Hi : forall r2 w2, copy_images w1 = (r2, w2) ->
                             rewrites_output (fs w1) (fs w2)).
  { intros r2 w2. unfold copy_images, bind at 1. rewrite pathExists_spec.
    destruct (lookup imagesDir (fs w1)).
    - unfold bind.
      destruct (readdir imagesDir w1) as [[files|e] w1'] eqn:Er;
        pose proof (readdir_world _ _ _ _ Er) as ->.
      + intros H. eapply copy_image_files_inside; eauto.
      + intros [= _ <-]. eapply rewrites_output_refl; eauto.
    - unfold console_warn. intros [= _ <-]. simpl.
      eapply rewrites_output_refl; eauto. }
  unfold bind at 1.
  destruct (copy_images w1) as [[[]|e] w2] eqn:Ei.
  - unfold console_log. intros [= _ <-]. simpl.
    eapply rewrites_output_trans; [exact H0|].
    eapply rewrites_output_trans; [exact H1|]. exact (Hi _ _ eq_refl).
  - intros [= _ <-].
    eapply rewrites_output_trans; [exact H0|].
    eapply rewrites_output_trans; [exact H1|]. exact (Hi _ _ eq_refl).
Qed.

(** ** The sort rearranges *)

Lemma sort_insert_perm cmp x l r :
  sort_insert cmp x l = Ok r -> Permutation (x :: l) r.
Proof.
  revert r. induction l as [|y l IH]; intros r; simpl.
  - now intros [= <-].
  - destruct (cmp x y) as [c|]; [|discriminate]. simpl.
    destruct (c <? 0)%Z; [now intros [= <-]|].
    destruct (sort_insert cmp x l) as [r'|]; [|discriminate]. simpl.
    intros [= <-]. rewrite perm_swap. constructor. now apply IH.
Qed.

Lemma sort_from_perm cmp rest s r :
  sort_from cmp s rest = Ok r -> Permutation (s ++ rest) r.
Proof.
  revert s r. induction rest as [|x rest IH]; intros s r; simpl.
  - intros [= <-]. now rewrite app_nil_r.
  - destruct (sort_insert cmp x s) as [s'|] eqn:E; [|discriminate]. simpl.
    intros H. rewrite <- (IH _ _ H).
    rewrite <- (sort_insert_perm _ _ _ _ E). simpl.
    apply Permutation_sym, Permutation_middle.
Qed.

(** ** Where a page file can be *)

Lemma last_page_some p pages html :
  In (p, html) pages -> exists h, last_page p pages = Some h /\ In (p, h) pages.
Proof.
  induction pages as [|[q h0] pages IH]; simpl; [contradiction|].
  intros [E|Hin].
  - injection E as -> ->.
    destruct (last_page p pages) as [later|] eqn:El.
    + exists later. split; [reflexivity|]. right. now apply last_page_In.
    + destruct (path_eqb_spec p p); [|contradiction]. eauto.
  - destruct (IH Hin) as (h & -> & Hh). eauto.
Qed.

Lemma path_cases (p q : path) :
  diverge p q \/ (exists r, q = p ++ r) \/ (exists a r, p = q ++ a :: r).
Proof.
  revert q. induction p as [|s p IH]; intros q.
  - right. left. now exists q.
  - destruct q as [|s' q]; [right; right; now exists s, p|].
    destruct (string_dec s s') as [->|Hne].
    + destruct (IH q) as [(c & a & b & p' & q' & -> & -> & H)|[[r ->]|(a & r & ->)]].
      * left. exists (s' :: c), a, b, p', q'. auto.
      * right. left. now exists r.
      * right. right. now exists a, r.
    + left. exists [], s, s', p, q. auto.
Qed.

(** While the output directory holds files only, a file is beside it or
    directly in it. *)
Lemma file_place t p data :
  pages_only t -> kind_at p t = KFile data ->
  diverge p publicDir \/ exists name, p = child publicDir name.
Proof.
  intros (Hdir & Hfiles & _) Hp.
  destruct (path_cases p publicDir) as [Hd|[[r Hr]|(a & r & ->)]]; [auto| |].
  - exfalso. apply kind_dir in Hdir as [es Hes].
    rewrite Hr, lookup_app in Hes. apply kind_file in Hp. rewrite Hp in Hes.
    destruct r; simpl in Hes; discriminate.
  - destruct r as [|b r]; [right; now exists a|]. exfalso.
    apply kind_file in Hp.
    change (publicDir ++ a :: b :: r) with (publicDir ++ [a] ++ b :: r) in Hp.
    rewrite app_assoc, lookup_app in Hp.
    destruct (lookup (publicDir ++ [a]) t) as [[d|es]|] eqn:El;
      try discriminate.
    apply (Hfiles a). apply kind_dir. eauto.
Qed.

(** * The claims *)

(** C2: the layout of a recipe page is called with
    [{ ...recipeData, body, recipes }]: [body] and [recipes] are the
    rendered recipe and the collection whatever the record holds under
    those keys, and every other key, [pageTitle] and [featuredImage]
    included, resolves to the record's own property, so that nothing the
    orchestrator supplies stands in its way; what the layout returns for
    that context is what is written.  The layout of the index page is
    called with the fixed title, whatever the records are. *)
Theorem layout_context_precedence
  (T : templates) (recipeData : json) (recipeContent : string)
  (allRecipesData rest : list json) (w : world) :
  (exists fields,
     page_context recipeData recipeContent allRecipesData = JObj fields /\
     assoc "body" fields = Some (JStr recipeContent) /\
     assoc "recipes" fields = Some (JArr allRecipesData) /\
     (forall k, k <> "body" -> k <> "recipes" ->
        assoc k fields = assoc k (own_props recipeData)) /\
     assoc "pageTitle" fields = assoc "pageTitle" (own_props recipeData) /\
     assoc "featuredImage" fields = assoc "featuredImage" (own_props recipeData)) /\
  (recipeTemplate T recipeData = Ok recipeContent ->
   generate_pages T allRecipesData (recipeData :: rest) w =
   (pageHtml <- lift (layoutTemplate T
                        (page_context recipeData recipeContent allRecipesData)) ;;
    name <- lift (page_name recipeData) ;;
    writeFile (path_join publicDir name) pageHtml ;;
    console_log ("Generated: " ++ name) ;;
    generate_pages T allRecipesData rest) w) /\
  (forall indexContent,
     exists fields,
       index_context indexContent allRecipesData = JObj fields /\
       assoc "pageTitle" fields = Some (JStr indexTitle) /\
       assoc "body" fields = Some (JStr indexContent) /\
       assoc "recipes" fields = Some (JArr allRecipesData)) /\
  (forall indexContent,
     indexTemplate T (JObj []) = Ok indexContent ->
     generate_index T allRecipesData w =
     (indexHtml <- lift (layoutTemplate T
                           (index_context indexContent allRecipesData)) ;;
      writeFile (child publicDir "index.html") indexHtml ;;
      console_log "Generated: index.html") w).
Proof.
  split; [|split; [|split]].
  - eexists. split; [reflexivity|].
    assert (Hother : forall k, k <> "body" -> k <> "recipes" ->
      assoc k (assoc_set "recipes" (JArr allRecipesData)
                 (assoc_set "body" (JStr recipeContent) (own_props recipeData)))
      = assoc k (own_props recipeData)).
    { intros k Hb Hr. now rewrite !assoc_set_other. }
    split; [|split; [|split; [|split]]].
    + rewrite assoc_set_other by discriminate. apply assoc_set_same.
    + apply assoc_set_same.
    + exact Hother.
    + apply Hother; discriminate.
    + apply Hother; discriminate.
  - intros Hr. simpl. unfold bind at 1, lift at 1. now rewrite Hr.
  - intros indexContent. eexists. split; [reflexivity|]. auto.
  - intros indexContent Hi. unfold generate_index, bind at 1, lift at 1.
    now rewrite Hi.
Qed.

(** C1: when every record has a string headline and the collation is
    consistent, the collection the pages are rendered from is the loaded
    one (the data files in the order [readdir] lists them) sorted
    ascending by headline, ties kept in that order.  Every page the build
    generates is what the layout returned for a context whose [recipes]
    is that sorted list: the page of each record, written in sorted
    order, and the index page; and those pages are what the page step
    leaves on disk. *)
Theorem navigation_sorted_by_headline w T loaded w1 :
  consistent localeCompare ->
  load w = (Ok (T, loaded), w1) ->
  Forall has_headline loaded ->
  exists es sorted,
    lookup recipesDir (fs w) = Some (Dir es) /\
    loaded = map (record_of (fs w))
               (filter is_data_file
                  (sort_names (readdir_order w recipesDir (map fst es)))) /\
    array_sort compare_headlines loaded = Ok sorted /\
    Permutation loaded sorted /\
    StronglySorted headline_le sorted /\
    (forall z, filter (same_headline z) sorted = filter (same_headline z) loaded) /\
    generateSite w = settle ((render T sorted ;; copy_static) w1) /\
    forall w2, render T sorted w1 = (Ok tt, w2) ->
      exists pages indexContent indexHtml,
        Forall2 (fun r pg =>
                   exists content name fields,
                     recipeTemplate T r = Ok content /\
                     page_context r content sorted = JObj fields /\
                     assoc "recipes" fields = Some (JArr sorted) /\
                     layoutTemplate T (JObj fields) = Ok (snd pg) /\
                     page_name r = Ok name /\
                     fst pg = path_join publicDir name) sorted pages /\
        indexTemplate T (JObj []) = Ok indexContent /\
        (exists fields,
           index_context indexContent sorted = JObj fields /\
           assoc "recipes" fields = Some (JArr sorted) /\
           layoutTemplate T (JObj fields) = Ok indexHtml) /\
        kind_at indexPath (fs w2) = KFile indexHtml /\
        forall p, p <> indexPath ->
          kind_at p (fs w2) =
          match last_page p pages with
          | Some html => KFile html
          | None => kind_at p (fs w1)
          end.
Proof.
  intros Hcons Hl Hh.
  destruct (load_inv _ _ _ _ Hl) as (_ & _ & es & Hes & _ & Hloaded).
  destruct (load_spec _ _ _ Hl) as (_ & Ho & _ & Hok).
  destruct (Hok eq_refl) as [_ Hframe].
  exists es, (sorted_by_headline loaded).
  pose proof (sorted_by_headline_perm loaded) as Hperm.
  split; [|split; [|split; [|split; [|split; [|split; [|split]]]]]].
  - rewrite <- Hes. symmetry. rewrite <- (app_nil_r recipesDir).
    apply Hframe, recipes_diverge.
  - rewrite Hloaded, Ho. apply map_ext. intros name. unfold record_of.
    now rewrite (record_at_frame _ _ name Hframe).
  - now apply array_sort_pure.
  - exact Hperm.
  - apply StronglySorted_impl with (R := lc_le);
      [|now apply sorted_by_headline_sorted].
    assert (Hall : Forall has_headline (sorted_by_headline loaded))
      by (eapply Permutation_Forall; eauto).
    rewrite Forall_forall in Hall.
    intros a b Ha Hb. apply lc_le_headline_le; auto.
  - intros z. now apply sorted_by_headline_stable.
  - rewrite (generateSite_after_load _ _ _ _ Hl).
    now rewrite (array_sort_pure _ Hh).
  - intros w2 Hr.
    destruct (render_pages _ _ _ _ Hr) as (pages & indexHtml & HF & Hip & Hik & Hk).
    unfold index_page in Hip.
    destruct (indexTemplate T (JObj [])) as [indexContent|e] eqn:Eic;
      [|discriminate]. simpl in Hip.
    exists pages, indexContent, indexHtml.
    split; [|split; [reflexivity|split; [|split; assumption]]].
    + eapply Forall2_impl; [|exact HF]. intros r [q html]. unfold page_of.
      destruct (recipeTemplate T r) as [content|e] eqn:Ec; [|discriminate].
      simpl.
      destruct (layoutTemplate T (page_context r content _)) as [h|e] eqn:El;
        [|discriminate]. simpl.
      destruct (page_name r) as [name|e] eqn:En; [|discriminate]. simpl.
      intros [= <- <-]. exists content, name. eexists.
      split; [reflexivity|]. split; [reflexivity|].
      split; [apply assoc_set_same|]. auto.
    + eexists. split; [reflexivity|]. split; [reflexivity|exact Hip].
Qed.

Lemma generateSite_load_throw w e w1 :
  load w = (Throw e, w1) ->
  generateSite w = {| exit_code := 1; final := with_line (LogError e) w1 |}.
Proof.
  intros Hl. unfold generateSite, generateSite_try, bind at 1. now rewrite Hl.
Qed.

Lemma recipesDir_frame t t' :
  (forall q, diverge q publicDir -> lookup q t' = lookup q t) ->
  lookup recipesDir t' = lookup recipesDir t.
Proof.
  intros H. rewrite <- (app_nil_r recipesDir). apply H, recipes_diverge.
Qed.

(** C9, as the code has it: in a collection of fewer than 64 records (the
    length up to which the engine sorts by insertion, every record after
    the first being the receiver of a comparison), the sort throws when a
    record other than the first loaded has no string headline; the error
    is caught, the build ends with status 1, and the output directory is
    still empty.  When every record has a string headline the sort
    returns, whatever the length. *)
Theorem missing_headline_aborts_sort w T loaded w1 :
  load w = (Ok (T, loaded), w1) ->
  (length loaded < 64 ->
   Exists (fun r => headline_of r = None) (tl loaded) ->
   exit_code (generateSite w) = 1%Z /\
   (exists e, array_sort compare_headlines loaded = Throw e /\
              final (generateSite w) = with_line (LogError e) w1) /\
   console w1 = console w /\
   lookup publicDir (fs (final (generateSite w))) = Some (Dir [])) /\
  (Forall has_headline loaded ->
   exists sorted, array_sort compare_headlines loaded = Ok sorted).
Proof.
  intros Hl. split.
  - intros _ Hex. destruct loaded as [|r0 rest]; [inversion Hex|]. simpl in Hex.
    destruct (array_sort_throw r0 rest Hex) as [e He].
    rewrite (generateSite_after_load _ _ _ _ Hl), He. simpl.
    destruct (load_spec _ _ _ Hl) as (Hc & _ & _ & Hok).
    destruct (Hok eq_refl) as [Hempty _].
    split; [reflexivity|]. split; [eauto|]. split; assumption.
  - intros Hall. eexists. now apply array_sort_pure.
Qed.

(** C3: a successful load yields one record per directory entry whose
    name ends in [.jsonld], whatever else the directory holds; and a build
    that succeeds renders one page per record and writes each to its
    file: at the end of the build a page file stands at the path of every
    record's page (unless a manifest asset of that name replaced it),
    holding a page written there or the index page; the console reports
    that many recipe pages, plus the index page. *)
Theorem one_record_per_data_file w T loaded w1 es :
  load w = (Ok (T, loaded), w1) ->
  lookup recipesDir (fs w) = Some (Dir es) ->
  Permutation (map fst es) (readdir_order w recipesDir (map fst es)) ->
  length loaded =
    length (filter (fun name => endsWith name ".jsonld") (map fst es)) /\
  (exit_code (generateSite w) = 0%Z ->
   exists sorted pages,
     array_sort compare_headlines loaded = Ok sorted /\
     Forall2 (fun r pg => page_of T sorted r = Ok pg) sorted pages /\
     length pages = length loaded /\
     (forall file html, In (file, html) pages ->
        (forall asset, In asset assetsToCopy -> file <> child publicDir asset) ->
        exists html',
          kind_at file (fs (final (generateSite w))) = KFile html' /\
          (file = indexPath \/ In (file, html') pages)) /\
     exists lines,
       console (final (generateSite w)) = console w ++ lines /\
       length (filter is_generated lines) = S (length loaded)).
Proof.
  intros Hl Hes Hperm.
  destruct (load_inv _ _ _ _ Hl) as (_ & _ & es1 & Hes1 & _ & Hloaded).
  destruct (load_spec _ _ _ Hl) as (Hc & Ho & _ & Hok).
  destruct (Hok eq_refl) as [Hempty Hframe].
  rewrite (recipesDir_frame _ _ Hframe), Hes in Hes1. injection Hes1 as <-.
  split.
  - rewrite Hloaded, length_map, Ho.
    apply Permutation_length, Permutation_sym.
    apply (filter_Permutation is_data_file).
    rewrite <- sort_names_perm. exact Hperm.
  - rewrite (generateSite_after_load _ _ _ _ Hl).
    destruct (array_sort compare_headlines loaded) as [sorted|e] eqn:Es;
      [|discriminate].
    unfold bind.
    destruct (render T sorted w1) as [[[]|e] w2] eqn:Er.
    2:{ simpl. discriminate. }
    destruct (render_spec _ _ _ _ _ (pages_only_empty _ Hempty) Er)
      as (Hinv & _ & l1 & Hl1 & Hg1 & Hn1).
    destruct (render_pages _ _ _ _ Er) as (pages & indexHtml & HF & _ & Hik & Hk).
    destruct (copy_static w2) as [[[]|e] w3] eqn:Ecs.
    2:{ simpl. discriminate. }
    destruct (copy_static_spec _ _ _ Hinv Ecs)
      as (_ & _ & (l2 & Hl2 & Hg2) & Hother & _).
    intros _. simpl. exists sorted, pages.
    pose proof (array_sort_length _ _ _ Es) as Hlen.
    split; [reflexivity|]. split; [exact HF|].
    split; [rewrite <- (Forall2_length HF); exact Hlen|]. split.
    + intros file html Hin Hna.
      destruct (last_page_some _ _ _ Hin) as (h & Hlast & Hh).
      assert (Hw2 : exists html',
                kind_at file (fs w2) = KFile html' /\
                (file = indexPath \/ In (file, html') pages)).
      { destruct (list_eq_dec string_dec file indexPath) as [->|Hne].
        - exists indexHtml. auto.
        - exists h. rewrite (Hk file Hne), Hlast. auto. }
      destruct Hw2 as (html' & Hkind & Hwhich).
      exists html'. split; [|exact Hwhich].
      rewrite <- Hkind. unfold kind_at.
      destruct (file_place _ _ _ Hinv Hkind) as [Hd|[name ->]].
      * now rewrite (copy_static_frame _ _ _ Hinv Ecs _ Hd).
      * rewrite Hother; [reflexivity| |].
        -- intros ->. destruct Hinv as (_ & _ & Hni).
           fold publicImagesDir in Hkind. rewrite Hni in Hkind. discriminate.
        -- intros Ha. now apply (Hna name Ha).
    + exists (l1 ++ l2).
      split; [rewrite Hl2, Hl1, Hc; now rewrite app_assoc|].
      rewrite filter_app, (filter_all _ _ Hg1), (filter_none _ _ Hg2), app_nil_r.
      rewrite (Hn1 eq_refl). f_equal. exact Hlen.
Qed.

(** C4: when a data file with the recognized extension holds malformed
    content, the build ends with status 1 and one error line; nothing is
    written: either the world is untouched, or the output directory has
    been emptied, is still empty, and everything beside it is as it was. *)
Theorem malformed_data_aborts w es name data :
  lookup recipesDir (fs w) = Some (Dir es) ->
  In name (readdir_order w recipesDir (map fst es)) ->
  endsWith name ".jsonld" = true ->
  assoc name es = Some (File data) ->
  JSON_parse data = None ->
  exit_code (generateSite w) = 1%Z /\
  (exists e, console (final (generateSite w)) = console w ++ [LogError e]) /\
  (fs (final (generateSite w)) = fs w \/
   lookup publicDir (fs (final (generateSite w))) = Some (Dir []) /\
   forall q, diverge q publicDir ->
     lookup q (fs (final (generateSite w))) = lookup q (fs w)).
Proof.
  intros Hes Hin Hext Hfile Hbad.
  destruct (load w) as [[[T loaded]|e] w1] eqn:Hl.
  - exfalso.
    destruct (load_inv _ _ _ _ Hl) as (_ & _ & es1 & Hes1 & Hall & _).
    destruct (load_spec _ _ _ Hl) as (_ & Ho & _ & Hok).
    destruct (Hok eq_refl) as [_ Hframe].
    rewrite (recipesDir_frame _ _ Hframe), Hes in Hes1. injection Hes1 as <-.
    rewrite Ho in Hall. rewrite Forall_forall in Hall.
    assert (Hbadrec : record_at (fs w1) name = Throw SyntaxError).
    { rewrite (record_at_frame _ _ name Hframe). unfold record_at.
      now rewrite (lookup_child _ name _ _ Hes), Hfile, Hbad. }
    specialize (Hall name). rewrite Hbadrec in Hall.
    assert (Hf : In name (filter is_data_file
                            (sort_names
                               (readdir_order w recipesDir (map fst es))))).
    { apply filter_In. split; [now apply sort_names_In|exact Hext]. }
    specialize (Hall Hf). discriminate.
  - rewrite (generateSite_load_throw _ _ _ Hl). simpl.
    destruct (load_spec _ _ _ Hl) as (Hc & _ & Hfs & _).
    split; [reflexivity|]. split; [exists e; now rewrite Hc|exact Hfs].
Qed.

(** C5: once the build reaches the asset-copy step, with the manifest
    assets found at the source root being files and the images source
    listable, the build ends with status 0, and for every manifest name:
    an asset present at the source root is at the output root, the same
    node, and its success line is logged; an absent one has its warning
    logged. *)
Theorem manifest_assets_copied w w2 :
  reaches_copy_static w w2 ->
  assets_are_files (fs w2) ->
  images_listable w2 ->
  exit_code (generateSite w) = 0%Z /\
  forall asset, In asset assetsToCopy ->
    match lookup (child rootDir asset) (fs w2) with
    | Some n =>
        lookup (child publicDir asset) (fs (final (generateSite w))) = Some n /\
        In (Log ("Copied: " ++ asset)) (console (final (generateSite w)))
    | None =>
        In (Warn ("Asset not found, skipped: " ++ asset))
          (console (final (generateSite w)))
    end.
Proof.
  intros Hreach Hfiles Hlist.
  destruct (reaches_spec _ _ Hreach) as (Hinv & _ & ->).
  destruct (copy_static w2) as [r w3] eqn:Ecs.
  destruct (copy_static_spec _ _ _ Hinv Ecs) as (_ & _ & _ & _ & Hok).
  destruct (Hok Hfiles Hlist) as (-> & Hassets & _).
  simpl. split; [reflexivity|exact Hassets].
Qed.

(** C7: once the build reaches the asset-copy step (manifest assets being
    files, the images source listable), [public/images] is created empty
    first; then, if the images source directory exists, every entry of it
    is at the same name under [public/images], the same node, with its
    line logged; if it does not exist, the warning is logged.  Either way
    the build ends with status 0. *)
Theorem images_folder_copied w w2 :
  reaches_copy_static w w2 ->
  assets_are_files (fs w2) ->
  images_listable w2 ->
  (exists t, ensureDir publicImagesDir w2 = (Ok tt, with_fs t w2) /\
             lookup publicImagesDir t = Some (Dir [])) /\
  exit_code (generateSite w) = 0%Z /\
  (forall ies, lookup imagesDir (fs w2) = Some (Dir ies) ->
     forall name n, assoc name ies = Some n ->
       lookup (child publicImagesDir name) (fs (final (generateSite w))) = Some n /\
       In (Log ("Copied image: images/" ++ name))
         (console (final (generateSite w)))) /\
  (lookup imagesDir (fs w2) = None ->
   In (Warn images_warning) (console (final (generateSite w)))).
Proof.
  intros Hreach Hfiles Hlist.
  destruct (reaches_spec _ _ Hreach) as (Hinv & _ & ->).
  split.
  { destruct (ensureDir_images w2 Hinv) as (t & He & Hl & _). eauto. }
  destruct (copy_static w2) as [r w3] eqn:Ecs.
  destruct (copy_static_spec _ _ _ Hinv Ecs) as (_ & _ & _ & _ & Hok).
  destruct (Hok Hfiles Hlist) as (-> & _ & Hwarn & Himgs).
  simpl. split; [reflexivity|]. split; [exact Himgs|exact Hwarn].
Qed.

(** C10: on every build that reaches the asset-copy step, however that
    step goes on, the output directory ends with an [images]
    subdirectory, and with an empty one when the images source does not
    exist. *)
Theorem images_dir_always_created w w2 :
  reaches_copy_static w w2 ->
  exists entries,
    lookup publicImagesDir (fs (final (generateSite w))) = Some (Dir entries) /\
    (lookup imagesDir (fs w2) = None -> entries = []).
Proof.
  intros Hreach.
  destruct (reaches_spec _ _ Hreach) as (Hinv & _ & ->).
  destruct (copy_static w2) as [r w3] eqn:Ecs.
  destruct (copy_static_spec _ _ _ Hinv Ecs) as ((acc & Hacc & Hnil) & _).
  exists acc. split; [|exact Hnil].
  destruct r as [[]|e]; exact Hacc.
Qed.


Lemma template_diverge name :
  diverge (child templatesDir name) publicDir.
Proof.
  unfold templatesDir, publicDir, child. rewrite <- app_assoc. simpl.
  apply diverge_at. discriminate.
Qed.



Lemma with_order_same_files o w :
  (forall p names, Permutation (readdir_order w p names) (o p names)) ->
  same_files w (with_order o w).
Proof. intros H. split; [reflexivity|exact H]. Qed.

(** What follows the clearing of the output directory only rewrites that
    directory, when no page leaves it. *)
Lemma after_emptyDir_inside w w0 r w3 :
  emptyDir publicDir w = (Ok tt, w0) ->
  (forall T loaded w1,
     load w = (Ok (T, loaded), w1) -> Forall stays_in_output loaded) ->
  after_emptyDir w0 = (r, w3) ->
  lookup publicDir (fs w0) = Some (Dir []) /\
  rewrites_output (fs w0) (fs w3).
Proof.
  intros He Hstay.
  destruct (emptyDir_spec _ _ _ _ He) as (_ & _ & [[[e Habs] _]|(_ & Hpub & _)]);
    [discriminate|].
  assert (Hsame : rewrites_output (fs w0) (fs w0))
    by (eapply rewrites_output_refl; eauto).
  intros H. split; [exact Hpub|]. revert H.
  unfold after_emptyDir. unfold bind at 1.
  destruct (read_templates w0) as [[T|e] w0'] eqn:Et;
    pose proof (read_templates_world _ _ _ Et) as ->;
    [|intros [= _ <-]; exact Hsame].
  unfold bind at 1.
  destruct (readdir recipesDir w0) as [[files|e] w0'] eqn:Erd;
    pose proof (readdir_world _ _ _ _ Erd) as ->;
    [|intros [= _ <-]; exact Hsame].
  unfold bind at 1.
  destruct (read_recipes files [] w0) as [[loaded|e] w0'] eqn:Err;
    pose proof (read_recipes_world _ _ _ _ _ Err) as ->;
    [|intros [= _ <-]; exact Hsame].
  assert (Hl : load w = (Ok (T, loaded), w0)).
  { unfold load, bind. now rewrite He, Et, Erd, Err. }
  pose proof (Hstay _ _ _ Hl) as Hall.
  unfold bind at 1, ret at 1. simpl fst. simpl snd.
  unfold bind at 1, lift at 1.
  destruct (array_sort compare_headlines loaded) as [sorted|e] eqn:Es;
    [|intros [= _ <-]; exact Hsame].
  assert (Hall' : Forall stays_in_output sorted).
  { eapply Permutation_Forall; [|exact Hall].
    apply (sort_from_perm _ _ _ _ Es). }
  unfold bind at 1.
  destruct (render T sorted w0) as [[[]|e] w2] eqn:Er.
  - pose proof (render_inside _ _ _ _ _ _ Hpub Hall' Er) as H2.
    destruct (rewrites_output_dir _ _ H2) as [es2 Hd2]. intros H.
    eapply rewrites_output_trans; [exact H2|].
    eapply copy_static_inside; eauto.
  - intros [= _ <-]. eapply render_inside; eauto.
Qed.

(** A build none of whose pages leaves the output directory leaves the
    sources as they were. *)
Lemma pages_inside_leave_sources w :
  (forall T loaded w1,
     load w = (Ok (T, loaded), w1) -> Forall stays_in_output loaded) ->
  leaves_sources w.
Proof.
  intros Hstay w0 He. unfold generateSite.
  rewrite generateSite_try_steps. unfold bind. rewrite He.
  destruct (after_emptyDir w0) as [r w3] eqn:Ea.
  rewrite settle_fs.
  now destruct (after_emptyDir_inside _ _ _ _ He Hstay Ea).
Qed.

(** C8: a second build, run on what the first build left, ends with the
    same status and leaves exactly the same tree, the output directory
    with its pages, its index page and its copied assets included; and
    so does a build of the same files for which the operating system
    enumerates the directories in another order.  That the data files,
    templates and assets are unchanged between the two runs is the
    premise [leaves_sources]: the first build changed nothing beside the
    output directory, which is so whenever no slug leads out of it. *)
Theorem rebuild_identical w o :
  (forall p names, Permutation (readdir_order w p names) (o p names)) ->
  leaves_sources w ->
  (exit_code (generateSite (with_order o w)) = exit_code (generateSite w) /\
   fs (final (generateSite (with_order o w))) = fs (final (generateSite w))) /\
  (exit_code (generateSite (with_order o (final (generateSite w))))
   = exit_code (generateSite w) /\
   fs (final (generateSite (with_order o (final (generateSite w)))))
   = fs (final (generateSite w))).
Proof.
  intros Hperm Hleaves. split.
  { apply generateSite_same_files. now apply with_order_same_files. }
  destruct (emptyDir publicDir w) as [[[]|e] w0] eqn:He.
  - (* the output directory is cleared; the first build rewrites it only *)
    pose proof (Hleaves w0 He) as Hin.
    destruct (emptyDir_spec _ _ _ _ He)
      as (_ & Ho & [[[e Habs] _]|(_ & Hpub & _)]); [discriminate|].
    destruct (rewrites_output_dir _ _ Hin) as [es3 Hd3].
    pose proof (rewrites_output_emptied _ _ Hpub Hin) as Hput.
    assert (Hfirst : generateSite w = settle (after_emptyDir w0)).
    { unfold generateSite. rewrite generateSite_try_steps. unfold bind.
      now rewrite He. }
    remember (generateSite w) as first eqn:Ef. clear Ef.
    assert (Hsecond : same_files w0
              (with_fs (fs w0) (with_order o (final first)))).
    { split; [reflexivity|]. intros p names. simpl. rewrite Ho. apply Hperm. }
    assert (He2 : emptyDir publicDir (with_order o (final first))
                  = (Ok tt, with_fs (fs w0) (with_order o (final first)))).
    { unfold emptyDir. simpl fs. rewrite Hd3, Hput. reflexivity. }
    assert (H2 : generateSite (with_order o (final first))
                 = settle (after_emptyDir
                             (with_fs (fs w0) (with_order o (final first))))).
    { unfold generateSite. rewrite generateSite_try_steps. unfold bind.
      now rewrite He2. }
    rewrite H2.
    destruct (respects_after_emptyDir _ _ Hsecond) as [Hr Hs].
    destruct (after_emptyDir w0) as [r w3].
    destruct (after_emptyDir (with_fs (fs w0) (with_order o (final first))))
      as [r' w3'].
    simpl in Hr, Hs. rewrite Hfirst. now apply settle_same.
  - (* the output directory cannot be cleared: nothing is touched *)
    destruct (emptyDir_spec _ _ _ _ He) as (_ & _ & [[_ ->]|[Habs _]]);
      [|discriminate].
    assert (Hfirst : generateSite w = settle (Throw e, w)).
    { unfold generateSite. rewrite generateSite_try_steps. unfold bind.
      now rewrite He. }
    assert (Hsame : same_files w (with_order o (final (generateSite w)))).
    { split; [rewrite Hfirst; reflexivity|exact Hperm]. }
    apply (generateSite_same_files _ _ Hsame).
Qed.

End BuildFacts.

(** * The claims on the demo worlds *)

Lemma demo_compare_flip s t : (demo_compare s t < 0 <-> 0 < demo_compare t s)%Z.
Proof.
  revert t. induction s as [|a s IH]; intros [|b t]; simpl; try lia.
  destruct (Z.eqb_spec (Z.of_nat (nat_of_ascii a) - Z.of_nat (nat_of_ascii b)) 0);
    destruct (Z.eqb_spec (Z.of_nat (nat_of_ascii b) - Z.of_nat (nat_of_ascii a)) 0);
    try lia.
  apply IH.
Qed.

Lemma demo_compare_trans s t u :
  (demo_compare s t <= 0 -> demo_compare t u <= 0 -> demo_compare s u <= 0)%Z.
Proof.
  revert t u. induction s as [|a s IH]; intros [|b t] [|c u]; simpl; try lia.
  destruct (Z.eqb_spec (Z.of_nat (nat_of_ascii a) - Z.of_nat (nat_of_ascii b)) 0);
    destruct (Z.eqb_spec (Z.of_nat (nat_of_ascii b) - Z.of_nat (nat_of_ascii c)) 0);
    destruct (Z.eqb_spec (Z.of_nat (nat_of_ascii a) - Z.of_nat (nat_of_ascii c)) 0);
    try lia.
  apply IH.
Qed.

Lemma demo_consistent : consistent demo_compare.
Proof. split; [apply demo_compare_flip|apply demo_compare_trans]. Qed.

Ltac copy_ready :=
  eexists; split; [|split];
  [ eexists _, _, _, _; split; [vm_compute; reflexivity|];
    split; vm_compute; reflexivity
  | let Hin := fresh "Hin" in
    intros asset n Hin; simpl in Hin;
    repeat (destruct Hin as [<-|Hin];
            [vm_compute; let E := fresh "E" in
             intros E; try discriminate E; injection E as <-; reflexivity|]);
    contradiction
  | split;
    [ intros data; vm_compute; discriminate
    | let H := fresh "H" in
      intros es H; vm_compute in H;
      first [ discriminate H
            | injection H as <-;
              split; [repeat constructor; simpl; intuition discriminate
                     |apply Permutation_refl] ] ] ].

(** The asset-copy step is reached on the pantry, with a manifest of
    files and listable images. *)
Lemma pantry_copy_ready :
  exists w2,
    @reaches_copy_static demo_runtime pantry w2 /\
    @assets_are_files demo_runtime (fs w2) /\
    @images_listable demo_runtime w2.
Proof. copy_ready. Qed.

(** The same without an images directory; there the images source is
    absent when the step starts. *)
Lemma imageless_copy_ready :
  exists w2,
    (@reaches_copy_static demo_runtime imageless w2 /\
     @assets_are_files demo_runtime (fs w2) /\
     @images_listable demo_runtime w2) /\
    lookup (@imagesDir demo_runtime) (fs w2) = None.
Proof.
  assert (H : exists w2,
            @reaches_copy_static demo_runtime imageless w2 /\
            @assets_are_files demo_runtime (fs w2) /\
            @images_listable demo_runtime w2).
  { copy_ready. }
  destruct H as (w2 & Hr & Ha & Hi). exists w2. split; [auto|].
  destruct Hr as (T & loaded & w1 & sorted & Hl & Hs & Hr).
  vm_compute in Hl. injection Hl as <- <- <-.
  vm_compute in Hs. injection Hs as <-.
  vm_compute in Hr. injection Hr as <-. reflexivity.
Qed.

(** A record that brings its own [pageTitle] and a stale [body]. *)
Lemma layout_context_witness :
  let T := {| layoutTemplate := demo_render "layout";
              recipeTemplate := demo_render "recipe";
              indexTemplate := demo_render "index" |} in
  let r := JObj [("slug", JStr "crumpets"); ("pageTitle", JStr "Tea");
                 ("body", JStr "stale")] in
  let w := final (@generateSite demo_runtime bare) in
  (exists fields,
     page_context r "recipe|Tea|stale|" [r] = JObj fields /\
     assoc "pageTitle" fields = Some (JStr "Tea") /\
     assoc "body" fields = Some (JStr "recipe|Tea|stale|") /\
     assoc "recipes" fields = Some (JArr [r])) /\
  fst (@generate_pages demo_runtime T [r] [r] w) = Ok tt /\
  (exists fields,
     index_context "index|||" [r] = JObj fields /\
     assoc "pageTitle" fields = Some (JStr indexTitle)) /\
  fst (@generate_index demo_runtime T [r] w) = Ok tt.
Proof.
  intros T r w.
  destruct (@layout_context_precedence demo_runtime T r "recipe|Tea|stale|"
              [r] [] w)
    as ((fields & Hf & Hbody & Hrecipes & _ & Htitle & _) & Hstep & Hindex & Histep).
  destruct (Hindex "index|||") as (ifields & Hif & Hit & _).
  split; [|split; [|split]].
  - exists fields. rewrite Htitle. auto.
  - rewrite (Hstep eq_refl). vm_compute. reflexivity.
  - exists ifields. auto.
  - rewrite (Histep "index|||" eq_refl). vm_compute. reflexivity.
Defined.

(** The pantry: the records are loaded in the order of their file names
    (apple, berry, crumpets) and rendered in the order of their
    headlines, the crumpets first and the two pies in the order they
    were loaded; the three pages and the index page have that list as
    their navigation. *)
Lemma navigation_sorted_witness :
  exists sorted pages indexContent indexHtml,
    @load demo_runtime pantry
    = (Ok (demo_templates, [apple_record; berry_record; crumpets_record]),
       snd (@load demo_runtime pantry)) /\
    array_sort (@compare_headlines demo_runtime)
      [apple_record; berry_record; crumpets_record] = Ok sorted /\
    sorted = [crumpets_record; apple_record; berry_record] /\
    StronglySorted (@headline_le demo_runtime) sorted /\
    Forall2 (fun r pg =>
               exists content name fields,
                 recipeTemplate demo_templates r = Ok content /\
                 page_context r content sorted = JObj fields /\
                 assoc "recipes" fields = Some (JArr sorted) /\
                 layoutTemplate demo_templates (JObj fields) = Ok (snd pg) /\
                 page_name r = Ok name /\
                 fst pg = path_join (@publicDir demo_runtime) name)
      sorted pages /\
    indexTemplate demo_templates (JObj []) = Ok indexContent /\
    (exists fields,
       index_context indexContent sorted = JObj fields /\
       assoc "recipes" fields = Some (JArr sorted) /\
       layoutTemplate demo_templates (JObj fields) = Ok indexHtml) /\
    kind_at (@indexPath demo_runtime)
      (fs (snd (@render demo_runtime demo_templates sorted
                  (snd (@load demo_runtime pantry)))))
    = KFile indexHtml.
Proof.
  assert (Hl : @load demo_runtime pantry
               = (Ok (demo_templates,
                      [apple_record; berry_record; crumpets_record]),
                  snd (@load demo_runtime pantry)))
    by (vm_compute; reflexivity).
  assert (Hh : Forall has_headline [apple_record; berry_record; crumpets_record])
    by (repeat constructor; discriminate).
  destruct (@navigation_sorted_by_headline demo_runtime pantry _ _ _
              demo_consistent Hl Hh)
    as (es & sorted & _ & _ & Hs & _ & Hsorted & _ & _ & Hpages).
  assert (Hv : sorted = [crumpets_record; apple_record; berry_record]).
  { vm_compute in Hs. now injection Hs as <-. }
  destruct (Hpages (snd (@render demo_runtime demo_templates sorted
                           (snd (@load demo_runtime pantry)))))
    as (pages & indexContent & indexHtml & HF & Hic & Hih & Hik & _).
  { rewrite Hv. vm_compute. reflexivity. }
  exists sorted, pages, indexContent, indexHtml. auto 10.
Defined.

(** The pantry: four entries, three data files, three records, three
    recipe pages on disk, and four pages reported with the index page. *)
Lemma one_record_per_data_file_witness :
  length [apple_record; berry_record; crumpets_record] = 3 /\
  exists sorted pages,
    array_sort (@compare_headlines demo_runtime)
      [apple_record; berry_record; crumpets_record] = Ok sorted /\
    Forall2 (fun r pg => @page_of demo_runtime demo_templates sorted r = Ok pg)
      sorted pages /\
    length pages = 3 /\
    (forall file html, In (file, html) pages ->
       (forall asset, In asset assetsToCopy ->
          file <> child (@publicDir demo_runtime) asset) ->
       exists html',
         kind_at file (fs (final (@generateSite demo_runtime pantry)))
         = KFile html' /\
         (file = @indexPath demo_runtime \/ In (file, html') pages)) /\
    exists lines,
      console (final (@generateSite demo_runtime pantry)) = console pantry ++ lines /\
      length (filter is_generated lines) = 4.
Proof.
  assert (Hl : @load demo_runtime pantry
               = (Ok (demo_templates,
                      [apple_record; berry_record; crumpets_record]),
                  snd (@load demo_runtime pantry)))
    by (vm_compute; reflexivity).
  destruct (@one_record_per_data_file demo_runtime pantry _ _ _
              [notes_file; crumpets_file; apple_file; berry_file]
              Hl eq_refl (Permutation_refl _)) as [Hn Hpages].
  split; [reflexivity|]. apply Hpages. vm_compute. reflexivity.
Defined.

(** A truncated data file aborts the build. *)
Lemma malformed_data_witness :
  exit_code (@generateSite demo_runtime spoiled) = 1%Z /\
  (exists e, console (final (@generateSite demo_runtime spoiled))
             = console spoiled ++ [LogError e]) /\
  (fs (final (@generateSite demo_runtime spoiled)) = fs spoiled \/
   lookup (@publicDir demo_runtime) (fs (final (@generateSite demo_runtime spoiled)))
     = Some (Dir []) /\
   forall q, diverge q (@publicDir demo_runtime) ->
     lookup q (fs (final (@generateSite demo_runtime spoiled)))
     = lookup q (fs spoiled)).
Proof.
  apply (@malformed_data_aborts demo_runtime spoiled
           [apple_file; broken_file] "broken.jsonld" "{slug:").
  - reflexivity.
  - simpl. auto.
  - reflexivity.
  - reflexivity.
  - reflexivity.
Defined.

(** The manifest on the pantry: two assets present, nine absent. *)
Lemma manifest_assets_witness :
  exists w2,
    @reaches_copy_static demo_runtime pantry w2 /\
    @assets_are_files demo_runtime (fs w2) /\
    @images_listable demo_runtime w2 /\
    exit_code (@generateSite demo_runtime pantry) = 0%Z /\
    forall asset, In asset (@assetsToCopy) ->
      match lookup (child (@rootDir demo_runtime) asset) (fs w2) with
      | Some n =>
          lookup (child (@publicDir demo_runtime) asset)
            (fs (final (@generateSite demo_runtime pantry))) = Some n /\
          In (Log ("Copied: " ++ asset))
            (console (final (@generateSite demo_runtime pantry)))
      | None =>
          In (Warn ("Asset not found, skipped: " ++ asset))
            (console (final (@generateSite demo_runtime pantry)))
      end.
Proof.
  destruct pantry_copy_ready as (w2 & Hr & Ha & Hi).
  exists w2. split; [exact Hr|]. split; [exact Ha|]. split; [exact Hi|].
  exact (@manifest_assets_copied demo_runtime pantry w2 Hr Ha Hi).
Defined.



(** The images of the pantry, and a project without images. *)
Lemma images_folder_witness :
  (exists w2,
     @reaches_copy_static demo_runtime pantry w2 /\
     @assets_are_files demo_runtime (fs w2) /\
     @images_listable demo_runtime w2 /\
     (exists t, ensureDir (@publicImagesDir demo_runtime) w2 = (Ok tt, with_fs t w2) /\
                lookup (@publicImagesDir demo_runtime) t = Some (Dir [])) /\
     exit_code (@generateSite demo_runtime pantry) = 0%Z /\
     (forall ies, lookup (@imagesDir demo_runtime) (fs w2) = Some (Dir ies) ->
        forall name n, assoc name ies = Some n ->
          lookup (child (@publicImagesDir demo_runtime) name)
            (fs (final (@generateSite demo_runtime pantry))) = Some n /\
          In (Log ("Copied image: images/" ++ name))
            (console (final (@generateSite demo_runtime pantry))))) /\
  (exists w2,
     @reaches_copy_static demo_runtime imageless w2 /\
     lookup (@imagesDir demo_runtime) (fs w2) = None /\
     exit_code (@generateSite demo_runtime imageless) = 0%Z /\
     In (Warn images_warning)
       (console (final (@generateSite demo_runtime imageless)))).
Proof.
  split.
  - destruct pantry_copy_ready as (w2 & Hr & Ha & Hi).
    destruct (@images_folder_copied demo_runtime pantry w2 Hr Ha Hi)
      as (Hdir & He & Hcopied & _).
    exists w2. auto 10.
  - destruct imageless_copy_ready as (w2 & (Hr & Ha & Hi) & Hno).
    destruct (@images_folder_copied demo_runtime imageless w2 Hr Ha Hi)
      as (_ & He & _ & Hwarn).
    exists w2. auto.
Defined.

(** The images directory of the pantry output, and of the output of a
    project without images. *)
Lemma images_dir_witness :
  (exists w2,
     @reaches_copy_static demo_runtime pantry w2 /\
     exists entries,
       lookup (@publicImagesDir demo_runtime)
         (fs (final (@generateSite demo_runtime pantry))) = Some (Dir entries)) /\
  (exists w2,
     @reaches_copy_static demo_runtime imageless w2 /\
     lookup (@imagesDir demo_runtime) (fs w2) = None /\
     lookup (@publicImagesDir demo_runtime)
       (fs (final (@generateSite demo_runtime imageless))) = Some (Dir [])).
Proof.
  split.
  - destruct pantry_copy_ready as (w2 & Hr & _).
    destruct (@images_dir_always_created demo_runtime pantry w2 Hr)
      as (entries & He & _).
    exists w2. eauto.
  - destruct imageless_copy_ready as (w2 & (Hr & _) & Hno).
    destruct (@images_dir_always_created demo_runtime imageless w2 Hr)
      as (entries & He & Hnil).
    rewrite (Hnil Hno) in He. exists w2. auto.
Defined.

Lemma reversed_is_permutation p names :
  Permutation (readdir_order pantry p names) (recipes_reversed p names).
Proof.
  simpl. unfold in_stored_order, recipes_reversed.
  destruct (list_eq_dec string_dec _ _);
    [apply Permutation_rev|apply Permutation_refl].
Qed.

(** The pages of the pantry go into the output directory, so its build
    touches nothing else. *)
Lemma pantry_leaves_sources : @leaves_sources demo_runtime pantry.
Proof.
  apply pages_inside_leave_sources. intros T loaded w1 Hl.
  vm_compute in Hl. injection Hl as _ <- _.
  repeat constructor; intros name E; vm_compute in E; injection E as <-;
    eexists; vm_compute; reflexivity.
Qed.

(** The pantry built, and built again on what the first build left, the
    data directory being enumerated backwards the second time. *)
Lemma rebuild_identical_witness :
  (exit_code (@generateSite demo_runtime (with_order recipes_reversed pantry))
   = exit_code (@generateSite demo_runtime pantry) /\
   fs (final (@generateSite demo_runtime (with_order recipes_reversed pantry)))
   = fs (final (@generateSite demo_runtime pantry))) /\
  (exit_code (@generateSite demo_runtime
                (with_order recipes_reversed
                   (final (@generateSite demo_runtime pantry))))
   = exit_code (@generateSite demo_runtime pantry) /\
   fs (final (@generateSite demo_runtime
                (with_order recipes_reversed
                   (final (@generateSite demo_runtime pantry)))))
   = fs (final (@generateSite demo_runtime pantry))).
Proof.
  exact (@rebuild_identical demo_runtime pantry recipes_reversed
           reversed_is_permutation pantry_leaves_sources).
Defined.

(** A record without a headline after a first record; and the pantry,
    where every record has one. *)
Lemma missing_headline_witness :
  (exists T loaded w1,
     @load demo_runtime late_untitled = (Ok (T, loaded), w1) /\
     Exists (fun r => headline_of r = None) (tl loaded) /\
     exit_code (@generateSite demo_runtime late_untitled) = 1%Z /\
     lookup (@publicDir demo_runtime)
       (fs (final (@generateSite demo_runtime late_untitled))) = Some (Dir [])) /\
  (exists T loaded w1 sorted,
     @load demo_runtime pantry = (Ok (T, loaded), w1) /\
     Forall has_headline loaded /\
     array_sort (@compare_headlines demo_runtime) loaded = Ok sorted).
Proof.
  split.
  - assert (Hl : exists T loaded w1,
               @load demo_runtime late_untitled = (Ok (T, loaded), w1) /\
               length loaded < 64 /\
               Exists (fun r => headline_of r = None) (tl loaded)).
    { eexists _, _, _. split; [vm_compute; reflexivity|].
      split; [simpl; lia|]. simpl. left. reflexivity. }
    destruct Hl as (T & loaded & w1 & Hl & Hlen & Hex).
    destruct (@missing_headline_aborts_sort demo_runtime late_untitled T loaded w1 Hl)
      as [Hthrow _].
    destruct (Hthrow Hlen Hex) as (Hcode & _ & _ & Hempty).
    exists T, loaded, w1. auto.
  - assert (Hl : exists T loaded w1,
               @load demo_runtime pantry = (Ok (T, loaded), w1) /\
               Forall has_headline loaded).
    { eexists _, _, _. split; [vm_compute; reflexivity|].
      repeat constructor; discriminate. }
    destruct Hl as (T & loaded & w1 & Hl & Hh).
    destruct (@missing_headline_aborts_sort demo_runtime pantry T loaded w1 Hl)
      as [_ Hsorts].
    destruct (Hsorts Hh) as (sorted & Hs).
    exists T, loaded, w1, sorted. auto.
Defined.

(** C9 as stated fails: a record without a headline that is the only one
    is never compared; the sort returns, the page is written, and the
    build ends with status 0. *)
Lemma lone_untitled_record_builds :
  (exists T r w1,
     @load demo_runtime lone_untitled = (Ok (T, [r]), w1) /\
     headline_of r = None) /\
  exit_code (@generateSite demo_runtime lone_untitled) = 0%Z /\
  lookup (child (@publicDir demo_runtime) "untitled.html")
    (fs (final (@generateSite demo_runtime lone_untitled)))
  = Some (File "layout||recipe||||untitled,").
Proof.
  split.
  - eexists _, _, _. split; [vm_compute; reflexivity|reflexivity].
  - split; vm_compute; reflexivity.
Qed.

(** * Further properties of the build *)

Section MoreFacts.
Context {RT : Runtime}.

(** ** The build and the rest of the project *)

(** X1.  The build, however it ends, neither creates, changes nor removes
    anything beside the output directory, except files whose name ends in
    [.html]: at every path that parts from [public] and is not such a
    file, the same file, or a directory, or nothing is found before and
    after.  Data files and templates in particular are never altered. *)
Theorem build_touches_output_only w p :
  diverge p publicDir ->
  (forall dir seg, p <> child dir (seg ++ ".html")) ->
  kind_at p (fs (final (generateSite w))) = kind_at p (fs w).
Proof.
  intros Hd Hp.
  destruct (load w) as [[[T loaded]|e] w1] eqn:Hl.
  - destruct (load_spec _ _ _ Hl) as (_ & _ & _ & Hok).
    destruct (Hok eq_refl) as [Hempty Hframe].
    assert (H1 : kind_at p (fs w1) = kind_at p (fs w))
      by (unfold kind_at; now rewrite Hframe).
    rewrite (generateSite_after_load _ _ _ _ Hl).
    destruct (array_sort compare_headlines loaded) as [sorted|e]; [|exact H1].
    unfold bind.
    destruct (render T sorted w1) as [rr w2] eqn:Er.
    pose proof (render_frame _ _ _ _ _ Er p Hp) as H2.
    destruct (render_spec _ _ _ _ _ (pages_only_empty _ Hempty) Er) as (Hinv & _).
    destruct rr as [[]|e]; [|simpl; congruence].
    destruct (copy_static w2) as [rc w3] eqn:Ec.
    pose proof (copy_static_frame _ _ _ Hinv Ec p Hd) as H3.
    unfold kind_at at 1. rewrite settle_fs, H3. fold (kind_at p (fs w2)).
    congruence.
  - rewrite (generateSite_load_throw _ _ _ Hl). simpl.
    destruct (load_spec _ _ _ Hl) as (_ & _ & [Hfs|[_ Hframe]] & _).
    + now rewrite Hfs.
    + unfold kind_at. now rewrite Hframe.
Qed.

(** X2.  The output directory is rebuilt, not merged into: once the pages
    are generated, every entry found in it at the end of the build, other
    than [images] and the manifest names, is either [index.html] holding
    the index page or a file holding the page of one of the records, as
    this build rendered it.  Nothing older survives. *)
Theorem output_entries_accounted w T loaded w1 sorted w2 name n :
  load w = (Ok (T, loaded), w1) ->
  array_sort compare_headlines loaded = Ok sorted ->
  render T sorted w1 = (Ok tt, w2) ->
  name <> "images" ->
  ~ In name assetsToCopy ->
  lookup (child publicDir name) (fs (final (generateSite w))) = Some n ->
  (name = "index.html" /\
   exists indexHtml, index_page T sorted = Ok indexHtml /\ n = File indexHtml) \/
  (exists r html,
     In r sorted /\
     page_of T sorted r = Ok (child publicDir name, html) /\
     n = File html).
Proof.
  intros Hl Hs Hr Hni Hna Hn.
  assert (Hreach : reaches_copy_static w w2) by (exists T, loaded, w1, sorted; auto).
  destruct (reaches_spec _ _ Hreach) as (Hinv & _ & Hgen).
  rewrite Hgen in Hn.
  destruct (copy_static w2) as [rc w3] eqn:Ec.
  destruct (copy_static_spec _ _ _ Hinv Ec) as (_ & _ & _ & Hother & _).
  rewrite settle_fs, (Hother name Hni Hna) in Hn.
  destruct (render_pages _ _ _ _ Hr) as (pages & indexHtml & HF & Hip & Hik & Hk).
  destruct (list_eq_dec string_dec (child publicDir name) indexPath) as [E|E].
  - left. apply child_inj in E as [_ ->]. split; [reflexivity|].
    exists indexHtml. split; [exact Hip|].
    apply kind_file in Hik. unfold indexPath in Hik. congruence.
  - right. specialize (Hk _ E).
    destruct (load_spec _ _ _ Hl) as (_ & _ & _ & Hok).
    destruct (Hok eq_refl) as [Hempty _].
    destruct (last_page (child publicDir name) pages) as [html|] eqn:Elast.
    + apply kind_file in Hk. rewrite Hk in Hn. injection Hn as <-.
      apply last_page_In in Elast.
      destruct (Forall2_In_r _ _ _ _ HF Elast) as (r & Hin & Hpage).
      exists r, html. auto.
    + exfalso. unfold kind_at in Hk at 2.
      rewrite (lookup_child _ name _ _ Hempty) in Hk. simpl in Hk.
      apply kind_none in Hk. congruence.
Qed.

(** The page of a record is on disk at the end of the build, when no
    other record's page goes to the same file and the asset-copy step
    does not reach that file. *)
Lemma record_page_kept w T loaded w1 sorted w2 r q html :
  load w = (Ok (T, loaded), w1) ->
  array_sort compare_headlines loaded = Ok sorted ->
  render T sorted w1 = (Ok tt, w2) ->
  In r sorted ->
  page_of T sorted r = Ok (q, html) ->
  (forall r' html', In r' sorted -> page_of T sorted r' = Ok (q, html') ->
                    html' = html) ->
  q <> indexPath ->
  (diverge q publicDir \/
   exists name, q = child publicDir name /\ name <> "images" /\
                ~ In name assetsToCopy) ->
  lookup q (fs (final (generateSite w))) = Some (File html).
Proof.
  intros Hl Hs Hr Hin Hpage Huniq Hqi Hwhere.
  assert (Hreach : reaches_copy_static w w2) by (exists T, loaded, w1, sorted; auto).
  destruct (reaches_spec _ _ Hreach) as (Hinv & _ & ->).
  destruct (copy_static w2) as [rc w3] eqn:Ec.
  rewrite settle_fs.
  assert (Hkeep : lookup q (fs w3) = lookup q (fs w2)).
  { destruct Hwhere as [Hd|(name & -> & Hni & Hna)].
    - eapply copy_static_frame; eauto.
    - destruct (copy_static_spec _ _ _ Hinv Ec) as (_ & _ & _ & Hother & _).
      now apply Hother. }
  rewrite Hkeep. apply kind_file.
  destruct (render_pages _ _ _ _ Hr) as (pages & indexHtml & HF & _ & _ & Hk).
  rewrite (Hk q Hqi).
  destruct (Forall2_In_l _ _ _ _ HF Hin) as (pg & Hpg & Hrpg).
  rewrite Hpage in Hrpg. injection Hrpg as <-.
  rewrite (last_page_unique q pages html Hpg); [reflexivity|].
  intros h Hh. destruct (Forall2_In_r _ _ _ _ HF Hh) as (r' & Hr' & Hp').
  eapply Huniq; eauto.
Qed.

Lemma page_of_parts T all r content html name :
  recipeTemplate T r = Ok content ->
  layoutTemplate T (page_context r content all) = Ok html ->
  page_name r = Ok name ->
  page_of T all r = Ok (path_join publicDir name, html).
Proof.
  intros H1 H2 H3. unfold page_of. rewrite H1. simpl. rewrite H2. simpl.
  now rewrite H3.
Qed.

(** X3.  A record whose slug has no slash gets its page at
    [public/<slug>.html]: when the pages are generated, the file holds, at
    the end of the build, the layout rendered on the record's context,
    provided no other record writes to that file and its name is neither
    [index.html] nor a manifest name. *)
Theorem record_page_on_disk w T loaded w1 sorted w2 r slug content html :
  load w = (Ok (T, loaded), w1) ->
  array_sort compare_headlines loaded = Ok sorted ->
  render T sorted w1 = (Ok tt, w2) ->
  In r sorted ->
  page_name r = Ok (slug ++ ".html")%string ->
  no_slash slug = true ->
  recipeTemplate T r = Ok content ->
  layoutTemplate T (page_context r content sorted) = Ok html ->
  (forall r' pg, In r' sorted -> page_of T sorted r' = Ok pg ->
                 fst pg = child publicDir (slug ++ ".html") -> r' = r) ->
  (slug ++ ".html")%string <> "index.html" ->
  ~ In (slug ++ ".html")%string assetsToCopy ->
  lookup (child publicDir (slug ++ ".html")) (fs (final (generateSite w)))
  = Some (File html).
Proof.
  intros Hl Hs Hr Hin Hname Hplain Hc Hh Huniq Hni Hna.
  pose proof (page_of_parts _ _ _ _ _ _ Hc Hh Hname) as Hpage.
  rewrite (path_join_plain _ _ Hplain) in Hpage.
  eapply record_page_kept; eauto.
  - intros r' html' Hr' Hp'.
    rewrite (Huniq r' _ Hr' Hp' eq_refl) in Hp'. congruence.
  - unfold indexPath. intros E. apply child_inj in E as [_ E]. contradiction.
  - right. eexists. split; [reflexivity|]. split; [apply html_not_images|exact Hna].
Qed.

(** X4.  The slug is not confined to the output directory: a record whose
    slug is [../s] gets its page written at [s.html] in the project root,
    beside the sources, and the file is there at the end of the build
    (provided no other record writes to it). *)
Theorem slug_escapes_output w T loaded w1 sorted w2 r s content html :
  load w = (Ok (T, loaded), w1) ->
  array_sort compare_headlines loaded = Ok sorted ->
  render T sorted w1 = (Ok tt, w2) ->
  In r sorted ->
  page_name r = Ok ("../" ++ s ++ ".html")%string ->
  no_slash s = true ->
  recipeTemplate T r = Ok content ->
  layoutTemplate T (page_context r content sorted) = Ok html ->
  (forall r' pg, In r' sorted -> page_of T sorted r' = Ok pg ->
                 fst pg = child rootDir (s ++ ".html") -> r' = r) ->
  lookup (child rootDir (s ++ ".html")) (fs (final (generateSite w)))
  = Some (File html).
Proof.
  intros Hl Hs Hr Hin Hname Hplain Hc Hh Huniq.
  pose proof (page_of_parts _ _ _ _ _ _ Hc Hh Hname) as Hpage.
  unfold publicDir in Hpage. rewrite (path_join_parent _ _ _ Hplain) in Hpage.
  eapply record_page_kept; eauto.
  - intros r' html' Hr' Hp'.
    rewrite (Huniq r' _ Hr' Hp' eq_refl) in Hp'. congruence.
  - unfold indexPath, rootDir, publicDir, child. rewrite <- app_assoc. simpl.
    intros E. apply app_inv_head in E. discriminate.
  - left. unfold rootDir, publicDir, child. apply diverge_at, html_not_public.
Qed.

(** X5.  [index.html] always ends up holding the index page: it is
    written after the recipe pages, so a record whose slug is [index]
    loses its page to it, and no later step touches the file. *)
Theorem index_page_on_disk w T loaded w1 sorted w2 :
  load w = (Ok (T, loaded), w1) ->
  array_sort compare_headlines loaded = Ok sorted ->
  render T sorted w1 = (Ok tt, w2) ->
  exists indexHtml,
    index_page T sorted = Ok indexHtml /\
    lookup indexPath (fs (final (generateSite w))) = Some (File indexHtml).
Proof.
  intros Hl Hs Hr.
  assert (Hreach : reaches_copy_static w w2) by (exists T, loaded, w1, sorted; auto).
  destruct (reaches_spec _ _ Hreach) as (Hinv & _ & ->).
  destruct (copy_static w2) as [rc w3] eqn:Ec.
  destruct (copy_static_spec _ _ _ Hinv Ec) as (_ & _ & _ & Hother & _).
  destruct (render_pages _ _ _ _ Hr) as (pages & indexHtml & _ & Hip & Hik & _).
  exists indexHtml. split; [exact Hip|].
  rewrite settle_fs. unfold indexPath. rewrite Hother.
  - now apply kind_file.
  - discriminate.
  - simpl. intros H. repeat (destruct H as [H|H]; [discriminate|]). exact H.
Qed.

(** ** Failures *)

(** The page loop over a list cut in two is the loop over the first part
    followed by the loop over the second. *)
Lemma generate_pages_app T all l1 l2 w :
  generate_pages T all (l1 ++ l2) w =
  (generate_pages T all l1 ;; generate_pages T all l2) w.
Proof.
  revert w. induction l1 as [|r l1 IH]; intros w; [reflexivity|].
  cbn [generate_pages app].
  repeat (rewrite bind_assoc; apply bind_ext; intros ? ?).
  apply IH.
Qed.

Lemma generate_pages_throw T all r rest w e :
  page_of T all r = Throw e ->
  generate_pages T all (r :: rest) w = (Throw e, w).
Proof.
  unfold page_of. simpl. unfold bind at 1, lift at 1.
  destruct (recipeTemplate T r) as [content|e1]; simpl; [|now intros [= ->]].
  unfold bind at 1, lift at 1.
  destruct (layoutTemplate T _) as [html|e2]; simpl; [|now intros [= ->]].
  unfold bind at 1, lift at 1.
  destruct (page_name r) as [name|e3]; simpl; [discriminate|now intros [= ->]].
Qed.

(** X6.  There is no cleanup and no isolation of a failing record: when
    the page of a record cannot be rendered or named, the build ends
    with status 1 and that error, after the pages of the records sorted
    before it have been written; those pages stay on disk, every other
    path is as the load left it, and neither the index page nor any asset
    follows. *)
Theorem failed_page_keeps_earlier_pages w T loaded w1 before r after wk e :
  load w = (Ok (T, loaded), w1) ->
  array_sort compare_headlines loaded = Ok (before ++ r :: after) ->
  generate_pages T (before ++ r :: after) before w1 = (Ok tt, wk) ->
  page_of T (before ++ r :: after) r = Throw e ->
  exit_code (generateSite w) = 1%Z /\
  final (generateSite w) = with_line (LogError e) wk /\
  exists pages,
    Forall2 (fun r' pg => page_of T (before ++ r :: after) r' = Ok pg)
      before pages /\
    forall p, kind_at p (fs (final (generateSite w))) =
              match last_page p pages with
              | Some html => KFile html
              | None => kind_at p (fs w1)
              end.
Proof.
  intros Hl Hs Hb Hr.
  assert (Hgen : generateSite w =
                 {| exit_code := 1; final := with_line (LogError e) wk |}).
  { rewrite (generateSite_after_load _ _ _ _ Hl), Hs.
    unfold bind at 1, render, bind at 1.
    rewrite generate_pages_app. unfold bind at 1. rewrite Hb.
    now rewrite (generate_pages_throw _ _ _ _ _ _ Hr). }
  rewrite Hgen. simpl. split; [reflexivity|]. split; [reflexivity|].
  apply (generate_pages_pages _ _ _ _ _ Hb).
Qed.

Lemma readFile_inv p w data w' :
  readFile p w = (Ok data, w') -> lookup p (fs w) = Some (File data).
Proof.
  unfold readFile. destruct (lookup p (fs w)) as [[d|es]|];
    intros E; try discriminate E. now injection E as ->.
Qed.

(** X7.  When one of the three templates is not a readable file, the
    build ends with status 1 and one error line before any data file is
    read; nothing is written: either the world is untouched, or the
    output directory has been emptied and everything beside it is as it
    was. *)
Theorem missing_template_aborts w name :
  In name ["layout.hbs"; "recipe.hbs"; "index.hbs"] ->
  (forall data, lookup (child templatesDir name) (fs w) <> Some (File data)) ->
  exit_code (generateSite w) = 1%Z /\
  (exists e, console (final (generateSite w)) = console w ++ [LogError e]) /\
  (fs (final (generateSite w)) = fs w \/
   lookup publicDir (fs (final (generateSite w))) = Some (Dir []) /\
   forall q, diverge q publicDir ->
     lookup q (fs (final (generateSite w))) = lookup q (fs w)).
Proof.
  intros Hin Hno.
  destruct (load w) as [[[T loaded]|e] w1] eqn:Hl.
  - exfalso.
    destruct (load_inv _ _ _ _ Hl) as (_ & Ht & _).
    destruct (load_spec _ _ _ Hl) as (_ & _ & _ & Hok).
    destruct (Hok eq_refl) as [_ Hframe].
    assert (Hfile : forall n, In n ["layout.hbs"; "recipe.hbs"; "index.hbs"] ->
                      exists data, lookup (child templatesDir n) (fs w1)
                                   = Some (File data)).
    { clear -Ht. unfold read_templates, bind in Ht.
      destruct (readFile (child templatesDir "layout.hbs") w1)
        as [[d1|?] w2] eqn:E1; [|discriminate Ht].
      pose proof (readFile_world _ _ _ _ E1) as ->.
      destruct (readFile (child templatesDir "recipe.hbs") w1)
        as [[d2|?] w2] eqn:E2; [|discriminate Ht].
      pose proof (readFile_world _ _ _ _ E2) as ->.
      destruct (readFile (child templatesDir "index.hbs") w1)
        as [[d3|?] w2] eqn:E3; [|discriminate Ht].
      intros n [<-|[<-|[<-|[]]]];
        [apply readFile_inv in E1|apply readFile_inv in E2
        |apply readFile_inv in E3]; eauto. }
    destruct (Hfile name Hin) as [data Hd].
    rewrite Hframe in Hd by apply template_diverge.
    now apply (Hno data).
  - rewrite (generateSite_load_throw _ _ _ Hl). simpl.
    destruct (load_spec _ _ _ Hl) as (Hc & _ & Hfs & _).
    split; [reflexivity|]. split; [exists e; now rewrite Hc|exact Hfs].
Qed.

(** X8.  When the data directory is not a directory, the build ends the
    same way: status 1, one error line, nothing written. *)
Theorem missing_data_directory_aborts w :
  (forall es, lookup recipesDir (fs w) <> Some (Dir es)) ->
  exit_code (generateSite w) = 1%Z /\
  (exists e, console (final (generateSite w)) = console w ++ [LogError e]) /\
  (fs (final (generateSite w)) = fs w \/
   lookup publicDir (fs (final (generateSite w))) = Some (Dir []) /\
   forall q, diverge q publicDir ->
     lookup q (fs (final (generateSite w))) = lookup q (fs w)).
Proof.
  intros Hno.
  destruct (load w) as [[[T loaded]|e] w1] eqn:Hl.
  - exfalso.
    destruct (load_inv _ _ _ _ Hl) as (_ & _ & es & Hes & _).
    destruct (load_spec _ _ _ Hl) as (_ & _ & _ & Hok).
    destruct (Hok eq_refl) as [_ Hframe].
    rewrite (recipesDir_frame _ _ Hframe) in Hes. now apply (Hno es).
  - rewrite (generateSite_load_throw _ _ _ Hl). simpl.
    destruct (load_spec _ _ _ Hl) as (Hc & _ & Hfs & _).
    split; [reflexivity|]. split; [exists e; now rewrite Hc|exact Hfs].
Qed.

Lemma mkdirs_over_file p t data :
  lookup p t = Some (File data) -> mkdirs p t = Throw EEXIST.
Proof.
  revert t. induction p as [|s p IH]; intros t; simpl.
  - intros [= ->]. reflexivity.
  - destruct t as [d|es]; [discriminate|].
    destruct (assoc s es) as [c|]; [|discriminate].
    intros H. simpl. now rewrite (IH c H).
Qed.

(** X9.  When a regular file stands where the output directory should be,
    the directory cannot be cleared: the build ends at its first step
    with status 1 and the file system is left as it was.  The error is
    the one that the installed release of fs-extra gives: [ENOTDIR] when
    it passes on what [readdir] reports, [EEXIST] when it goes on to
    [mkdirs]. *)
Theorem output_path_is_file w data :
  lookup publicDir (fs w) = Some (File data) ->
  generateSite w =
  {| exit_code := 1;
     final := with_line
                (LogError (if emptyDir_rethrows then ENOTDIR else EEXIST)) w |}.
Proof.
  intros H. apply generateSite_load_throw.
  unfold load, bind at 1, emptyDir. rewrite H.
  destruct emptyDir_rethrows; [reflexivity|].
  unfold ensureDir. now rewrite (mkdirs_over_file _ _ _ H).
Qed.

(** ** The sort, whatever the records *)

(** X10.  Whenever the sort returns, with whatever comparison results, it
    returns a rearrangement of the array: no record is dropped or
    repeated by it, also when headlines are missing or inconsistent. *)
Theorem array_sort_permutation cmp l r :
  array_sort cmp l = Ok r -> Permutation l r.
Proof. intros E. exact (sort_from_perm cmp l [] r E). Qed.

Lemma has_headlineb_spec r : has_headlineb r = true <-> has_headline r.
Proof.
  unfold has_headlineb, has_headline. destruct (headline_of r); split;
    congruence.
Qed.

Lemma has_headline_argument_ok r : has_headline r -> argument_ok r = true.
Proof.
  unfold has_headline, headline_of, argument_ok.
  destruct r as [| | | |?|f]; try congruence. simpl.
  destruct (assoc "headline" f) as [[| | |s|?|?]|]; try congruence.
  reflexivity.
Qed.

Lemma compare_headlines_is_ok a b :
  has_headline a -> is_ok (compare_headlines a b) = argument_ok b.
Proof.
  unfold has_headline, headline_of, compare_headlines, argument_ok.
  destruct a as [| | | |?|fa]; try congruence. simpl.
  destruct (assoc "headline" fa) as [[| | |s|?|?]|]; try congruence.
  intros _. destruct (get_member b "headline") as [bh|]; simpl; [|reflexivity].
  destruct (to_string_val bh); reflexivity.
Qed.

Lemma sort_insert_is_ok x l :
  has_headline x -> Forall (fun b => argument_ok b = true) l ->
  exists r, sort_insert compare_headlines x l = Ok r /\
            Forall (fun b => argument_ok b = true) r.
Proof.
  intros Hx Hl. induction Hl as [|y l Hy Hl IH]; simpl.
  - eexists. split; [reflexivity|].
    constructor; [now apply has_headline_argument_ok|constructor].
  - pose proof (compare_headlines_is_ok x y Hx) as Hc. rewrite Hy in Hc.
    destruct (compare_headlines x y) as [c|]; [|discriminate]. simpl.
    destruct (c <? 0)%Z.
    + eexists. split; [reflexivity|].
      constructor; [now apply has_headline_argument_ok|now constructor].
    + destruct IH as (r & -> & Hr). simpl. eexists. split; [reflexivity|].
      now constructor.
Qed.

Lemma sort_from_is_ok sorted rest :
  Forall (fun b => argument_ok b = true) sorted ->
  Forall has_headline rest ->
  is_ok (sort_from compare_headlines sorted rest) = true.
Proof.
  intros Hs Hr. revert sorted Hs.
  induction Hr as [|x rest Hx Hr IH]; intros sorted Hs; simpl; [reflexivity|].
  destruct (sort_insert_is_ok x sorted Hx Hs) as (s' & -> & Hs'). simpl.
  now apply IH.
Qed.

(** X11.  With two records or more, and fewer than 64 (the length up to
    which the engine sorts by insertion), the sort returns exactly when
    every record after the first loaded has a string headline and the
    headline of the first can be read and converted to a string.  The
    first record is never the receiver of [localeCompare], only its
    argument, and there a missing headline is converted to a string
    instead of failing. *)
Theorem sort_returns_iff r0 x rest :
  length (r0 :: x :: rest) < 64 ->
  is_ok (array_sort compare_headlines (r0 :: x :: rest))
  = argument_ok r0 && forallb has_headlineb (x :: rest).
Proof.
  intros _.
  destruct (forallb has_headlineb (x :: rest)) eqn:Hall.
  - rewrite andb_true_r.
    assert (Hh : Forall has_headline (x :: rest)).
    { apply Forall_forall. intros y Hy. apply has_headlineb_spec.
      rewrite forallb_forall in Hall. now apply Hall. }
    unfold array_sort. simpl sort_from at 1. simpl.
    destruct (argument_ok r0) eqn:H0.
    + change (is_ok (sort_from compare_headlines [r0] (x :: rest)) = true).
      apply sort_from_is_ok; [now repeat constructor|exact Hh].
    + inversion Hh as [|? ? Hx _]; subst.
      pose proof (compare_headlines_is_ok x r0 Hx) as Hc. rewrite H0 in Hc.
      destruct (compare_headlines x r0); [discriminate|reflexivity].
  - rewrite andb_false_r.
    assert (Hex : Exists (fun r => headline_of r = None) (x :: rest)).
    { apply Exists_exists.
      assert (Hn : exists y, In y (x :: rest) /\ has_headlineb y = false).
      { clear -Hall. induction (x :: rest) as [|y l IH]; [discriminate|].
        simpl in Hall. destruct (has_headlineb y) eqn:Hy.
        - destruct (IH Hall) as (z & Hz & Hzb). exists z. simpl. auto.
        - exists y. simpl. auto. }
      destruct Hn as (y & Hy & Hyb). exists y. split; [exact Hy|].
      unfold has_headlineb in Hyb. destruct (headline_of y); congruence. }
    destruct (array_sort_throw r0 (x :: rest) Hex) as [e ->]. reflexivity.
Qed.

(** ** The console *)

Lemma appends_ret P {A} (a : A) : appends P (ret a).
Proof.
  intros w r w' [= _ <-]. exists []. rewrite app_nil_r. auto.
Qed.

Lemma appends_lift P {A} (x : result A) : appends P (lift x).
Proof.
  intros w r w' [= _ <-]. exists []. rewrite app_nil_r. auto.
Qed.

Lemma appends_bind P {A B} (m : M A) (k : A -> M B) :
  appends P m -> (forall a, appends P (k a)) -> appends P (bind m k).
Proof.
  intros Hm Hk w r w'. unfold bind.
  destruct (m w) as [[a|e] w0] eqn:E; destruct (Hm _ _ _ E) as (l0 & Hl0 & HP0).
  - intros H. destruct (Hk a _ _ _ H) as (l1 & Hl1 & HP1).
    exists (l0 ++ l1). rewrite Hl1, Hl0, <- app_assoc. split; [reflexivity|].
    apply Forall_app. auto.
  - intros [= _ <-]. eauto.
Qed.

Lemma appends_silent P {A} (m : M A) :
  (forall w r w', m w = (r, w') -> console w' = console w) -> appends P m.
Proof.
  intros H w r w' E. exists []. rewrite app_nil_r. split; [eauto|constructor].
Qed.

Lemma appends_log (P : log_line -> Prop) s : P (Log s) -> appends P (console_log s).
Proof.
  intros H w r w' [= _ <-]. exists [Log s]. split; [reflexivity|auto].
Qed.

Lemma appends_warn (P : log_line -> Prop) s : P (Warn s) -> appends P (console_warn s).
Proof.
  intros H w r w' [= _ <-]. exists [Warn s]. split; [reflexivity|auto].
Qed.

Lemma copy_console src dest w r w' :
  copy src dest w = (r, w') -> console w' = console w.
Proof.
  unfold copy.
  destruct (lookup src (fs w)) as [n|]; [|now intros [= _ <-]].
  destruct (copy_onto n _) as [n'|]; [|now intros [= _ <-]].
  destruct (mkdirs _ _) as [t|]; [|now intros [= _ <-]].
  destruct (put dest n' t); now intros [= _ <-].
Qed.

Lemma appends_readFile P p : appends P (readFile p).
Proof. apply appends_silent. intros w r w' E. now rewrite (readFile_world _ _ _ _ E). Qed.

Lemma appends_readdir P p : appends P (readdir p).
Proof. apply appends_silent. intros w r w' E. now rewrite (readdir_world _ _ _ _ E). Qed.

Lemma appends_pathExists P p : appends P (pathExists p).
Proof.
  apply appends_silent. intros w r w'. rewrite pathExists_spec. now intros [= _ <-].
Qed.

Lemma appends_writeFile P p data : appends P (writeFile p data).
Proof.
  apply appends_silent. intros w r w' E.
  now destruct (writeFile_kind _ _ _ _ _ E) as (Hc & _).
Qed.

Lemma appends_ensureDir P p : appends P (ensureDir p).
Proof.
  apply appends_silent. intros w r w' E.
  now destruct (ensureDir_spec _ _ _ _ E) as (Hc & _).
Qed.

Lemma appends_emptyDir P p : appends P (emptyDir p).
Proof.
  apply appends_silent. intros w r w' E.
  now destruct (emptyDir_spec _ _ _ _ E) as (Hc & _).
Qed.

Lemma appends_copy P src dest : appends P (copy src dest).
Proof. apply appends_silent. intros w r w'. apply copy_console. Qed.

Lemma generated_is_plain name : plain_line (Log ("Generated: " ++ name)).
Proof. simpl. discriminate. Qed.

Lemma copied_is_plain s : plain_line (Log ("Copied" ++ s)).
Proof. simpl. discriminate. Qed.

Lemma appends_load : appends plain_line load.
Proof.
  apply appends_silent. intros w r w' E.
  now destruct (load_spec _ _ _ E) as (Hc & _).
Qed.

Lemma appends_generate_pages T all todo :
  appends plain_line (generate_pages T all todo).
Proof.
  induction todo as [|r todo IH]; simpl; [apply appends_ret|].
  apply appends_bind; [apply appends_lift|intros ?].
  apply appends_bind; [apply appends_lift|intros ?].
  apply appends_bind; [apply appends_lift|intros ?].
  apply appends_bind; [apply appends_writeFile|intros ?].
  apply appends_bind; [|intros ?; exact IH].
  apply appends_log, generated_is_plain.
Qed.

Lemma appends_generate_index T all : appends plain_line (generate_index T all).
Proof.
  unfold generate_index.
  apply appends_bind; [apply appends_lift|intros ?].
  apply appends_bind; [apply appends_lift|intros ?].
  apply appends_bind; [apply appends_writeFile|intros ?].
  apply appends_log, (generated_is_plain "index.html").
Qed.

Lemma appends_render T all : appends plain_line (render T all).
Proof.
  unfold render. apply appends_bind;
    [apply appends_generate_pages|intros ?; apply appends_generate_index].
Qed.

Lemma appends_copy_assets assets : appends plain_line (copy_assets assets).
Proof.
  induction assets as [|a assets IH]; simpl; [apply appends_ret|].
  apply appends_bind; [apply appends_pathExists|]. intros present.
  apply appends_bind; [|intros ?; exact IH].
  destruct present.
  - apply appends_bind; [apply appends_copy|intros ?].
    apply appends_log, (copied_is_plain (": " ++ a)).
  - apply appends_warn. exact I.
Qed.

Lemma appends_copy_image_files files :
  appends plain_line (copy_image_files files).
Proof.
  induction files as [|f files IH]; simpl; [apply appends_ret|].
  apply appends_bind; [apply appends_copy|intros ?].
  apply appends_bind; [|intros ?; exact IH].
  apply appends_log, (copied_is_plain (" image: images/" ++ f)).
Qed.

Lemma appends_copy_images : appends plain_line copy_images.
Proof.
  unfold copy_images. apply appends_bind; [apply appends_pathExists|].
  intros [|].
  - apply appends_bind; [apply appends_readdir|intros ?].
    apply appends_copy_image_files.
  - apply appends_warn. exact I.
Qed.

(** What the build of the [try] block prints: lines that end nothing,
    and after them the completion line exactly when it returns. *)
Lemma generateSite_try_console w r w' :
  generateSite_try w = (r, w') ->
  exists body,
    Forall plain_line body /\
    console w' = console w ++ body ++
                 match r with
                 | Ok _ => [Log completion_line]
                 | Throw _ => []
                 end.
Proof.
  assert (Hpre : appends plain_line
            (loaded <- load ;;
             allRecipesData <- lift (array_sort compare_headlines (snd loaded)) ;;
             render (fst loaded) allRecipesData ;;
             ensureDir publicImagesDir ;;
             copy_assets assetsToCopy ;;
             copy_images)).
  { apply appends_bind; [apply appends_load|intros ?].
    apply appends_bind; [apply appends_lift|intros ?].
    apply appends_bind; [apply appends_render|intros ?].
    apply appends_bind; [apply appends_ensureDir|intros ?].
    apply appends_bind; [apply appends_copy_assets|intros ?].
    apply appends_copy_images. }
  assert (Heq : generateSite_try w =
    ((loaded <- load ;;
      allRecipesData <- lift (array_sort compare_headlines (snd loaded)) ;;
      render (fst loaded) allRecipesData ;;
      ensureDir publicImagesDir ;;
      copy_assets assetsToCopy ;;
      copy_images) ;; console_log completion_line) w).
  { unfold generateSite_try, copy_static.
    repeat (rewrite bind_assoc; apply bind_ext; intros ? ?).
    reflexivity. }
  rewrite Heq. unfold bind at 1.
  match goal with |- context [?m w] =>
    destruct (m w) as [[u|e] w0] eqn:E end;
    destruct (Hpre _ _ _ E) as (body & Hb & HP).
  - unfold console_log. intros [= <- <-]. exists body. split; [exact HP|].
    simpl. rewrite Hb, <- app_assoc. reflexivity.
  - intros [= <- <-]. exists body. split; [exact HP|]. now rewrite app_nil_r.
Qed.

(** X12.  What a build prints ends in exactly one closing line: the
    completion line when the status is 0, the error line when it is 1.
    Every line before it is a progress line or a warning; a build never
    prints the completion line after an error, nor two closing lines. *)
Theorem console_ends_once w :
  exists body,
    Forall plain_line body /\
    (exit_code (generateSite w) = 0%Z /\
     console (final (generateSite w))
       = console w ++ body ++ [Log completion_line] \/
     exit_code (generateSite w) = 1%Z /\
     exists e, console (final (generateSite w))
               = console w ++ body ++ [LogError e]).
Proof.
  unfold generateSite.
  destruct (generateSite_try w) as [r w'] eqn:E.
  destruct (generateSite_try_console _ _ _ E) as (body & HP & Hc).
  exists body. split; [exact HP|].
  destruct r as [[]|e]; simpl.
  - left. auto.
  - right. split; [reflexivity|]. exists e.
    rewrite Hc, app_nil_r, <- app_assoc. reflexivity.
Qed.

Lemma generate_pages_console T all todo w w' :
  generate_pages T all todo w = (Ok tt, w') ->
  console w' =
  console w ++ map (fun r => Log ("Generated: " ++ reported_name r)) todo.
Proof.
  revert w. induction todo as [|rd todo IH]; intros w; simpl.
  - intros [= <-]. now rewrite app_nil_r.
  - unfold bind at 1, lift at 1.
    destruct (recipeTemplate T rd) as [content|e]; [|discriminate].
    unfold bind at 1, lift at 1.
    destruct (layoutTemplate T _) as [html|e]; [|discriminate].
    unfold bind at 1, lift at 1. unfold reported_name at 1.
    destruct (page_name rd) as [name|e]; [|discriminate].
    unfold bind at 1.
    destruct (writeFile _ html w) as [[[]|e] w0] eqn:Ew; [|discriminate].
    destruct (writeFile_kind _ _ _ _ _ Ew) as (Hc & _).
    unfold bind at 1, console_log at 1. intros H.
    rewrite (IH _ H). simpl. rewrite Hc, <- app_assoc. reflexivity.
Qed.

(** X13.  Pages are generated in the sorted order of the collection, the
    index page after them: the console of a build whose pages are all
    generated starts with one [Generated:] line per record, in headline
    order, then the line of [index.html]; no later line reports a page. *)
Theorem pages_reported_in_sorted_order w T loaded w1 sorted w2 :
  load w = (Ok (T, loaded), w1) ->
  array_sort compare_headlines loaded = Ok sorted ->
  render T sorted w1 = (Ok tt, w2) ->
  exists rest,
    console (final (generateSite w)) =
      console w
      ++ map (fun r => Log ("Generated: " ++ reported_name r)) sorted
      ++ Log "Generated: index.html" :: rest /\
    Forall (fun l => is_generated l = false) rest.
Proof.
  intros Hl Hs Hr.
  assert (Hreach : reaches_copy_static w w2) by (exists T, loaded, w1, sorted; auto).
  destruct (reaches_spec _ _ Hreach) as (Hinv & _ & ->).
  destruct (load_spec _ _ _ Hl) as (Hc1 & _).
  assert (Hc2 : console w2 = console w
                ++ map (fun r => Log ("Generated: " ++ reported_name r)) sorted
                ++ [Log "Generated: index.html"]).
  { revert Hr. unfold render, bind.
    destruct (generate_pages T sorted sorted w1) as [[[]|e] w0] eqn:Ep;
      [|discriminate].
    rewrite <- Hc1, app_assoc, <- (generate_pages_console _ _ _ _ _ Ep).
    unfold generate_index. unfold bind at 1, lift at 1.
    destruct (indexTemplate T _); [|discriminate].
    unfold bind at 1, lift at 1.
    destruct (layoutTemplate T _); [|discriminate].
    unfold bind at 1.
    destruct (writeFile _ _ w0) as [[[]|e] w0'] eqn:Ew; [|discriminate].
    destruct (writeFile_kind _ _ _ _ _ Ew) as (Hc & _).
    unfold console_log. intros [= <-]. simpl. now rewrite Hc. }
  destruct (copy_static w2) as [rc w3] eqn:Ec.
  destruct (copy_static_spec _ _ _ Hinv Ec) as (_ & _ & (lines & Hlines & Hg) & _).
  destruct rc as [[]|e]; simpl.
  - exists lines. split; [|exact Hg].
    rewrite Hlines, Hc2, <- !app_assoc. reflexivity.
  - exists (lines ++ [LogError e]). split.
    + rewrite Hlines, Hc2, <- !app_assoc. reflexivity.
    + apply Forall_app. split; [exact Hg|]. now repeat constructor.
Qed.

(** ** Records that cannot be published *)

Lemma page_of_named T all r pg :
  page_of T all r = Ok pg -> is_ok (page_name r) = true.
Proof.
  unfold page_of.
  destruct (recipeTemplate T r); simpl; [|discriminate].
  destruct (layoutTemplate T _); simpl; [|discriminate].
  destruct (page_name r); simpl; [reflexivity|discriminate].
Qed.

(** X14.  A record whose page cannot be named fails the whole build: when
    a loaded record is [null] (reading its slug throws), or its slug
    cannot be converted to a string, the build ends with status 1,
    whatever the other records are. *)
Theorem unnameable_record_aborts w T loaded w1 r :
  load w = (Ok (T, loaded), w1) ->
  In r loaded ->
  is_ok (page_name r) = false ->
  exit_code (generateSite w) = 1%Z.
Proof.
  intros Hl Hin Hbad.
  rewrite (generateSite_after_load _ _ _ _ Hl).
  destruct (array_sort compare_headlines loaded) as [sorted|e] eqn:Es;
    [|reflexivity].
  unfold bind at 1.
  destruct (render T sorted w1) as [[[]|e] w2] eqn:Er; [|reflexivity].
  exfalso.
  destruct (render_pages _ _ _ _ Er) as (pages & _ & HF & _).
  assert (Hin' : In r sorted).
  { eapply Permutation_in; [|exact Hin].
    apply (sort_from_perm _ _ _ _ Es). }
  destruct (Forall2_In_l _ _ _ _ HF Hin') as (pg & _ & Hpg).
  apply page_of_named in Hpg. congruence.
Qed.

(** X15.  A record without a [slug] is published all the same, under the
    name that the missing value converts to: its page is
    [public/undefined.html] (and it is the page found there at the end
    of the build when no other record writes to that file). *)
Theorem record_without_slug w T loaded w1 sorted w2 fields content html :
  load w = (Ok (T, loaded), w1) ->
  array_sort compare_headlines loaded = Ok sorted ->
  render T sorted w1 = (Ok tt, w2) ->
  In (JObj fields) sorted ->
  assoc "slug" fields = None ->
  recipeTemplate T (JObj fields) = Ok content ->
  layoutTemplate T (page_context (JObj fields) content sorted) = Ok html ->
  (forall r' pg, In r' sorted -> page_of T sorted r' = Ok pg ->
                 fst pg = child publicDir "undefined.html" -> r' = JObj fields) ->
  lookup (child publicDir "undefined.html") (fs (final (generateSite w)))
  = Some (File html).
Proof.
  intros Hl Hs Hr Hin Hslug Hc Hh Huniq.
  assert (Hname : page_name (JObj fields) = Ok ("undefined" ++ ".html")%string)
    by (unfold page_name; simpl; now rewrite Hslug).
  pose proof (page_of_parts _ _ _ _ _ _ Hc Hh Hname) as Hpage.
  rewrite (path_join_plain _ "undefined" eq_refl) in Hpage.
  eapply record_page_kept; eauto.
  - intros r' html' Hr' Hp'.
    rewrite (Huniq r' _ Hr' Hp' eq_refl) in Hp'. congruence.
  - unfold indexPath. intros E. apply child_inj in E as [_ E]. discriminate E.
  - right. eexists. split; [reflexivity|].
    split; [apply (html_not_images "undefined")|].
    simpl. intros H. repeat (destruct H as [H|H]; [discriminate|]). exact H.
Qed.

(** ** Which entries are data files *)

Lemma substring_all s : substring 0 (String.length s) s = s.
Proof. induction s as [|c s IH]; simpl; [reflexivity|now rewrite IH]. Qed.

Lemma substring_suffix pre suf :
  substring (String.length pre) (String.length suf) (pre ++ suf) = suf.
Proof. induction pre as [|c pre IH]; simpl; [apply substring_all|exact IH]. Qed.

Lemma substring_split s k :
  k <= String.length s ->
  s = (substring 0 k s ++ substring k (String.length s - k) s)%string.
Proof.
  revert k. induction s as [|c s IH]; intros [|k] Hk; simpl in *;
    try reflexivity; try lia.
  - now rewrite substring_all.
  - f_equal.
    assert (Hk' : k <= String.length s) by lia.
    specialize (IH k Hk').
    destruct k; simpl in *; exact IH.
Qed.

Lemma endsWith_spec s suffix :
  endsWith s suffix = true <-> exists stem, s = (stem ++ suffix)%string.
Proof.
  unfold endsWith. split.
  - intros H. apply andb_true_iff in H as [Hle Heq].
    apply Nat.leb_le in Hle. apply String.eqb_eq in Heq.
    exists (substring 0 (String.length s - String.length suffix) s).
    assert (Hsp := substring_split s
                     (String.length s - String.length suffix)
                     (Nat.le_sub_l _ _)).
    replace (String.length s - (String.length s - String.length suffix))
      with (String.length suffix) in Hsp by lia.
    rewrite Heq in Hsp. exact Hsp.
  - intros [stem ->]. rewrite length_append.
    apply andb_true_iff. split; [apply Nat.leb_le; lia|].
    apply String.eqb_eq.
    replace (String.length stem + String.length suffix - String.length suffix)
      with (String.length stem) by lia.
    apply substring_suffix.
Qed.

(** X16.  The filter of line 33 decides what is read: the records of a
    successful load are exactly the parsed contents of the entries of the
    data directory whose name is some stem, possibly empty, followed by
    [.jsonld]; no other entry contributes a record, whatever it holds. *)
Theorem records_come_from_data_files w T loaded w1 es :
  load w = (Ok (T, loaded), w1) ->
  lookup recipesDir (fs w) = Some (Dir es) ->
  Permutation (map fst es) (readdir_order w recipesDir (map fst es)) ->
  forall r,
    In r loaded <->
    exists stem text,
      assoc (stem ++ ".jsonld")%string es = Some (File text) /\
      JSON_parse text = Some r.
Proof.
  intros Hl Hes Hperm r.
  destruct (load_inv _ _ _ _ Hl) as (_ & _ & es1 & Hes1 & Hall & Hloaded).
  destruct (load_spec _ _ _ Hl) as (_ & Ho & _ & Hok).
  destruct (Hok eq_refl) as [_ Hframe].
  rewrite (recipesDir_frame _ _ Hframe), Hes in Hes1. injection Hes1 as <-.
  rewrite Ho in Hall, Hloaded. rewrite Forall_forall in Hall.
  assert (Hrec : forall name,
            record_at (fs w1) name =
            match assoc name es with
            | Some (File data) =>
                match JSON_parse data with
                | Some j => Ok j
                | None => Throw SyntaxError
                end
            | Some (Dir _) => Throw EISDIR
            | None => Throw ENOENT
            end).
  { intros name. rewrite (record_at_frame _ _ name Hframe). unfold record_at.
    now rewrite (lookup_child _ name _ _ Hes). }
  split.
  - rewrite Hloaded. intros Hin. apply in_map_iff in Hin as (name & <- & Hn).
    pose proof (Hall name Hn) as Hok'.
    apply filter_In in Hn as [_ Hext].
    apply endsWith_spec in Hext as [stem ->].
    unfold record_of. rewrite Hrec in Hok' |- *.
    destruct (assoc _ es) as [[text|ds]|] eqn:Ea; try discriminate.
    destruct (JSON_parse text) as [j|] eqn:Ej; [|discriminate].
    exists stem, text. auto.
  - intros (stem & text & Ha & Hp). rewrite Hloaded. apply in_map_iff.
    exists (stem ++ ".jsonld")%string. split.
    + unfold record_of. now rewrite Hrec, Ha, Hp.
    + apply filter_In. split.
      * apply sort_names_In. eapply Permutation_in; [exact Hperm|].
        eapply assoc_In; eauto.
      * apply endsWith_spec. now exists stem.
Qed.

End MoreFacts.

(** * The further properties on the demo worlds *)

(** The data file of the apple pie is the same before and after the build
    of the pantry. *)
Lemma build_touches_output_only_witness :
  kind_at ["site"; "data"; "recipes"; "apple.jsonld"]
    (fs (final (@generateSite demo_runtime pantry)))
  = kind_at ["site"; "data"; "recipes"; "apple.jsonld"] (fs pantry).
Proof.
  apply (@build_touches_output_only demo_runtime pantry
           ["site"; "data"; "recipes"; "apple.jsonld"]).
  - exists ["site"], "data", "public", ["recipes"; "apple.jsonld"], [].
    split; [reflexivity|]. split; [reflexivity|discriminate].
  - intros dir seg E.
    change ["site"; "data"; "recipes"; "apple.jsonld"]
      with (["site"; "data"; "recipes"] ++ ["apple.jsonld"]) in E.
    apply app_inj_tail in E as [_ E].
    assert (H : endsWith "apple.jsonld" ".html" = true)
      by (apply endsWith_spec; now exists seg).
    discriminate H.
Defined.

(** The entry [crumpets.html] of the pantry's output is the page of the
    crumpets. *)
Lemma output_entries_witness :
  exists n,
    lookup (child (@publicDir demo_runtime) "crumpets.html")
      (fs (final (@generateSite demo_runtime pantry))) = Some n /\
    ("crumpets.html" = "index.html" /\
     (exists indexHtml,
        index_page demo_templates
          [crumpets_record; apple_record; berry_record] = Ok indexHtml /\
        n = File indexHtml) \/
     exists r html,
       In r [crumpets_record; apple_record; berry_record] /\
       @page_of demo_runtime demo_templates
         [crumpets_record; apple_record; berry_record] r
       = Ok (child (@publicDir demo_runtime) "crumpets.html", html) /\
       n = File html).
Proof.
  eexists. split; [vm_compute; reflexivity|].
  eapply (@output_entries_accounted demo_runtime pantry demo_templates).
  - vm_compute. reflexivity.
  - vm_compute. reflexivity.
  - vm_compute. reflexivity.
  - discriminate.
  - simpl. intros H. repeat (destruct H as [H|H]; [discriminate|]). exact H.
  - vm_compute. reflexivity.
Defined.

(** The page of the crumpets in the pantry. *)
Lemma record_page_witness :
  exists html,
    lookup (child (@publicDir demo_runtime) "crumpets.html")
      (fs (final (@generateSite demo_runtime pantry))) = Some (File html).
Proof.
  eexists.
  eapply (@record_page_on_disk demo_runtime pantry demo_templates
            _ _ _ _ crumpets_record "crumpets").
  - vm_compute. reflexivity.
  - vm_compute. reflexivity.
  - vm_compute. reflexivity.
  - left. reflexivity.
  - reflexivity.
  - reflexivity.
  - vm_compute. reflexivity.
  - vm_compute. reflexivity.
  - intros r' pg Hin. simpl in Hin.
    destruct Hin as [<-|[<-|[<-|[]]]]; vm_compute; intros [= <-] E;
      try reflexivity; discriminate E.
  - discriminate.
  - simpl. intros H. repeat (destruct H as [H|H]; [discriminate|]). exact H.
Defined.

(** A record with the slug [../stray] leaves [stray.html] beside the
    sources. *)
Lemma slug_escapes_witness :
  exists html,
    lookup (child (@rootDir odd_runtime) "stray.html")
      (fs (final (@generateSite odd_runtime runaway))) = Some (File html).
Proof.
  eexists.
  eapply (@slug_escapes_output odd_runtime runaway demo_templates
            _ _ _ _ stray_record "stray").
  - vm_compute. reflexivity.
  - vm_compute. reflexivity.
  - vm_compute. reflexivity.
  - right. left. reflexivity.
  - reflexivity.
  - reflexivity.
  - vm_compute. reflexivity.
  - vm_compute. reflexivity.
  - intros r' pg Hin. simpl in Hin.
    destruct Hin as [<-|[<-|[]]]; vm_compute; intros [= <-] E;
      try reflexivity; discriminate E.
Defined.

(** With a record whose slug is [index], [index.html] holds the index
    page all the same. *)
Lemma index_page_witness :
  exists indexHtml,
    index_page demo_templates [index_record; apple_record]
    = Ok indexHtml /\
    lookup (@indexPath odd_runtime)
      (fs (final (@generateSite odd_runtime index_twice)))
    = Some (File indexHtml).
Proof.
  eapply (@index_page_on_disk odd_runtime index_twice demo_templates).
  - vm_compute. reflexivity.
  - vm_compute. reflexivity.
  - vm_compute. reflexivity.
Defined.

(** The page of the apple pie is written before the build fails on the
    record whose slug cannot be converted. *)
Lemma failed_page_witness :
  exists wk e,
    exit_code (@generateSite odd_runtime unnameable) = 1%Z /\
    final (@generateSite odd_runtime unnameable) = with_line (LogError e) wk /\
    exists pages,
      Forall2 (fun r' pg =>
                 @page_of odd_runtime demo_templates
                   ([apple_record] ++ zest_record :: []) r' = Ok pg)
        [apple_record] pages /\
      forall p, kind_at p (fs (final (@generateSite odd_runtime unnameable))) =
                match last_page p pages with
                | Some html => KFile html
                | None => kind_at p (fs (snd (@load odd_runtime unnameable)))
                end.
Proof.
  eexists _, _.
  eapply (@failed_page_keeps_earlier_pages odd_runtime unnameable
            demo_templates _ _ [apple_record] zest_record []).
  - vm_compute. reflexivity.
  - vm_compute. reflexivity.
  - vm_compute. reflexivity.
  - vm_compute. reflexivity.
Defined.

(** A project without [index.hbs]. *)
Lemma missing_template_witness :
  exit_code (@generateSite demo_runtime untemplated) = 1%Z /\
  (exists e, console (final (@generateSite demo_runtime untemplated))
             = console untemplated ++ [LogError e]) /\
  (fs (final (@generateSite demo_runtime untemplated)) = fs untemplated \/
   lookup (@publicDir demo_runtime)
     (fs (final (@generateSite demo_runtime untemplated))) = Some (Dir []) /\
   forall q, diverge q (@publicDir demo_runtime) ->
     lookup q (fs (final (@generateSite demo_runtime untemplated)))
     = lookup q (fs untemplated)).
Proof.
  apply (@missing_template_aborts demo_runtime untemplated "index.hbs").
  - simpl. auto.
  - intros data. vm_compute. discriminate.
Defined.

(** A project without [data/recipes]. *)
Lemma missing_data_directory_witness :
  exit_code (@generateSite demo_runtime dataless) = 1%Z /\
  (exists e, console (final (@generateSite demo_runtime dataless))
             = console dataless ++ [LogError e]) /\
  (fs (final (@generateSite demo_runtime dataless)) = fs dataless \/
   lookup (@publicDir demo_runtime)
     (fs (final (@generateSite demo_runtime dataless))) = Some (Dir []) /\
   forall q, diverge q (@publicDir demo_runtime) ->
     lookup q (fs (final (@generateSite demo_runtime dataless)))
     = lookup q (fs dataless)).
Proof.
  apply (@missing_data_directory_aborts demo_runtime dataless).
  intros es. vm_compute. discriminate.
Defined.

(** A project where [public] is a regular file, under a release of
    fs-extra that passes the error of [readdir] on and under one that
    goes on to [mkdirs]. *)
Lemma output_path_is_file_witness :
  @generateSite demo_runtime blocked
  = {| exit_code := 1; final := with_line (LogError ENOTDIR) blocked |} /\
  @generateSite odd_runtime blocked
  = {| exit_code := 1; final := with_line (LogError EEXIST) blocked |}.
Proof.
  split.
  - apply (@output_path_is_file demo_runtime blocked "not a directory").
    reflexivity.
  - apply (@output_path_is_file odd_runtime blocked "not a directory").
    reflexivity.
Defined.

(** The sort of three records, two of them under one headline. *)
Lemma array_sort_permutation_witness :
  exists sorted,
    array_sort (@compare_headlines demo_runtime)
      [berry_record; apple_record; crumpets_record] = Ok sorted /\
    Permutation [berry_record; apple_record; crumpets_record] sorted.
Proof.
  eexists. split; [vm_compute; reflexivity|].
  apply (array_sort_permutation (@compare_headlines demo_runtime)).
  vm_compute. reflexivity.
Defined.

(** Two records, the first of them without a headline: it is only ever
    the argument of the comparison, and the sort returns. *)
Lemma sort_returns_witness :
  is_ok (array_sort (@compare_headlines demo_runtime)
           [JObj [("slug", JStr "untitled")]; apple_record])
  = true.
Proof.
  rewrite (@sort_returns_iff demo_runtime); [reflexivity|simpl; lia].
Defined.

(** The console of the pantry's build. *)
Lemma pages_reported_witness :
  exists rest,
    console (final (@generateSite demo_runtime pantry)) =
      console pantry
      ++ map (fun r => Log ("Generated: " ++ reported_name r))
           [crumpets_record; apple_record; berry_record]
      ++ Log "Generated: index.html" :: rest /\
    Forall (fun l => is_generated l = false) rest.
Proof.
  eapply (@pages_reported_in_sorted_order demo_runtime pantry demo_templates).
  - vm_compute. reflexivity.
  - vm_compute. reflexivity.
  - vm_compute. reflexivity.
Defined.

(** A data file that holds [null]. *)
Lemma unnameable_record_witness :
  exit_code (@generateSite odd_runtime void) = 1%Z.
Proof.
  eapply (@unnameable_record_aborts odd_runtime void demo_templates
            [JNull] _ JNull).
  - vm_compute. reflexivity.
  - left. reflexivity.
  - reflexivity.
Defined.

(** A record without a slug, beside the apple pie. *)
Lemma record_without_slug_witness :
  exists html,
    lookup (child (@publicDir odd_runtime) "undefined.html")
      (fs (final (@generateSite odd_runtime nameless))) = Some (File html).
Proof.
  eexists.
  eapply (@record_without_slug odd_runtime nameless demo_templates
            _ _ _ _ [("headline", JStr "Nameless")]).
  - vm_compute. reflexivity.
  - vm_compute. reflexivity.
  - vm_compute. reflexivity.
  - left. reflexivity.
  - reflexivity.
  - vm_compute. reflexivity.
  - vm_compute. reflexivity.
  - intros r' pg Hin. simpl in Hin.
    destruct Hin as [<-|[<-|[]]]; vm_compute; intros [= <-] E;
      try reflexivity; discriminate E.
Defined.

(** The crumpets are a record of the pantry, as the content of the entry
    [crumpets.jsonld]; the text file beside the data files gives none. *)
Lemma records_from_data_files_witness :
  In crumpets_record [apple_record; berry_record; crumpets_record] <->
  exists stem text,
    assoc (stem ++ ".jsonld")%string
      [notes_file; crumpets_file; apple_file; berry_file]
    = Some (File text) /\
    @JSON_parse demo_runtime text = Some crumpets_record.
Proof.
  apply (@records_come_from_data_files demo_runtime pantry demo_templates _
           (snd (@load demo_runtime pantry))).
  - vm_compute. reflexivity.
  - reflexivity.
  - apply Permutation_refl.
Defined.
